(** * armspeech: the bisque job graph and the corpus error sum

    A shallow embedding of [armspeech/bisque/distribute.py] (DAG nodes,
    artifacts, jobs, the two ancestor traversals) and of
    [armspeech/modelling/corpus.py] ([Corpus.sum], [Corpus.outError]).

    Python objects live in a heap indexed by their identity ([id(node)]);
    methods are computations in a state-and-error monad over that heap, the
    filesystem and the state the thunks act on.  The hashing, pickling and
    path primitives of [codedep], [persist] and [os.path] are not part of the
    two files: they are the fields of the class [Externals]. *)

From Stdlib Require Import Ascii.
From stdpp Require Import gmap strings list fin_maps pretty.

#[local] Set Warnings "-clear-no-such-hyp".

(** ** Values, errors, results *)

(** What [persist.secHashObject] is applied to in [distribute.py]: tuples of
    digests, strings, booleans and lists of digests. *)
#[warnings="-register-all"]
Inductive pyval :=
| VStr (s : string)
| VBool (b : bool)
| VTuple (l : list pyval)
| VList (l : list pyval).

(** [id(node)]: the identity of an object. *)
Abbreviation addr := nat (only parsing).
(** Digests are strings: [JobArtifact.loc] passes one to [os.path.join]. *)
Abbreviation digest := string (only parsing).
(** Names of classes and callables, the arguments of [codedep.getHash]. *)
Abbreviation code := string (only parsing).
(** A reference to an object built outside this module (the result of a
    thunk, an unpickled value); two references are the same object exactly
    when they are equal. *)
Abbreviation objref := nat (only parsing).

Inductive error :=
| HashChanged (node : addr)   (* RuntimeError('secHash of ... has changed') *)
| CannotSave                  (* RuntimeError('a ... cannot be saved') *)
| LengthMismatch              (* RuntimeError('actual and synthesized ...') *)
| AttributeError              (* method or attribute the object lacks *)
| NameError                   (* the body of Job.run: the name abstract *)
| IOError                     (* raised by a filesystem primitive *)
| NoSuchObject                (* a reference to no object: not reachable in Python *)
| OutOfFuel.                  (* the budget of the model is exhausted *)

Inductive res (A : Type) :=
| Ok (a : A)
| Err (e : error).
Arguments Ok {A} a.
Arguments Err {A} e.

Definition res_bind {A B} (m : res A) (f : A → res B) : res B :=
  match m with
  | Ok a => f a
  | Err e => Err e
  end.

Definition is_Ok {A} (m : res A) : Prop := ∃ a, m = Ok a.
Definition is_Err {A} (m : res A) : Prop := ∃ e, m = Err e.

(** ** Objects and the heap *)

Inductive kind :=
| ThunkArtifact (thunk : code) (shouldCache : bool) (_value : option objref)
| FixedDirArtifact (location : string)
| FixedFileArtifact (location : string)
| JobArtifact (parentJob : addr)
| Job (inputs : list addr) (name : string).

(** An object: its class ([self.__class__], which may be a subclass of the
    five above), the [_secHash] attribute once it exists, and its fields. *)
Record obj := Obj {
  cls : code;
  _secHash : option digest;
  body : kind
}.

Definition set_secHash (d : digest) (o : obj) : obj :=
  {| cls := cls o; _secHash := Some d; body := body o |}.

Definition set_value (v : objref) (o : obj) : obj :=
  {| cls := cls o; _secHash := _secHash o;
     body := match body o with
             | ThunkArtifact t c _ => ThunkArtifact t c (Some v)
             | k => k
             end |}.

(** [node.parents()], by class. *)
Definition obj_parents (o : obj) : list addr :=
  match body o with
  | ThunkArtifact _ _ _ => []
  | FixedDirArtifact _ => []
  | FixedFileArtifact _ => []
  | JobArtifact parentJob => [parentJob]
  | Job inputs _ => inputs
  end.

Definition parents (h : gmap addr obj) (node : addr) : res (list addr) :=
  match h !! node with
  | Some o => Ok (obj_parents o)
  | None => Err NoSuchObject
  end.

(** [art.parentArtifacts()]: [JobArtifact] reads [self.parentJob.inputs];
    [Job] has no such method. *)
Definition parentArtifacts (h : gmap addr obj) (art : addr) : res (list addr) :=
  match h !! art with
  | Some o =>
      match body o with
      | ThunkArtifact _ _ _ => Ok []
      | FixedDirArtifact _ => Ok []
      | FixedFileArtifact _ => Ok []
      | JobArtifact parentJob =>
          match h !! parentJob with
          | Some j =>
              match body j with
              | Job inputs _ => Ok inputs
              | _ => Err AttributeError
              end
          | None => Err NoSuchObject
          end
      | Job _ _ => Err AttributeError
      end
  | None => Err NoSuchObject
  end.

(** ** The ancestor traversals *)

(** [agenda.pop()]: the last element and the list without it. *)
Definition list_pop {A} (l : list A) : option (A * list A) :=
  match reverse l with
  | [] => None
  | x :: r => Some (x, reverse r)
  end.

(** The [while agenda:] loop shared, word for word, by [ancestors] and
    [ancestorArtifacts]; [rel] is the method called on the popped node.
    [lookup], a dict all of whose values are [True], is the set of its keys.
    One unit of [fuel] is one iteration. *)
Fixpoint walk_loop (rel : addr → res (list addr)) (fuel : nat)
    (agenda : list addr) (lookup : gset addr) (ret : list addr)
    : res (list addr) :=
  match fuel with
  | 0 => Err OutOfFuel
  | S fuel =>
      match list_pop agenda with
      | None => Ok ret
      | Some (node, agenda) =>
          if decide (node ∈ lookup) then walk_loop rel fuel agenda lookup ret
          else
            res_bind (rel node) (λ ps,
              walk_loop rel fuel (agenda ++ reverse ps)
                ({[node]} ∪ lookup) (ret ++ [node]))
      end
  end.

(** The number of elements [rel] can push for one node. *)
Definition rel_len (rel : addr → res (list addr)) (a : addr) : nat :=
  match rel a with
  | Ok ps => length ps
  | Err _ => 0
  end.

(** The pushes still possible: one batch per object not yet in [lookup]. *)
Definition pending (rel : addr → res (list addr)) (X : gset addr) : nat :=
  sum_list (rel_len rel <$> elements X).

(** Iterations that always suffice: every pop removes one element, and
    elements are only added when a node enters [lookup]. *)
Definition walk_bound (rel : addr → res (list addr)) (h : gmap addr obj)
    (initial : list addr) : nat :=
  length initial + pending rel (dom h).

Definition walk (rel : addr → res (list addr)) (h : gmap addr obj)
    (initial : list addr) : res (list addr) :=
  walk_loop rel (S (walk_bound rel h initial)) initial ∅ [].

Definition ancestors (h : gmap addr obj) (initialNodes : list addr)
    : res (list addr) :=
  walk (parents h) h initialNodes.

Definition ancestorArtifacts (h : gmap addr obj) (initialArts : list addr)
    : res (list addr) :=
  walk (parentArtifacts h) h initialArts.

(** Reachability along [rel], the starting nodes included. *)
Inductive reach (rel : addr → res (list addr)) (initial : list addr)
    : addr → Prop :=
| reach_init a : a ∈ initial → reach rel initial a
| reach_step a ps b :
    reach rel initial a → rel a = Ok ps → b ∈ ps → reach rel initial b.

(** ** The collaborators of the module *)

Inductive fsentry :=
| File (bytes : string)
| Dir.

(** The build repository: [buildRepo.cacheDir()]. *)
Record buildRepo := BuildRepo { cacheDir : string }.

(** What [loadValue] hands back: [FixedDirArtifact] returns its location, a
    string; a thunk or [persist.loadPickle] returns some object. *)
Inductive pyobj :=
| PStr (s : string)
| PRef (r : objref).

(** The primitives [distribute.py] imports.  [World] is whatever state the
    thunks read and write; a thunk returns a reference to its result, or
    raises. *)
Class Externals := {
  World : Type;
  getHash : code → digest;                      (* codedep.getHash *)
  secHashObject : pyval → digest;               (* persist.secHashObject *)
  hashBytes : string → digest;                  (* the digest of a file's bytes *)
  path_join : string → string → string;         (* os.path.join *)
  call_thunk : code → World → res (objref * World);   (* thunk() *)
  pickle : objref → string;                     (* persist.savePickle writes this *)
  unpickle : string → res objref                (* persist.loadPickle reads this *)
}.

(** Ghost events, for counting calls: [computeSecHash] entered on a node,
    the thunk of an artifact called. *)
Inductive event :=
| EvCompute (node : addr)
| EvThunk (art : addr).

#[global] Instance event_eq_dec : EqDecision event.
Proof. solve_decision. Defined.

Section model.
Context `{Ext : Externals}.

Record state := State {
  heap : gmap addr obj;
  fs : gmap string fsentry;
  world : World;
  trace : list event
}.

(** ** The monad of methods: state and exceptions *)

Definition M (A : Type) : Type := state → res (A * state).

Definition ret {A} (a : A) : M A := λ s, Ok (a, s).

Definition bind {A B} (m : M A) (f : A → M B) : M B :=
  λ s, match m s with
       | Ok (a, s') => f a s'
       | Err e => Err e
       end.

Definition raise {A} (e : error) : M A := λ _, Err e.

Notation "'let*' x := m 'in' k" := (bind m (λ x, k))
  (at level 10, x binder, m at level 100, k at level 200).

Definition lift {A} (r : res A) : M A :=
  λ s, match r with
       | Ok a => Ok (a, s)
       | Err e => Err e
       end.

Definition get_obj (a : addr) : M obj :=
  λ s, match heap s !! a with
       | Some o => Ok (o, s)
       | None => Err NoSuchObject
       end.

Definition set_heap (h : gmap addr obj) (s : state) : state :=
  {| heap := h; fs := fs s; world := world s; trace := trace s |}.

Definition modify_obj (a : addr) (f : obj → obj) : M unit :=
  let* o := get_obj a in
  λ s, Ok (tt, set_heap (<[a := f o]> (heap s)) s).

Definition emit (e : event) : M unit :=
  λ s, Ok (tt, {| heap := heap s; fs := fs s; world := world s;
                  trace := trace s ++ [e] |}).

(** A list comprehension [[ f(x) for x in l ]], evaluated left to right. *)
Fixpoint list_comp {A B} (f : A → M B) (l : list A) : M (list B) :=
  match l with
  | [] => ret []
  | x :: l =>
      let* y := f x in
      let* ys := list_comp f l in
      ret (y :: ys)
  end.

(** A [for x in l: f(x)] loop. *)
Fixpoint for_each {A} (f : A → M unit) (l : list A) : M unit :=
  match l with
  | [] => ret tt
  | x :: l => let* _ := f x in for_each f l
  end.

(** ** Filesystem primitives *)

(** [os.path.exists]. *)
Definition path_exists (p : string) : M bool :=
  λ s, Ok (bool_decide (is_Some (fs s !! p)), s).

(** Modelled from the spec: [persist.secHashFile] is not in the two source
    files; the spec has it as [hashOfFileBytes(path) -> digest].  Reading
    fails when there is no file at the path. *)
Definition secHashFile (location : string) : M digest :=
  λ s, match fs s !! location with
       | Some (File bytes) => Ok (hashBytes bytes, s)
       | _ => Err IOError
       end.

(** Modelled from the spec: [persist.loadPickle],
    [deserializeFromPath(path) -> value]. *)
Definition loadPickle (location : string) : M objref :=
  λ s, match fs s !! location with
       | Some (File bytes) =>
           match unpickle bytes with
           | Ok v => Ok (v, s)
           | Err e => Err e
           end
       | _ => Err IOError
       end.

(** Modelled from the spec: [persist.savePickle],
    [serializeToPath(path, value)]. *)
Definition savePickle (location : string) (value : objref) : M unit :=
  λ s, Ok (tt, {| heap := heap s;
                  fs := <[location := File (pickle value)]> (fs s);
                  world := world s; trace := trace s |}).

(** ** DagNode, Artifact, Job: the hashing methods *)

(** The five [computeSecHash] methods, by class; [secHash] is the method
    they call on other nodes. *)
Definition computeSecHash_with (secHash : addr → M digest) (self : addr)
    : M digest :=
  let* o := get_obj self in
  let* _ := emit (EvCompute self) in
  let secHashSource := getHash (cls o) in
  match body o with
  | ThunkArtifact thunk shouldCache _ =>
      let secHashThunk := getHash thunk in
      ret (secHashObject
             (VTuple [VStr secHashSource; VStr secHashThunk; VBool shouldCache]))
  | FixedDirArtifact location =>
      ret (secHashObject (VTuple [VStr secHashSource; VStr location]))
  | FixedFileArtifact location =>
      let* secHashFile := secHashFile location in
      ret (secHashObject (VTuple [VStr secHashSource; VStr secHashFile]))
  | JobArtifact parentJob =>
      let* d := secHash parentJob in
      ret (secHashObject (VTuple [VStr secHashSource; VStr d]))
  | Job inputs _ =>
      let* secHashInputs := list_comp secHash inputs in
      ret (secHashObject
             (VTuple [VStr secHashSource; VList (VStr <$> secHashInputs)]))
  end.

(** [DagNode.secHash].  [fuel] bounds how deeply [secHash] calls nest; a
    cyclic graph exhausts any budget, as it exhausts Python's stack. *)
Fixpoint secHash (fuel : nat) (self : addr) : M digest :=
  match fuel with
  | 0 => raise OutOfFuel
  | S fuel =>
      let* o := get_obj self in
      match _secHash o with
      | Some d => ret d
      | None =>
          let* d := computeSecHash_with (secHash fuel) self in
          let* _ := modify_obj self (set_secHash d) in
          ret d
      end
  end.

Definition computeSecHash (fuel : nat) (self : addr) : M digest :=
  computeSecHash_with (secHash fuel) self.

(** [Artifact.checkSecHash] and [Job.checkSecHash]: the same test, two
    messages. *)
Definition checkSecHash (fuel : nat) (self : addr) : M unit :=
  let* d := secHash (S fuel) self in
  let* d' := computeSecHash fuel self in
  if decide (d = d') then ret tt else raise (HashChanged self).

(** [DagNode.checkAllSecHash]. *)
Definition checkAllSecHash (fuel : nat) (self : addr) : M unit :=
  let* nodes := (λ s, lift (ancestors (heap s) [self]) s) in
  for_each (checkSecHash fuel) nodes.

(** ** Artifacts: location, presence, value *)

(** [loc]: [ThunkArtifact] and [Job] have no such method. *)
Definition loc (fuel : nat) (self : addr) (repo : buildRepo) : M string :=
  let* o := get_obj self in
  match body o with
  | FixedDirArtifact location => ret location
  | FixedFileArtifact location => ret location
  | JobArtifact _ =>
      let* d := secHash fuel self in
      ret (path_join (cacheDir repo) d)
  | ThunkArtifact _ _ _ | Job _ _ => raise AttributeError
  end.

Definition isDone (fuel : nat) (self : addr) (repo : buildRepo) : M bool :=
  let* o := get_obj self in
  match body o with
  | ThunkArtifact _ _ _ => ret true
  | FixedDirArtifact location => path_exists location
  | FixedFileArtifact location => path_exists location
  | JobArtifact _ =>
      let* p := loc fuel self repo in
      path_exists p
  | Job _ _ => raise AttributeError
  end.

(** [self.thunk()], with the ghost event that counts it. *)
Definition run_thunk (self : addr) (thunk : code) : M objref :=
  let* _ := emit (EvThunk self) in
  λ s, match call_thunk thunk (world s) with
       | Ok (v, w) =>
           Ok (v, {| heap := heap s; fs := fs s; world := w; trace := trace s |})
       | Err e => Err e
       end.

(** [loadValue]: [FixedFileArtifact] leaves it to its subclasses. *)
Definition loadValue (fuel : nat) (self : addr) (repo : buildRepo) : M pyobj :=
  let* o := get_obj self in
  match body o with
  | ThunkArtifact thunk shouldCache _value =>
      if shouldCache then
        match _value with
        | None =>
            let* v := run_thunk self thunk in
            let* _ := modify_obj self (set_value v) in
            ret (PRef v)
        | Some v => ret (PRef v)
        end
      else
        let* v := run_thunk self thunk in
        ret (PRef v)
  | FixedDirArtifact location => ret (PStr location)
  | FixedFileArtifact _ => raise AttributeError
  | JobArtifact _ =>
      let* p := loc fuel self repo in
      let* v := loadPickle p in
      ret (PRef v)
  | Job _ _ => raise AttributeError
  end.

Definition saveValue (fuel : nat) (self : addr) (repo : buildRepo)
    (value : objref) : M unit :=
  let* o := get_obj self in
  match body o with
  | ThunkArtifact _ _ _ => raise CannotSave
  | FixedDirArtifact _ => raise CannotSave
  | FixedFileArtifact _ => raise AttributeError
  | JobArtifact _ =>
      let* p := loc fuel self repo in
      savePickle p value
  | Job _ _ => raise AttributeError
  end.

(** ** Construction *)

(** A new object gets an identity no live object has. *)
Definition new_obj (o : obj) : M addr :=
  λ s, let a := fresh (dom (heap s)) in
       Ok (a, set_heap (<[a := o]> (heap s)) s).

(** The constructors: they store their arguments and nothing else. *)
Definition new_ThunkArtifact (thunk : code) (shouldCache : bool) : M addr :=
  new_obj (Obj "ThunkArtifact" None (ThunkArtifact thunk shouldCache None)).

Definition new_FixedDirArtifact (location : string) : M addr :=
  new_obj (Obj "FixedDirArtifact" None (FixedDirArtifact location)).

Definition new_FixedFileArtifact (location : string) : M addr :=
  new_obj (Obj "FixedFileArtifact" None (FixedFileArtifact location)).

Definition new_JobArtifact (parentJob : addr) : M addr :=
  new_obj (Obj "JobArtifact" None (JobArtifact parentJob)).

(** ** Job *)

Definition parentJobs (self : addr) : M (list addr) :=
  let* o := get_obj self in
  match body o with
  | Job inputs _ =>
      let* pss := list_comp (λ input s, lift (parents (heap s) input) s) inputs in
      ret (concat pss)
  | _ => raise AttributeError
  end.

Definition newOutput (self : addr) : M addr :=
  let* o := get_obj self in
  match body o with
  | Job _ _ => new_JobArtifact self
  | _ => raise AttributeError
  end.

(** [Job.run]: its body is the undefined name [abstract]. *)
Definition run (self : addr) (repo : buildRepo) : M unit :=
  let* o := get_obj self in
  match body o with
  | Job _ _ => raise NameError
  | _ => raise AttributeError
  end.

(** Every method a node has, as one call. *)
Inductive call :=
| CallSecHash (self : addr)
| CallComputeSecHash (self : addr)
| CallCheckSecHash (self : addr)
| CallCheckAllSecHash (self : addr)
| CallParents (self : addr)
| CallParentArtifacts (self : addr)
| CallLoc (self : addr) (repo : buildRepo)
| CallIsDone (self : addr) (repo : buildRepo)
| CallLoadValue (self : addr) (repo : buildRepo)
| CallSaveValue (self : addr) (repo : buildRepo) (value : objref)
| CallParentJobs (self : addr)
| CallNewOutput (self : addr)
| CallRun (self : addr) (repo : buildRepo).

Definition forget {A} (m : M A) : M unit := let* _ := m in ret tt.

Definition exec (fuel : nat) (c : call) : M unit :=
  match c with
  | CallSecHash self => forget (secHash fuel self)
  | CallComputeSecHash self => forget (computeSecHash fuel self)
  | CallCheckSecHash self => checkSecHash fuel self
  | CallCheckAllSecHash self => checkAllSecHash fuel self
  | CallParents self => forget (λ s, lift (parents (heap s) self) s)
  | CallParentArtifacts self => forget (λ s, lift (parentArtifacts (heap s) self) s)
  | CallLoc self repo => forget (loc fuel self repo)
  | CallIsDone self repo => forget (isDone fuel self repo)
  | CallLoadValue self repo => forget (loadValue fuel self repo)
  | CallSaveValue self repo value => saveValue fuel self repo value
  | CallParentJobs self => forget (parentJobs self)
  | CallNewOutput self => forget (newOutput self)
  | CallRun self repo => run self repo
  end.

(** ** What a process does to a graph *)

(** An assignment to [job.inputs] (or a change of the list in place). *)
Definition set_inputs (job : addr) (inputs : list addr) : M unit :=
  let* o := get_obj job in
  match body o with
  | Job _ name =>
      modify_obj job (λ o, Obj (cls o) (_secHash o) (Job inputs name))
  | _ => raise AttributeError
  end.

(** One thing the code around the graph does: call a method of a node, or
    give a job other inputs. *)
Inductive step :=
| StepCall (fuel : nat) (c : call)
| StepSetInputs (job : addr) (inputs : list addr).

Definition do_step (st : step) : M unit :=
  match st with
  | StepCall fuel c => exec fuel c
  | StepSetInputs job inputs => set_inputs job inputs
  end.

(** A run of steps each of which returns. *)
Definition run_steps (steps : list step) : M unit := for_each do_step steps.

End model.

Notation "'let*' x := m 'in' k" := (bind m (λ x, k))
  (at level 10, x binder, m at level 100, k at level 200).

(** ** Corpus: sums over utterances *)

Module Corpus.

(** [d.SynthMethod], as far as [corpus.py] names it. *)
Inductive SynthMethod := Meanish | Sample.

Section corpus.
(** The corpus subclass supplies [data]; the caller supplies the
    distribution, the error function and the two conversions.  [Num] is the
    type of the numbers [vecError] returns, with Python's [0] and [+]. *)
Context {UttId Input Output Frame Vec Num : Type}.
Variable data : UttId → Input * Output.
Variable dist_synth : Input → SynthMethod → Output → Output.
Variable vecError : Vec → Vec → Num.
Variable frameToVec : Frame → Vec.
Variable outputToFrameSeq : Output → list Frame.
Variable num_zero : Num.
Variable num_add : Num → Num → Num.

(** The builtin [sum]: [((0 + x1) + x2) + ...]. *)
Definition py_sum (l : list Num) : Num := fold_left num_add l num_zero.

(** A list comprehension whose body may raise. *)
Fixpoint res_comp {A B} (f : A → res B) (l : list A) : res (list B) :=
  match l with
  | [] => Ok []
  | x :: l =>
      res_bind (f x) (λ y, res_bind (res_comp f l) (λ ys, Ok (y :: ys)))
  end.

(** [Corpus.sum]. *)
Definition sum (uttIds : list UttId) (computeValue : Input → Output → res Num)
    : res Num :=
  res_bind
    (res_comp (λ uttId, let '(input, output) := data uttId in
                        computeValue input output) uttIds)
    (λ values, Ok (py_sum values)).

(** The [computeValue] local to [outError]. *)
Definition outError_computeValue (input : Input) (actualOutput : Output)
    : res Num :=
  let synthOutput := dist_synth input Meanish actualOutput in
  let synthFrameSeq := outputToFrameSeq synthOutput in
  let actualFrameSeq := outputToFrameSeq actualOutput in
  if decide (length actualFrameSeq ≠ length synthFrameSeq) then
    Err LengthMismatch
  else
    let error :=
      py_sum ((λ '(synthFrame, actualFrame),
                 vecError (frameToVec synthFrame) (frameToVec actualFrame))
              <$> zip synthFrameSeq actualFrameSeq) in
    Ok error.

(** [Corpus.outError]. *)
Definition outError (uttIds : list UttId) : res Num :=
  sum uttIds outError_computeValue.

(** The frames of an utterance, synthesized and actual. *)
Definition synthFrames (uttId : UttId) : list Frame :=
  outputToFrameSeq (dist_synth (data uttId).1 Meanish (data uttId).2).

Definition actualFrames (uttId : UttId) : list Frame :=
  outputToFrameSeq (data uttId).2.

(** The error of one utterance: frame [i] against frame [i]. *)
Definition uttError (uttId : UttId) : Num :=
  py_sum (zip_with (λ s a, vecError (frameToVec s) (frameToVec a))
            (synthFrames uttId) (actualFrames uttId)).

End corpus.
End Corpus.

(** ** The environment changing a file *)

(** The filesystem is shared with the rest of the machine: its contents can
    change between two calls. *)
Definition set_fs `{Ext : Externals} (fsys : gmap string fsentry) (s : state)
    : state :=
  {| heap := heap s; fs := fsys; world := world s; trace := trace s |}.

(** ** A concrete set of collaborators, for the examples *)

Module Toy.

(** A value as a tree, leaves being its strings and booleans. *)
Fixpoint pyval_tree (v : pyval) : gen_tree (string + bool) :=
  match v with
  | VStr s => GenLeaf (inl s)
  | VBool b => GenLeaf (inr b)
  | VTuple l => GenNode 0 (pyval_tree <$> l)
  | VList l => GenNode 1 (pyval_tree <$> l)
  end.

(** A collision-free stand-in for [persist.secHashObject]: the decimal
    numeral of the code of the tree.  It is sealed: the examples compare
    digests, they never print one. *)
Definition toy_secHashObject_def (v : pyval) : string :=
  pretty (encode (pyval_tree v)).

Definition toy_secHashObject_aux : seal toy_secHashObject_def.
Proof. by eexists. Qed.

Definition toy_secHashObject : pyval → string := toy_secHashObject_aux.(unseal).

Definition toy_secHashObject_unseal :
  toy_secHashObject = toy_secHashObject_def := toy_secHashObject_aux.(seal_eq).

(** [posixpath.join] for two components: an absolute second component
    wins, and no separator follows an empty path or a trailing one. *)
Fixpoint no_sep_needed (a : string) : bool :=
  match a with
  | EmptyString => true
  | String "/"%char EmptyString => true
  | String _ EmptyString => false
  | String _ r => no_sep_needed r
  end.

Definition toy_path_join (a b : string) : string :=
  match b with
  | String "/"%char _ => b
  | _ => if no_sep_needed a then a +:+ b else a +:+ "/" +:+ b
  end.

#[global] Instance externals : Externals := {|
  World := nat;
  getHash c := "src:" +:+ c;
  secHashObject := toy_secHashObject;
  hashBytes bytes := "sha:" +:+ bytes;
  path_join := toy_path_join;
  call_thunk _ w := Ok (w, S w);
  pickle v := pretty v;
  unpickle bytes := Ok (String.length bytes)
|}.

End Toy.

(** ** An example graph

    Two fixed directories at the same place (1, 2), two jobs of one class
    over them (3, 4), the output of job 3 (5), a job over that output and
    directory 1 (6: node 1 is reached along two paths), a caching thunk
    (7), a fixed file (8), a fixed directory that is not there (9) and a
    thunk that does not cache (10). *)
Module Example.
Import Toy.

Definition objects : gmap addr obj :=
  list_to_map [
    (1, Obj "FixedDirArtifact" None (FixedDirArtifact "/data"));
    (2, Obj "FixedDirArtifact" None (FixedDirArtifact "/data"));
    (3, Obj "TrainJob" None (Job [1] "train"));
    (4, Obj "TrainJob" None (Job [2] "train-again"));
    (5, Obj "JobArtifact" None (JobArtifact 3));
    (6, Obj "EvalJob" None (Job [5; 1] "eval"));
    (7, Obj "ThunkArtifact" None (ThunkArtifact "makeModel" true None));
    (8, Obj "FixedFileArtifact" None (FixedFileArtifact "/etc/conf"));
    (9, Obj "FixedDirArtifact" None (FixedDirArtifact "/no/such/dir"));
    (10, Obj "ThunkArtifact" None (ThunkArtifact "readClock" false None))
  ].

Definition files : gmap string fsentry :=
  list_to_map [("/data", Dir); ("/etc/conf", File "rate=1")].

Definition st : state := State objects files 0 [].

Definition repo : buildRepo := BuildRepo "/cache".

(** A cycle: job 1 takes as input its own output 2. *)
Definition cyclic : gmap addr obj :=
  list_to_map [
    (1, Obj "LoopJob" None (Job [2] "loop"));
    (2, Obj "JobArtifact" None (JobArtifact 1))
  ].

(** The example graph after [secHash] was called on node 6, and then with
    the hash stored at node 1 replaced by another digest. *)
Definition st_hashed : state :=
  match secHash 6 6 st with
  | Ok (_, s) => s
  | Err _ => st
  end.

Definition bogus : string := secHashObject (VStr "bogus").

Definition st_drifted : state :=
  State (<[1 := Obj "FixedDirArtifact" (Some bogus) (FixedDirArtifact "/data")]>
           (heap st_hashed))
    files 0 [].

(** The example graph after a first [loadValue] on the caching thunk and a
    [secHash] elsewhere. *)
Definition steps_loaded : list step :=
  [StepCall 1 (CallLoadValue 7 repo); StepCall 6 (CallSecHash 6)].

Definition st_loaded : state :=
  match run_steps steps_loaded st with
  | Ok (_, s) => s
  | Err _ => st
  end.

End Example.

(** ** The traversal loop: termination and result *)

Section walk.
Variable rel : addr → res (list addr).
Variable h : gmap addr obj.
Variable initial : list addr.

(** [rel] answers only for allocated objects and never runs out of fuel:
    both hold of [parents h] and [parentArtifacts h]. *)
Hypothesis rel_dom : ∀ a ps, rel a = Ok ps → a ∈ dom h.
Hypothesis rel_fuel : ∀ a, rel a ≠ Err OutOfFuel.

Lemma list_pop_nil {A} (l : list A) : list_pop l = None → l = [].
Proof.
  unfold list_pop. destruct (reverse l) eqn:E; [|done].
  intros _. by rewrite <-(reverse_involutive l), E.
Qed.

Lemma list_pop_snoc {A} (l l' : list A) x :
  list_pop l = Some (x, l') → l = l' ++ [x].
Proof.
  unfold list_pop. destruct (reverse l) eqn:E; [done|].
  intros [= <- <-]. by rewrite <-(reverse_involutive l), E, reverse_cons.
Qed.

Lemma sum_list_perm (l k : list nat) : l ≡ₚ k → sum_list l = sum_list k.
Proof. induction 1; simpl; lia. Qed.

Lemma pending_remove (X : gset addr) a :
  a ∈ X → pending rel X = rel_len rel a + pending rel (X ∖ {[a]}).
Proof.
  intros Ha. unfold pending.
  assert (X = {[a]} ∪ X ∖ {[a]}) as HX.
  { apply set_eq. intros x. destruct (decide (x = a)); set_solver. }
  rewrite HX at 1.
  rewrite (sum_list_perm _ (rel_len rel <$> a :: elements (X ∖ {[a]}))); [done|].
  apply fmap_Permutation, elements_union_singleton. set_solver.
Qed.

(** The measure of a loop state: what is on the agenda plus what can
    still be pushed. *)
Definition walk_measure (agenda : list addr) (lookup : gset addr) : nat :=
  length agenda + pending rel (dom h ∖ lookup).

Lemma walk_loop_enough fuel1 : ∀ fuel2 agenda lookup ret,
  walk_measure agenda lookup < fuel1 →
  walk_measure agenda lookup < fuel2 →
  walk_loop rel fuel1 agenda lookup ret = walk_loop rel fuel2 agenda lookup ret
  ∧ walk_loop rel fuel1 agenda lookup ret ≠ Err OutOfFuel.
Proof.
  induction fuel1 as [|fuel1 IH]; intros fuel2 agenda lookup ret H1 H2; [lia|].
  destruct fuel2 as [|fuel2]; [lia|]. simpl.
  destruct (list_pop agenda) as [[node agenda']|] eqn:Hpop; [|done].
  apply list_pop_snoc in Hpop. subst agenda.
  unfold walk_measure in H1, H2. rewrite length_app in H1, H2. simpl in H1, H2.
  destruct (decide (node ∈ lookup)) as [Hin|Hin].
  - apply IH; unfold walk_measure; lia.
  - destruct (rel node) as [ps|e] eqn:Hrel; simpl.
    + assert (node ∈ dom h ∖ lookup) as Hn.
      { apply elem_of_difference. split; [by eapply rel_dom|done]. }
      pose proof (pending_remove _ _ Hn) as Hp.
      unfold rel_len in Hp. rewrite Hrel in Hp.
      assert (dom h ∖ lookup ∖ {[node]} = dom h ∖ ({[node]} ∪ lookup)) as Hs
        by set_solver.
      rewrite Hs in Hp.
      apply IH; unfold walk_measure; rewrite length_app, length_reverse; lia.
    + split; [done|]. intros [= ->]. by apply (rel_fuel node).
Qed.

Lemma walk_measure_initial : walk_measure initial ∅ = walk_bound rel h initial.
Proof.
  unfold walk_measure, walk_bound. do 2 f_equal. set_solver.
Qed.

Lemma walk_total fuel :
  walk_bound rel h initial < fuel →
  walk_loop rel fuel initial ∅ [] = walk rel h initial
  ∧ walk rel h initial ≠ Err OutOfFuel.
Proof.
  intros Hf. unfold walk.
  destruct (walk_loop_enough (S (walk_bound rel h initial)) fuel initial ∅ [])
    as [Heq Hne]; rewrite ?walk_measure_initial; [lia..|].
  by rewrite Heq in *.
Qed.

(** The loop invariant: [ret] lists [lookup] without repetition, only
    reachable nodes were ever seen, and whatever [ret] leads to is in
    [ret] or waiting on the agenda. *)
Record walk_inv (agenda : list addr) (lookup : gset addr)
    (ret : list addr) : Prop := {
  inv_nodup : NoDup ret;
  inv_lookup : ∀ x, x ∈ ret ↔ x ∈ lookup;
  inv_reach : ∀ x, x ∈ ret ∨ x ∈ agenda → reach rel initial x;
  inv_init : ∀ x, x ∈ initial → x ∈ ret ∨ x ∈ agenda;
  inv_closed : ∀ x ps y,
    x ∈ ret → rel x = Ok ps → y ∈ ps → y ∈ ret ∨ y ∈ agenda
}.

Lemma walk_inv_initial : walk_inv initial ∅ [].
Proof.
  split.
  - constructor.
  - intros x. set_solver.
  - intros x [Hx|Hx]; [by apply elem_of_nil in Hx|by constructor].
  - auto.
  - intros x ps y Hx. by apply elem_of_nil in Hx.
Qed.

Lemma walk_inv_skip agenda lookup ret node :
  node ∈ lookup → walk_inv (agenda ++ [node]) lookup ret →
  walk_inv agenda lookup ret.
Proof.
  intros Hin [Hnd Hlk Hre Hini Hcl]. split; [done|done|..].
  - intros x Hx. apply Hre. set_solver.
  - intros x Hx. destruct (Hini x Hx) as [?|Hx']; [by left|].
    apply elem_of_app in Hx' as [?|Hx']; [by right|].
    apply list_elem_of_singleton in Hx' as ->. left. by apply Hlk.
  - intros x ps y Hx Hps Hy. destruct (Hcl x ps y Hx Hps Hy) as [?|Hy']; [by left|].
    apply elem_of_app in Hy' as [?|Hy']; [by right|].
    apply list_elem_of_singleton in Hy' as ->. left. by apply Hlk.
Qed.

Lemma walk_inv_visit agenda lookup ret node ps :
  node ∉ lookup → rel node = Ok ps →
  walk_inv (agenda ++ [node]) lookup ret →
  walk_inv (agenda ++ reverse ps) ({[node]} ∪ lookup) (ret ++ [node]).
Proof.
  intros Hin Hrel [Hnd Hlk Hre Hini Hcl]. split.
  - apply NoDup_app. split; [done|]. split; [|apply NoDup_singleton].
    intros x Hx Hx'. apply list_elem_of_singleton in Hx' as ->.
    by apply Hin, Hlk.
  - intros x. rewrite elem_of_app, list_elem_of_singleton, Hlk. set_solver.
  - intros x. rewrite !elem_of_app, list_elem_of_singleton, elem_of_reverse.
    intros [[Hx| ->]|[Hx|Hx]].
    + apply Hre. by left.
    + apply Hre. right. set_solver.
    + apply Hre. right. set_solver.
    + apply (reach_step _ _ node ps); [|done..]. apply Hre. right. set_solver.
  - intros x Hx. rewrite !elem_of_app, list_elem_of_singleton.
    destruct (Hini x Hx) as [?|Hx']; [by left; left|].
    apply elem_of_app in Hx' as [?|Hx']; [by right; left|].
    apply list_elem_of_singleton in Hx' as ->. by left; right.
  - intros x qs y. rewrite !elem_of_app, !list_elem_of_singleton, elem_of_reverse.
    intros [Hx| ->] Hqs Hy.
    + destruct (Hcl x qs y Hx Hqs Hy) as [?|Hy']; [by left; left|].
      apply elem_of_app in Hy' as [?|Hy']; [by right; left|].
      apply list_elem_of_singleton in Hy' as ->. by left; right.
    + rewrite Hrel in Hqs. injection Hqs as ->. by right; right.
Qed.

Lemma walk_inv_final lookup ret :
  walk_inv [] lookup ret →
  NoDup ret ∧ ∀ x, x ∈ ret ↔ reach rel initial x.
Proof.
  intros [Hnd Hlk Hre Hini Hcl]. split; [done|].
  intros x. split; [intros; apply Hre; by left|].
  induction 1 as [a Ha|a ps b _ IH Hps Hb].
  - destruct (Hini a Ha) as [?|Hn]; [done|by apply elem_of_nil in Hn].
  - destruct (Hcl a ps b IH Hps Hb) as [?|Hn]; [done|by apply elem_of_nil in Hn].
Qed.

Lemma walk_loop_result fuel : ∀ agenda lookup ret out,
  walk_inv agenda lookup ret →
  walk_loop rel fuel agenda lookup ret = Ok out →
  NoDup out ∧ ∀ x, x ∈ out ↔ reach rel initial x.
Proof.
  induction fuel as [|fuel IH]; intros agenda lookup ret out Hinv; [done|].
  simpl. destruct (list_pop agenda) as [[node agenda']|] eqn:Hpop.
  - apply list_pop_snoc in Hpop. subst agenda.
    destruct (decide (node ∈ lookup)) as [Hin|Hin].
    + apply IH. by eapply walk_inv_skip.
    + destruct (rel node) as [ps|e] eqn:Hrel; [|done]. simpl.
      apply IH. by apply walk_inv_visit.
  - apply list_pop_nil in Hpop. subst agenda. intros [= <-].
    by eapply walk_inv_final.
Qed.

(** With every reachable node answering, the loop cannot fail. *)
Lemma walk_loop_no_error fuel : ∀ agenda lookup ret e,
  (∀ x, reach rel initial x → is_Ok (rel x)) →
  walk_inv agenda lookup ret →
  walk_loop rel fuel agenda lookup ret = Err e → e = OutOfFuel.
Proof.
  induction fuel as [|fuel IH]; intros agenda lookup ret e Hok Hinv.
  { by intros [= <-]. }
  simpl. destruct (list_pop agenda) as [[node agenda']|] eqn:Hpop; [|done].
  apply list_pop_snoc in Hpop. subst agenda.
  destruct (decide (node ∈ lookup)) as [Hin|Hin].
  - apply IH; [done|]. by eapply walk_inv_skip.
  - destruct (Hok node) as [ps Hrel].
    { apply (inv_reach _ _ _ Hinv). right. set_solver. }
    rewrite Hrel. simpl. apply IH; [done|]. by apply walk_inv_visit.
Qed.

Lemma walk_correct :
  (∀ x, reach rel initial x → is_Ok (rel x)) →
  ∃ out, walk rel h initial = Ok out
         ∧ NoDup out ∧ ∀ x, x ∈ out ↔ reach rel initial x.
Proof.
  intros Hok. destruct (walk rel h initial) as [out|e] eqn:Hw.
  - exists out. split; [done|].
    eapply walk_loop_result; [apply walk_inv_initial|apply Hw].
  - exfalso. destruct (walk_total (S (walk_bound rel h initial))) as [_ Hne];
      [lia|]. apply Hne. rewrite Hw. f_equal.
    eapply walk_loop_no_error; [done|apply walk_inv_initial|apply Hw].
Qed.
End walk.

(** ** Reasoning about monadic code *)

Section monad.
Context `{Ext : Externals}.

Lemma bind_Ok {A B} (m : M A) (f : A → M B) s r :
  bind m f s = Ok r ↔ ∃ a s1, m s = Ok (a, s1) ∧ f a s1 = Ok r.
Proof.
  unfold bind. split.
  - destruct (m s) as [[a s1]|e]; [eauto|done].
  - intros (a & s1 & -> & Hf). done.
Qed.

Lemma bind_Err {A B} (m : M A) (f : A → M B) s e :
  bind m f s = Err e ↔
  m s = Err e ∨ ∃ a s1, m s = Ok (a, s1) ∧ f a s1 = Err e.
Proof.
  unfold bind. split.
  - destruct (m s) as [[a s1]|e']; [eauto|]. intros [= ->]. by left.
  - intros [->|(a & s1 & -> & Hf)]; done.
Qed.

Lemma get_obj_Ok a s o s' :
  get_obj a s = Ok (o, s') ↔ heap s !! a = Some o ∧ s' = s.
Proof.
  unfold get_obj. destruct (heap s !! a); split; try done.
  - by intros [= -> ->].
  - by intros [[= ->] ->].
  - by intros [? _].
Qed.

Lemma modify_obj_Ok a f s u s' :
  modify_obj a f s = Ok (u, s') ↔
  ∃ o, heap s !! a = Some o ∧ s' = set_heap (<[a := f o]> (heap s)) s.
Proof.
  unfold modify_obj. rewrite bind_Ok. split.
  - intros (o & s1 & [Ho ->]%get_obj_Ok & [= <- <-]). eauto.
  - intros (o & Ho & ->). exists o, s. rewrite get_obj_Ok. by destruct u.
Qed.

Lemma emit_Ok ev s u s' :
  emit ev s = Ok (u, s') ↔
  s' = State (heap s) (fs s) (world s) (trace s ++ [ev]).
Proof. unfold emit. destruct u. split; [by intros [= <-]|by intros ->]. Qed.

Lemma ret_Ok {A} (a b : A) s s' : ret a s = Ok (b, s') ↔ a = b ∧ s' = s.
Proof. unfold ret. split; [by intros [= -> ->]|by intros [-> ->]]. Qed.

End monad.

(** Turns a hypothesis that a sequence of binds returned into one
    hypothesis for each step. *)
Ltac inv_run :=
  repeat match goal with
  | H : bind _ _ _ = Ok _ |- _ =>
      apply bind_Ok in H as (? & ? & ? & H)
  | H : get_obj _ _ = Ok _ |- _ =>
      apply get_obj_Ok in H as [H ->]
  | H : emit _ _ = Ok _ |- _ => apply emit_Ok in H as ->
  | H : ret _ _ = Ok _ |- _ => apply ret_Ok in H as [<- ->]
  | H : modify_obj _ _ _ = Ok _ |- _ =>
      apply modify_obj_Ok in H as (? & H & ->)
  | H : raise _ _ = Ok _ |- _ => discriminate H
  end.

(** ** The hash a node answers with, as a function of the heap *)

Section hashing.
Context `{Ext : Externals}.

Implicit Types (h : gmap addr obj) (fsys : gmap string fsentry).

(** [o'] is [o] with, possibly, a [_secHash] it lacked. *)
Definition obj_le (o o' : obj) : Prop :=
  cls o = cls o' ∧ body o = body o'
  ∧ ∀ d, _secHash o = Some d → _secHash o' = Some d.

(** Same objects, same fields, hashes only added. *)
Definition heap_le h h' : Prop :=
  ∀ a, option_Forall2 obj_le (h !! a) (h' !! a).

(** [computeSecHash] without the state: [rec] answers for other nodes. *)
Definition cval_with (rec : addr → option digest) fsys (o : obj)
    : option digest :=
  let secHashSource := getHash (cls o) in
  match body o with
  | ThunkArtifact thunk shouldCache _ =>
      Some (secHashObject
              (VTuple [VStr secHashSource; VStr (getHash thunk); VBool shouldCache]))
  | FixedDirArtifact location =>
      Some (secHashObject (VTuple [VStr secHashSource; VStr location]))
  | FixedFileArtifact location =>
      match fsys !! location with
      | Some (File bytes) =>
          Some (secHashObject (VTuple [VStr secHashSource; VStr (hashBytes bytes)]))
      | _ => None
      end
  | JobArtifact parentJob =>
      d ← rec parentJob;
      Some (secHashObject (VTuple [VStr secHashSource; VStr d]))
  | Job inputs _ =>
      ds ← mapM rec inputs;
      Some (secHashObject (VTuple [VStr secHashSource; VList (VStr <$> ds)]))
  end.

(** What [secHash] returns, read off the heap: the stored hash if there is
    one, the computed one otherwise. *)
Fixpoint hval (n : nat) fsys h (a : addr) : option digest :=
  match n with
  | 0 => None
  | S n =>
      o ← h !! a;
      match _secHash o with
      | Some d => Some d
      | None => cval_with (hval n fsys h) fsys o
      end
  end.

Definition idhash fsys h (a : addr) (d : digest) : Prop :=
  ∃ n, hval n fsys h a = Some d.

(** [h'] adds to [h] only hashes that [secHash] would have returned. *)
Definition consistent fsys h h' : Prop :=
  heap_le h h'
  ∧ ∀ a o o' d, h !! a = Some o → h' !! a = Some o' →
      _secHash o = None → _secHash o' = Some d → idhash fsys h a d.

#[global] Instance obj_le_refl : Reflexive obj_le.
Proof. by intros o. Qed.

#[global] Instance obj_le_trans : Transitive obj_le.
Proof.
  intros o1 o2 o3 (? & ? & H12) (? & ? & H23).
  split; [congruence|]. split; [congruence|]. auto.
Qed.

#[global] Instance heap_le_refl : Reflexive heap_le.
Proof. intros h a. by destruct (h !! a); constructor. Qed.

#[global] Instance heap_le_trans : Transitive heap_le.
Proof.
  intros h1 h2 h3 H12 H23 a. specialize (H12 a). specialize (H23 a).
  destruct H12; inversion H23; subst; constructor. by etrans.
Qed.

Lemma heap_le_lookup h h' a o :
  heap_le h h' → h !! a = Some o → ∃ o', h' !! a = Some o' ∧ obj_le o o'.
Proof. intros Hle Ho. specialize (Hle a). rewrite Ho in Hle. inversion Hle; eauto. Qed.

Lemma heap_le_lookup_inv h h' a o' :
  heap_le h h' → h' !! a = Some o' → ∃ o, h !! a = Some o ∧ obj_le o o'.
Proof. intros Hle Ho. specialize (Hle a). rewrite Ho in Hle. inversion Hle; eauto. Qed.

Lemma heap_le_insert h a o d :
  h !! a = Some o → _secHash o = None →
  heap_le h (<[a := set_secHash d o]> h).
Proof.
  intros Ho Hn b. destruct (decide (a = b)) as [<-|Hne].
  - rewrite lookup_insert_eq, Ho. constructor. split; [done|]. split; [done|].
    intros d'. by rewrite Hn.
  - rewrite lookup_insert_ne by done. by destruct (h !! b); constructor.
Qed.

Lemma mapM_mono {A B} (f g : A → option B) l k :
  (∀ x y, f x = Some y → g x = Some y) → mapM f l = Some k → mapM g l = Some k.
Proof.
  intros Hfg. rewrite !mapM_Some. induction 1; constructor; auto.
Qed.

Lemma cval_with_mono (f g : addr → option digest) fsys o d :
  (∀ x y, f x = Some y → g x = Some y) →
  cval_with f fsys o = Some d → cval_with g fsys o = Some d.
Proof.
  intros Hfg. unfold cval_with. destruct (body o); try done.
  - destruct (f parentJob) as [y|] eqn:Hy; [|done]. by rewrite (Hfg _ _ Hy).
  - destruct (mapM f inputs) as [k|] eqn:Hk; [|done].
    by rewrite (mapM_mono f g _ _ Hfg Hk).
Qed.

Lemma hval_S n fsys h a d :
  hval n fsys h a = Some d → hval (S n) fsys h a = Some d.
Proof.
  revert a d. induction n as [|n IH]; intros a d; [done|].
  intros H. change (hval (S (S n)) fsys h a) with
    (o ← h !! a; match _secHash o with
                 | Some d => Some d
                 | None => cval_with (hval (S n) fsys h) fsys o
                 end).
  simpl in H. destruct (h !! a) as [o|]; [|done]. simpl in *.
  destruct (_secHash o); [done|]. by eapply cval_with_mono.
Qed.

Lemma hval_mono n m fsys h a d :
  n ≤ m → hval n fsys h a = Some d → hval m fsys h a = Some d.
Proof. induction 1; [done|]. intros. by apply hval_S, IHle. Qed.

Lemma idhash_det fsys h a d d' :
  idhash fsys h a d → idhash fsys h a d' → d = d'.
Proof.
  intros [n Hn] [m Hm].
  apply (hval_mono _ (n `max` m)) in Hn; [|lia].
  apply (hval_mono _ (n `max` m)) in Hm; [|lia]. congruence.
Qed.

(** Finitely many answers share one budget. *)
Lemma idhash_Forall2 fsys h l ds :
  Forall2 (idhash fsys h) l ds → ∃ n, mapM (hval n fsys h) l = Some ds.
Proof.
  induction 1 as [|a d l ds [n Hn] _ [m Hm]].
  - by exists 0.
  - exists (n `max` m). apply mapM_Some. constructor.
    + eapply hval_mono; [|done]. lia.
    + apply mapM_Some. eapply mapM_mono; [|done].
      intros x y. apply hval_mono. lia.
Qed.

End hashing.

(** ** Hashes added along the way change no answer *)

Section consistency.
Context `{Ext : Externals}.

Implicit Types (h : gmap addr obj) (fsys : gmap string fsentry).

Lemma consistent_refl fsys h : consistent fsys h h.
Proof. split; [done|]. intros a o o' d Ho Ho'. congruence. Qed.

Lemma hval_stable fsys h h' n : ∀ a d,
  consistent fsys h h' →
  hval n fsys h a = Some d → hval n fsys h' a = Some d.
Proof.
  induction n as [|n IH]; intros a d Hc; [done|]. simpl.
  destruct (h !! a) as [o|] eqn:Ho; [|done]. simpl.
  destruct (heap_le_lookup _ _ _ _ (proj1 Hc) Ho) as (o' & Ho' & Hcls & Hbody & Hsec).
  rewrite Ho'. simpl.
  destruct (_secHash o) as [d0|] eqn:Hd0.
  { intros [= <-]. by rewrite (Hsec _ eq_refl). }
  intros Hv. destruct (_secHash o') as [d'|] eqn:Hd'.
  - f_equal. eapply idhash_det.
    + eapply (proj2 Hc); eauto.
    + exists (S n). simpl. by rewrite Ho; simpl; rewrite Hd0.
  - revert Hv. unfold cval_with. rewrite <-Hcls, <-Hbody.
    destruct (body o); try done.
    + destruct (hval n fsys h parentJob) as [y|] eqn:Hy; [|done].
      by rewrite (IH _ _ Hc Hy).
    + destruct (mapM (hval n fsys h) inputs) as [k|] eqn:Hk; [|done].
      erewrite mapM_mono; [done| |done]. intros x y. by apply IH.
Qed.

Lemma idhash_stable fsys h h' a d :
  consistent fsys h h' → idhash fsys h a d → idhash fsys h' a d.
Proof. intros Hc [n Hn]. exists n. by eapply hval_stable. Qed.

Lemma idhash_back fsys h h' a d :
  consistent fsys h h' → idhash fsys h' a d → idhash fsys h a d.
Proof.
  intros Hc [n Hn]. revert a d Hn.
  induction n as [|n IH]; intros a d; [done|]. simpl.
  destruct (h' !! a) as [o'|] eqn:Ho'; [|done]. simpl.
  destruct (heap_le_lookup_inv _ _ _ _ (proj1 Hc) Ho')
    as (o & Ho & Hcls & Hbody & Hsec).
  destruct (_secHash o') as [d'|] eqn:Hd'.
  { intros [= <-]. destruct (_secHash o) as [d0|] eqn:Hd0.
    - exists 1. simpl. rewrite Ho. simpl. rewrite Hd0.
      specialize (Hsec _ eq_refl). congruence.
    - eapply (proj2 Hc); eauto. }
  assert (_secHash o = None) as Hd0.
  { destruct (_secHash o) as [d0|] eqn:Hd0; [|done].
    specialize (Hsec _ eq_refl). congruence. }
  unfold cval_with. rewrite <-Hcls, <-Hbody. intros Hv.
  enough (∃ m, cval_with (hval m fsys h) fsys o = Some d) as [m Hm].
  { exists (S m). simpl. rewrite Ho. simpl. by rewrite Hd0. }
  unfold cval_with. destruct (body o) eqn:Hb; try by exists 0.
  - destruct (hval n fsys h' parentJob) as [y|] eqn:Hy; [|done].
    destruct (IH _ _ Hy) as [m Hm]. exists m. by rewrite Hm.
  - destruct (mapM (hval n fsys h') inputs) as [k|] eqn:Hk; [|done].
    destruct (idhash_Forall2 fsys h inputs k) as [m Hm].
    { apply mapM_Some in Hk. eapply Forall2_impl; [done|]. intros x y. apply IH. }
    exists m. by rewrite Hm.
Qed.

Lemma consistent_trans fsys h1 h2 h3 :
  consistent fsys h1 h2 → consistent fsys h2 h3 → consistent fsys h1 h3.
Proof.
  intros H12 H23. split; [etrans; [apply H12|apply H23]|].
  intros a o1 o3 d Ho1 Ho3 Hn1 Hd3.
  destruct (heap_le_lookup _ _ _ _ (proj1 H12) Ho1) as (o2 & Ho2 & Hle).
  destruct (_secHash o2) as [d2|] eqn:Hd2.
  - destruct (heap_le_lookup _ _ _ _ (proj1 H23) Ho2) as (o3' & Ho3' & _ & _ & Hs).
    rewrite Ho3 in Ho3'. injection Ho3' as <-.
    rewrite (Hs _ Hd2) in Hd3. injection Hd3 as <-.
    eapply (proj2 H12); eauto.
  - eapply idhash_back; [done|]. eapply (proj2 H23); eauto.
Qed.

(** Storing at an unhashed node the hash it answers with. *)
Lemma consistent_insert fsys h a o d :
  h !! a = Some o → _secHash o = None → idhash fsys h a d →
  consistent fsys h (<[a := set_secHash d o]> h).
Proof.
  intros Ho Hn Hd. split; [by apply heap_le_insert|].
  intros b o1 o2 d' Ho1 Ho2 Hn1 Hd2.
  destruct (decide (a = b)) as [<-|Hne].
  - rewrite lookup_insert_eq in Ho2. injection Ho2 as <-.
    simpl in Hd2. by injection Hd2 as <-.
  - rewrite lookup_insert_ne in Ho2 by done. congruence.
Qed.

End consistency.

(** ** [secHash] and [computeSecHash] against the heap *)

Section sechash.
Context `{Ext : Externals}.

Implicit Types (h : gmap addr obj) (s : state).

(** What a hashing method may do to the state, the ghost trace apart. *)
Definition hash_step s s' : Prop :=
  consistent (fs s) (heap s) (heap s') ∧ fs s' = fs s ∧ world s' = world s.

Lemma hash_step_refl s : hash_step s s.
Proof. split; [apply consistent_refl|done]. Qed.

Lemma hash_step_trans s1 s2 s3 :
  hash_step s1 s2 → hash_step s2 s3 → hash_step s1 s3.
Proof.
  intros (H12 & Hf12 & Hw12) (H23 & Hf23 & Hw23). split; [|split; congruence].
  eapply consistent_trans; [done|]. by rewrite <-Hf12.
Qed.

Lemma hash_step_emit s ev :
  hash_step s (State (heap s) (fs s) (world s) (trace s ++ [ev])).
Proof. split; [apply consistent_refl|done]. Qed.

(** A method that answers with the node's hash and only adds hashes. *)
Definition sound_rec (rec : addr → M digest) : Prop :=
  ∀ a s d s', rec a s = Ok (d, s') →
    idhash (fs s) (heap s) a d ∧ hash_step s s'.

Lemma list_comp_sound rec l : ∀ s ds s',
  sound_rec rec →
  list_comp rec l s = Ok (ds, s') →
  Forall2 (idhash (fs s) (heap s)) l ds ∧ hash_step s s'.
Proof.
  induction l as [|x l IH]; intros s ds s' Hrec; simpl; intros Hrun; inv_run.
  { split; [constructor|apply hash_step_refl]. }
  destruct (Hrec _ _ _ _ H) as [Hx Hs1].
  destruct (IH _ _ _ Hrec H0) as [Hl Hs2].
  split; [|by eapply hash_step_trans].
  constructor; [done|].
  eapply Forall2_impl; [done|]. intros a d.
  destruct Hs1 as (Hc & -> & _). by apply idhash_back.
Qed.

Lemma computeSecHash_with_sound rec a s d s' :
  sound_rec rec →
  computeSecHash_with rec a s = Ok (d, s') →
  (∃ o m, heap s !! a = Some o
          ∧ cval_with (hval m (fs s) (heap s)) (fs s) o = Some d)
  ∧ hash_step s s'.
Proof.
  intros Hrec Hrun. unfold computeSecHash_with in Hrun. inv_run.
  rename x into o, H into Ho.
  set (s1 := State (heap s) (fs s) (world s) (trace s ++ [EvCompute a])) in *.
  assert (hash_step s s1) as Hs1 by apply hash_step_emit.
  destruct (body o) eqn:Hb; inv_run.
  - split; [|done]. exists o, 0. unfold cval_with. by rewrite Hb.
  - split; [|done]. exists o, 0. unfold cval_with. by rewrite Hb.
  - unfold secHashFile in H. simpl in H.
    destruct (fs s !! location) as [[bytes|]|] eqn:Hf; try done.
    injection H as <- <-. split; [|done]. exists o, 0.
    unfold cval_with. rewrite Hb. simpl. by rewrite Hf.
  - destruct (Hrec _ _ _ _ H) as [[m Hm] Hs2]. simpl in Hm.
    split; [|exact (hash_step_trans _ _ _ Hs1 Hs2)]. exists o, m.
    unfold cval_with. rewrite Hb. simpl. by rewrite Hm.
  - destruct (list_comp_sound _ _ _ _ _ Hrec H) as [Hl Hs2]. simpl in Hl.
    split; [|exact (hash_step_trans _ _ _ Hs1 Hs2)].
    destruct (idhash_Forall2 _ _ _ _ Hl) as [m Hm].
    exists o, m. unfold cval_with. rewrite Hb. simpl. by rewrite Hm.
Qed.

Lemma secHash_sound n : sound_rec (secHash n).
Proof.
  induction n as [|n IH]; intros a s d s'; [done|]. simpl. intros Hrun.
  apply bind_Ok in Hrun as (o & ? & [Ho ->]%get_obj_Ok & Hrun).
  destruct (_secHash o) as [d0|] eqn:Hd0.
  { apply ret_Ok in Hrun as [-> ->].
    split; [|apply hash_step_refl]. exists 1. simpl. rewrite Ho. simpl.
    by rewrite Hd0. }
  apply bind_Ok in Hrun as (d1 & s1 & Hcomp & Hrun).
  apply bind_Ok in Hrun as ([] & s2 & Hmod & Hrun).
  apply ret_Ok in Hrun as [-> ->].
  apply modify_obj_Ok in Hmod as (o1 & Ho1 & ->).
  destruct (computeSecHash_with_sound _ _ _ _ _ IH Hcomp)
    as [(o' & m & Ho' & Hm) Hs1].
  assert (o' = o) as -> by congruence.
  assert (idhash (fs s) (heap s) a d) as Hid.
  { exists (S m). simpl. rewrite Ho. simpl. by rewrite Hd0. }
  split; [done|].
  eapply hash_step_trans; [done|]. destruct Hs1 as (Hc & Hf & Hw).
  destruct (heap_le_lookup _ _ _ _ (proj1 Hc) Ho) as (o1' & Ho1' & Hle).
  assert (o1' = o1) as -> by congruence.
  split; [|done]. simpl.
  destruct (_secHash o1) as [d1|] eqn:Hd1.
  - (* a nested call stored a hash at this node: it is the same hash *)
    assert (d1 = d) as ->.
    { eapply idhash_det; [|done]. eapply (proj2 Hc); eauto. }
    rewrite insert_id; [apply consistent_refl|].
    rewrite Ho1. f_equal. destruct o1. simpl in *. by subst.
  - apply consistent_insert; [done..|].
    apply (idhash_stable _ (heap s)); [by rewrite Hf|]. by rewrite Hf.
Qed.

Lemma computeSecHash_sound n a s d s' :
  computeSecHash n a s = Ok (d, s') →
  (∃ o m, heap s !! a = Some o
          ∧ cval_with (hval m (fs s) (heap s)) (fs s) o = Some d)
  ∧ hash_step s s'.
Proof. apply computeSecHash_with_sound, secHash_sound. Qed.

(** The budget that suffices for the heap read as a function suffices for
    the method. *)
Definition complete_rec (n : nat) (rec : addr → M digest) : Prop :=
  ∀ a s d, hval n (fs s) (heap s) a = Some d → ∃ s', rec a s = Ok (d, s').

Lemma list_comp_complete n rec l : ∀ s ds,
  sound_rec rec → complete_rec n rec →
  mapM (hval n (fs s) (heap s)) l = Some ds →
  ∃ s', list_comp rec l s = Ok (ds, s').
Proof.
  induction l as [|x l IH]; intros s ds Hsnd Hcpl Hm.
  { apply mapM_Some in Hm. inversion Hm. by exists s. }
  apply mapM_Some in Hm. inversion Hm as [|? y ? ys Hx Hl]; subst.
  destruct (Hcpl _ _ _ Hx) as [s1 Hs1].
  destruct (Hsnd _ _ _ _ Hs1) as [_ (Hc & Hf & _)].
  destruct (IH s1 ys Hsnd Hcpl) as [s' Hs'].
  { apply mapM_Some. eapply Forall2_impl; [done|]. intros a d Ha.
    rewrite Hf. by eapply hval_stable. }
  exists s'. simpl. apply bind_Ok. exists y, s1. split; [done|].
  apply bind_Ok. by exists ys, s'.
Qed.

Lemma computeSecHash_with_complete n rec a s o d :
  sound_rec rec → complete_rec n rec →
  heap s !! a = Some o →
  cval_with (hval n (fs s) (heap s)) (fs s) o = Some d →
  ∃ s', computeSecHash_with rec a s = Ok (d, s').
Proof.
  intros Hsnd Hcpl Ho Hv. unfold computeSecHash_with.
  set (s1 := State (heap s) (fs s) (world s) (trace s ++ [EvCompute a])).
  enough (∃ s', match body o with
    | ThunkArtifact thunk shouldCache _ =>
        ret (secHashObject (VTuple [VStr (getHash (cls o));
               VStr (getHash thunk); VBool shouldCache]))
    | FixedDirArtifact location =>
        ret (secHashObject (VTuple [VStr (getHash (cls o)); VStr location]))
    | FixedFileArtifact location =>
        let* f := secHashFile location in
        ret (secHashObject (VTuple [VStr (getHash (cls o)); VStr f]))
    | JobArtifact parentJob =>
        let* d := rec parentJob in
        ret (secHashObject (VTuple [VStr (getHash (cls o)); VStr d]))
    | Job inputs _ =>
        let* ds := list_comp rec inputs in
        ret (secHashObject (VTuple [VStr (getHash (cls o)); VList (VStr <$> ds)]))
    end s1 = Ok (d, s')) as [s' Hs'].
  { exists s'. apply bind_Ok. exists o, s. split; [by apply get_obj_Ok|].
    apply bind_Ok. exists tt, s1. split; [by apply emit_Ok|done]. }
  revert Hv. unfold cval_with. destruct (body o).
  - intros [= <-]. by exists s1.
  - intros [= <-]. by exists s1.
  - destruct (fs s !! location) as [[bytes|]|] eqn:Hf; try done.
    intros [= <-]. exists s1. apply bind_Ok. exists (hashBytes bytes), s1.
    split; [|done]. unfold secHashFile. simpl. by rewrite Hf.
  - destruct (hval n (fs s) (heap s) parentJob) as [y|] eqn:Hy; [|done].
    intros [= <-]. destruct (Hcpl parentJob s1 y Hy) as [s' Hs'].
    exists s'. apply bind_Ok. by exists y, s'.
  - destruct (mapM (hval n (fs s) (heap s)) inputs) as [ds|] eqn:Hds; [|done].
    intros [= <-].
    destruct (list_comp_complete n rec inputs s1 ds Hsnd Hcpl Hds) as [s' Hs'].
    exists s'. apply bind_Ok. by exists ds, s'.
Qed.

Lemma secHash_complete n : complete_rec n (secHash n).
Proof.
  induction n as [|n IH]; intros a s d; [done|]. simpl.
  destruct (heap s !! a) as [o|] eqn:Ho; [|done]. simpl.
  destruct (_secHash o) as [d0|] eqn:Hd0.
  { intros [= <-]. exists s. apply bind_Ok. exists o, s.
    split; [by apply get_obj_Ok|]. by rewrite Hd0. }
  intros Hv.
  destruct (computeSecHash_with_complete n _ a s o d (secHash_sound n) IH Ho Hv)
    as [s1 Hs1].
  destruct (computeSecHash_with_sound _ _ _ _ _ (secHash_sound n) Hs1)
    as [_ (Hc & _)].
  destruct (heap_le_lookup _ _ _ _ (proj1 Hc) Ho) as (o1 & Ho1 & _).
  eexists. apply bind_Ok. exists o, s. split; [by apply get_obj_Ok|].
  rewrite Hd0. apply bind_Ok. exists d, s1. split; [done|].
  apply bind_Ok. exists tt. eexists. split; [|done].
  apply modify_obj_Ok. by exists o1.
Qed.

End sechash.

(** ** Acyclic heaps: every hash is computed *)

Section wellformed.
Context `{Ext : Externals}.

Implicit Types (h : gmap addr obj) (fsys : gmap string fsentry) (s : state).

(** A directed acyclic graph of live objects: parents are allocated and
    rank strictly lower, and the file of a [FixedFileArtifact] is there. *)
Definition wf_heap fsys h (rk : addr → nat) : Prop :=
  ∀ a o, h !! a = Some o →
    (∀ b, b ∈ obj_parents o → is_Some (h !! b) ∧ rk b < rk a)
    ∧ (∀ location, body o = FixedFileArtifact location →
         ∃ bytes, fsys !! location = Some (File bytes)).

Lemma wf_heap_le fsys h h' rk :
  heap_le h h' → wf_heap fsys h rk → wf_heap fsys h' rk.
Proof.
  intros Hle Hwf a o' Ho'.
  destruct (heap_le_lookup_inv _ _ _ _ Hle Ho') as (o & Ho & Hcls & Hbody & _).
  destruct (Hwf a o Ho) as [Hpar Hfile]. split.
  - intros b Hb. unfold obj_parents in Hb. rewrite <-Hbody in Hb.
    destruct (Hpar b Hb) as [[ob Hob] Hlt]. split; [|done].
    destruct (heap_le_lookup _ _ _ _ Hle Hob) as (ob' & -> & _). eauto.
  - intros location Hloc. apply Hfile. congruence.
Qed.

Lemma cval_total fsys h rk n a o :
  wf_heap fsys h rk →
  (∀ b, is_Some (h !! b) → rk b < rk a → is_Some (hval n fsys h b)) →
  h !! a = Some o → is_Some (cval_with (hval n fsys h) fsys o).
Proof.
  intros Hwf Hrec Ho. destruct (Hwf a o Ho) as [Hpar Hfile].
  unfold cval_with, obj_parents in *. destruct (body o); try done.
  - destruct (Hfile location eq_refl) as [bytes ->]. done.
  - destruct (Hpar parentJob) as [Hal Hlt]; [set_solver|].
    destruct (Hrec _ Hal Hlt) as [d ->]. done.
  - assert (is_Some (mapM (hval n fsys h) inputs)) as [ds ->]; [|done].
    apply mapM_is_Some, Forall_forall. intros b Hb.
    destruct (Hpar b Hb) as [Hal Hlt]. by apply Hrec.
Qed.

Lemma hval_total fsys h rk n : ∀ a,
  wf_heap fsys h rk → is_Some (h !! a) → rk a < n →
  is_Some (hval n fsys h a).
Proof.
  induction n as [|n IH]; intros a Hwf [o Ho] Hlt; [lia|]. simpl.
  rewrite Ho. simpl. destruct (_secHash o); [done|].
  eapply cval_total; [done| |done]. intros b Hb Hb'. apply IH; [done..|lia].
Qed.

Lemma secHash_total s rk n a :
  wf_heap (fs s) (heap s) rk → is_Some (heap s !! a) → rk a < n →
  ∃ d s', secHash n a s = Ok (d, s').
Proof.
  intros Hwf Ha Hlt. destruct (hval_total _ _ _ n a Hwf Ha Hlt) as [d Hd].
  exists d. by apply secHash_complete.
Qed.

Lemma computeSecHash_total s rk n a :
  wf_heap (fs s) (heap s) rk → is_Some (heap s !! a) → rk a ≤ n →
  ∃ d s', computeSecHash n a s = Ok (d, s').
Proof.
  intros Hwf [o Ho] Hle.
  destruct (cval_total (fs s) (heap s) rk n a o Hwf) as [d Hd]; [|done|].
  { intros b Hb Hlt. apply (hval_total _ _ rk); [done..|lia]. }
  exists d. eapply computeSecHash_with_complete; eauto.
  - apply secHash_sound.
  - apply secHash_complete.
Qed.

Lemma wf_hash_step s s' rk :
  hash_step s s' → wf_heap (fs s) (heap s) rk → wf_heap (fs s') (heap s') rk.
Proof. intros ([Hle _] & -> & _). by apply wf_heap_le. Qed.

(** The hash stored at a node, and the one a fresh computation gives. *)
Definition stored h (a : addr) : option digest := h !! a ≫= _secHash.

Definition recomputed fsys h (a : addr) (d : digest) : Prop :=
  ∃ o m, h !! a = Some o ∧ cval_with (hval m fsys h) fsys o = Some d.

Lemma cval_with_idhash fsys h o m d :
  cval_with (hval m fsys h) fsys o = Some d →
  ∀ f, (∀ x y, hval m fsys h x = Some y → ∃ k, f k x = Some y) →
       (∀ k k' x y, k ≤ k' → f k x = Some y → f k' x = Some y) →
  ∃ k, cval_with (f k) fsys o = Some d.
Proof.
  intros Hv f Hf Hmono. unfold cval_with in *.
  destruct (body o); try by exists 0.
  - destruct (hval m fsys h parentJob) as [y|] eqn:Hy; [|done].
    destruct (Hf _ _ Hy) as [k Hk]. exists k. by rewrite Hk.
  - destruct (mapM (hval m fsys h) inputs) as [ds|] eqn:Hds; [|done].
    apply mapM_Some in Hds.
    assert (∃ k, mapM (f k) inputs = Some ds) as [k Hk].
    { clear Hv. induction Hds as [|x y l ds Hx _ [k Hk]]; [by exists 0|].
      destruct (Hf _ _ Hx) as [k' Hk']. exists (k `max` k').
      apply mapM_Some. constructor.
      - eapply Hmono; [|done]. lia.
      - apply mapM_Some. eapply mapM_mono; [|done].
        intros ??. apply Hmono. lia. }
    exists k. by rewrite Hk.
Qed.

Lemma recomputed_det fsys h a d d' :
  recomputed fsys h a d → recomputed fsys h a d' → d = d'.
Proof.
  intros (o & m & Ho & Hm) (o' & m' & Ho' & Hm').
  assert (o' = o) as -> by congruence.
  assert (∀ k, m ≤ k → cval_with (hval k fsys h) fsys o = Some d) as H1.
  { intros k Hk. eapply cval_with_mono; [|done]. intros ??. by apply hval_mono. }
  assert (∀ k, m' ≤ k → cval_with (hval k fsys h) fsys o = Some d') as H2.
  { intros k Hk. eapply cval_with_mono; [|done]. intros ??. by apply hval_mono. }
  specialize (H1 (m `max` m')). specialize (H2 (m `max` m')).
  rewrite H1 in H2 by lia. injection H2 as <-; [done|lia].
Qed.

Lemma recomputed_stable fsys h h' a d :
  consistent fsys h h' → recomputed fsys h a d ↔ recomputed fsys h' a d.
Proof.
  intros Hc. split.
  - intros (o & m & Ho & Hm).
    destruct (heap_le_lookup _ _ _ _ (proj1 Hc) Ho) as (o' & Ho' & Hcls & Hbody & _).
    exists o', m. split; [done|].
    assert (cval_with (hval m fsys h') fsys o = Some d) as Hv.
    { eapply cval_with_mono; [|done]. intros x y. by apply hval_stable. }
    revert Hv. unfold cval_with. by rewrite Hcls, Hbody.
  - intros (o' & m & Ho' & Hm).
    destruct (heap_le_lookup_inv _ _ _ _ (proj1 Hc) Ho')
      as (o & Ho & Hcls & Hbody & _).
    assert (cval_with (hval m fsys h') fsys o = Some d) as Hv.
    { revert Hm. unfold cval_with. by rewrite Hcls, Hbody. }
    destruct (cval_with_idhash _ _ _ _ _ Hv (λ k, hval k fsys h)) as [k Hk].
    + intros x y Hx. by apply (idhash_back _ _ h'); [|exists m].
    + intros k k' x y. apply hval_mono.
    + by exists o, k.
Qed.

(** A node without a stored hash answers with the recomputed one. *)
Lemma idhash_unstored fsys h a d :
  stored h a = None → idhash fsys h a d → recomputed fsys h a d.
Proof.
  intros Hst [n Hn]. destruct n as [|n]; [done|]. simpl in Hn.
  unfold stored in Hst. destruct (h !! a) as [o|] eqn:Ho; [|done].
  simpl in *. rewrite Hst in Hn. by exists o, n.
Qed.

Lemma idhash_stored fsys h a d d' :
  stored h a = Some d → idhash fsys h a d' → d' = d.
Proof.
  intros Hst [n Hn]. destruct n as [|n]; [done|]. simpl in Hn.
  unfold stored in Hst. destruct (h !! a) as [o|] eqn:Ho; [|done].
  simpl in *. rewrite Hst in Hn. congruence.
Qed.

(** Hash drift at a node: the stored hash is not the recomputed one. *)
Definition drift fsys h (a : addr) : Prop :=
  ∃ d d', stored h a = Some d ∧ recomputed fsys h a d' ∧ d ≠ d'.

Lemma drift_stable fsys h h' a :
  consistent fsys h h' → drift fsys h a ↔ drift fsys h' a.
Proof.
  intros Hc. split.
  - intros (d & d' & Hst & Hre & Hne). exists d, d'.
    split; [|split; [by apply (recomputed_stable _ h)|done]].
    unfold stored in *. destruct (h !! a) as [o|] eqn:Ho; [|done].
    destruct (heap_le_lookup _ _ _ _ (proj1 Hc) Ho) as (o' & -> & _ & _ & Hs).
    simpl in *. auto.
  - intros (d & d' & Hst & Hre & Hne).
    apply (recomputed_stable _ h) in Hre; [|done].
    destruct (stored h a) as [d0|] eqn:Hst0.
    + exists d0, d'. split; [done|]. split; [done|].
      unfold stored in *. destruct (h !! a) as [o|] eqn:Ho; [|done].
      destruct (heap_le_lookup _ _ _ _ (proj1 Hc) Ho) as (o' & Ho' & _ & _ & Hs).
      rewrite Ho' in Hst. simpl in *. rewrite (Hs _ Hst0) in Hst. congruence.
    + exfalso. apply Hne. eapply recomputed_det; [|done].
      apply idhash_unstored; [done|].
      unfold stored in *. destruct (h' !! a) as [o'|] eqn:Ho'; [|done].
      destruct (heap_le_lookup_inv _ _ _ _ (proj1 Hc) Ho') as (o & Ho & _).
      rewrite Ho in Hst0. simpl in *. eapply (proj2 Hc); eauto.
Qed.

End wellformed.

(** A test for [wf_heap] on a given heap. *)
Section wf_check.
Context `{Ext : Externals}.

Definition is_file (fsys : gmap string fsentry) (location : string) : bool :=
  match fsys !! location with
  | Some (File _) => true
  | _ => false
  end.

Definition wf_obj (fsys : gmap string fsentry) (h : gmap addr obj)
    (rk : addr → nat) (a : addr) (o : obj) : bool :=
  forallb (λ b, bool_decide (is_Some (h !! b)) && bool_decide (rk b < rk a))
    (obj_parents o)
  && match body o with
     | FixedFileArtifact location => is_file fsys location
     | _ => true
     end.

Lemma wf_heap_check fsys h rk :
  map_Forall (λ a o, wf_obj fsys h rk a o = true) h → wf_heap fsys h rk.
Proof.
  intros Hall a o Ho. specialize (Hall a o Ho). simpl in Hall.
  unfold wf_obj in Hall. apply andb_prop in Hall as [Hpar Hfile]. split.
  - intros b Hb. rewrite forallb_forall in Hpar.
    apply list_elem_of_In, Hpar in Hb. apply andb_prop in Hb as [H1 H2].
    by apply bool_decide_eq_true in H1, H2.
  - intros location Hloc. rewrite Hloc in Hfile. unfold is_file in Hfile.
    destruct (fsys !! location) as [[bytes|]|]; try done. by exists bytes.
Qed.

End wf_check.

(** ** [checkSecHash] and [checkAllSecHash] *)

Section checking.
Context `{Ext : Externals}.

Implicit Types (h : gmap addr obj) (s : state).

Lemma parents_dom h a ps : parents h a = Ok ps → a ∈ dom h.
Proof.
  unfold parents. destruct (h !! a) eqn:Ha; [|done].
  intros _. apply elem_of_dom. eauto.
Qed.

Lemma parents_fuel h a : parents h a ≠ Err OutOfFuel.
Proof. unfold parents. by destruct (h !! a). Qed.

Lemma parentArtifacts_dom h a ps : parentArtifacts h a = Ok ps → a ∈ dom h.
Proof.
  unfold parentArtifacts. destruct (h !! a) eqn:Ha; [|done].
  intros _. apply elem_of_dom. eauto.
Qed.

Lemma parentArtifacts_fuel h a : parentArtifacts h a ≠ Err OutOfFuel.
Proof.
  unfold parentArtifacts. destruct (h !! a) as [o|]; [|done].
  destruct (body o); try done.
  destruct (h !! parentJob) as [j|]; [|done]. by destruct (body j).
Qed.

(** Ranks fall along [parents]. *)
Lemma reach_rank fsys h rk self b :
  wf_heap fsys h rk → is_Some (h !! self) →
  reach (parents h) [self] b → is_Some (h !! b) ∧ rk b ≤ rk self.
Proof.
  intros Hwf Hself. induction 1 as [a Ha|a ps b _ [[o Ho] Hle] Hps Hb].
  - apply list_elem_of_singleton in Ha as ->. done.
  - unfold parents in Hps. rewrite Ho in Hps. injection Hps as <-.
    destruct (Hwf a o Ho) as [Hpar _]. destruct (Hpar b Hb). split; [done|lia].
Qed.

(** The stored hash against the method [computeSecHash], run with budget [n]
    in state [s]. *)
Definition hash_drift (n : nat) s (b : addr) : Prop :=
  ∃ d d' s', stored (heap s) b = Some d
             ∧ computeSecHash n b s = Ok (d', s') ∧ d ≠ d'.

Lemma hash_drift_iff n s rk b :
  wf_heap (fs s) (heap s) rk → is_Some (heap s !! b) → rk b ≤ n →
  hash_drift n s b ↔ drift (fs s) (heap s) b.
Proof.
  intros Hwf Hb Hle. split.
  - intros (d & d' & s' & Hst & Hrun & Hne). exists d, d'.
    split; [done|]. split; [|done]. by apply computeSecHash_sound in Hrun as [? _].
  - intros (d & d' & Hst & Hre & Hne).
    destruct (computeSecHash_total s rk n b Hwf Hb Hle) as (d'' & s' & Hrun).
    exists d, d'', s'. split; [done|]. split; [done|].
    apply computeSecHash_sound in Hrun as [Hre' _].
    by rewrite (recomputed_det _ _ _ _ _ Hre' Hre).
Qed.

Lemma checkSecHash_spec n s rk b :
  wf_heap (fs s) (heap s) rk → is_Some (heap s !! b) → rk b ≤ n →
  (¬ drift (fs s) (heap s) b
   ∧ ∃ s', checkSecHash n b s = Ok (tt, s') ∧ hash_step s s')
  ∨ (drift (fs s) (heap s) b ∧ checkSecHash n b s = Err (HashChanged b)).
Proof.
  intros Hwf Hb Hle.
  destruct (secHash_total s rk (S n) b Hwf Hb) as (d & s1 & Hrun1); [lia|].
  destruct (secHash_sound _ _ _ _ _ Hrun1) as [Hid Hs1].
  assert (is_Some (heap s1 !! b)) as Hb1.
  { destruct Hb as [o Ho].
    destruct (heap_le_lookup _ _ _ _ (proj1 (proj1 Hs1)) Ho) as (o' & -> & _). eauto. }
  destruct (computeSecHash_total s1 rk n b) as (d' & s2 & Hrun2);
    [by eapply wf_hash_step|done..|].
  destruct (computeSecHash_sound _ _ _ _ _ Hrun2) as [Hre Hs2].
  assert (recomputed (fs s) (heap s) b d') as Hre0.
  { destruct Hs1 as (Hc & Hf & _). rewrite Hf in Hre.
    by apply (recomputed_stable _ _ _ _ _ Hc). }
  assert (checkSecHash n b s =
          (if decide (d = d') then ret tt else raise (HashChanged b)) s2) as ->.
  { unfold checkSecHash. unfold bind at 1. rewrite Hrun1.
    unfold bind at 1. by rewrite Hrun2. }
  destruct (stored (heap s) b) as [d0|] eqn:Hst.
  - assert (d = d0) as -> by by eapply idhash_stored.
    destruct (decide (d0 = d')) as [<-|Hne].
    + left. split.
      * intros (d1 & d2 & Hst1 & Hre1 & Hne).
        rewrite (recomputed_det _ _ _ _ _ Hre1 Hre0) in Hne. congruence.
      * exists s2. split; [done|]. by eapply hash_step_trans.
    + right. split; [|done]. by exists d0, d'.
  - assert (d = d') as <-.
    { eapply recomputed_det; [|done]. by apply idhash_unstored. }
    left. split.
    + intros (d1 & d2 & Hst1 & _). congruence.
    + exists s2. rewrite decide_True by done.
      split; [done|]. by eapply hash_step_trans.
Qed.

Lemma for_each_checkSecHash_spec n rk l : ∀ s,
  wf_heap (fs s) (heap s) rk →
  (∀ b, b ∈ l → is_Some (heap s !! b) ∧ rk b ≤ n) →
  ((∀ b, b ∈ l → ¬ drift (fs s) (heap s) b)
   ∧ ∃ s', for_each (checkSecHash n) l s = Ok (tt, s') ∧ hash_step s s')
  ∨ (∃ b, b ∈ l ∧ drift (fs s) (heap s) b
          ∧ for_each (checkSecHash n) l s = Err (HashChanged b)).
Proof.
  induction l as [|a l IH]; intros s Hwf Hl.
  { left. split; [by intros b ?%elem_of_nil|].
    exists s. split; [done|apply hash_step_refl]. }
  destruct (Hl a) as [Ha Hrk]; [by left|].
  destruct (checkSecHash_spec n s rk a Hwf Ha Hrk)
    as [[Hnd (s1 & Hrun & Hs1)]|[Hd Hrun]].
  - simpl. unfold bind. rewrite Hrun.
    destruct (IH s1) as [[Hnd' (s2 & Hrun' & Hs2)]|(b & Hb & Hd & Hrun')].
    + by eapply wf_hash_step.
    + intros b Hb. destruct (Hl b) as [[o Ho] ?]; [by right|]. split; [|done].
      destruct (heap_le_lookup _ _ _ _ (proj1 (proj1 Hs1)) Ho) as (o' & -> & _).
      eauto.
    + left. split.
      * intros b [->|Hb]%elem_of_cons; [done|].
        destruct Hs1 as (Hc & Hf & _). rewrite (drift_stable _ _ _ _ Hc).
        rewrite <-Hf. by apply Hnd'.
      * exists s2. split; [done|]. by eapply hash_step_trans.
    + right. exists b. split; [by right|]. split; [|done].
      destruct Hs1 as (Hc & Hf & _). rewrite (drift_stable _ _ _ _ Hc).
      by rewrite <-Hf.
  - right. exists a. split; [by left|]. split; [done|].
    simpl. unfold bind. by rewrite Hrun.
Qed.

End checking.

(** ** The hash of a job *)

Section job_hash.
Context `{Ext : Externals}.

Implicit Types (s : state).

(** The hash [a.secHash()] returns in state [s]. *)
Definition identityHash s (a : addr) (d : digest) : Prop :=
  ∃ n s', secHash n a s = Ok (d, s').

Lemma identityHash_idhash s a d :
  identityHash s a d ↔ idhash (fs s) (heap s) a d.
Proof.
  split.
  - intros (n & s' & Hrun). by apply secHash_sound in Hrun as [? _].
  - intros [n Hn]. exists n. by apply secHash_complete.
Qed.

Lemma job_recomputed fsys h j o inputs name d :
  h !! j = Some o → body o = Job inputs name → recomputed fsys h j d →
  ∃ ds, Forall2 (idhash fsys h) inputs ds
        ∧ d = secHashObject (VTuple [VStr (getHash (cls o)); VList (VStr <$> ds)]).
Proof.
  intros Ho Hb (o' & m & Ho' & Hm). assert (o' = o) as -> by congruence.
  unfold cval_with in Hm. rewrite Hb in Hm. simpl in Hm.
  destruct (mapM (hval m fsys h) inputs) as [ds|] eqn:Hds; [|done].
  injection Hm as <-. exists ds. split; [|done].
  apply mapM_Some in Hds. eapply Forall2_impl; [done|].
  intros a d Ha. by exists m.
Qed.

Lemma idhash_Forall2_det fsys h l1 l2 ds1 ds2 :
  Forall2 (λ a b, ∃ d, idhash fsys h a d ∧ idhash fsys h b d) l1 l2 →
  Forall2 (idhash fsys h) l1 ds1 → Forall2 (idhash fsys h) l2 ds2 →
  ds1 = ds2.
Proof.
  intros Hl. revert ds1 ds2.
  induction Hl as [|a b l1 l2 (d & Ha & Hb) _ IH]; intros ds1 ds2 H1 H2.
  - inversion H1. by inversion H2.
  - inversion H1 as [|? d1 ? k1 Ha1 Hk1]; subst.
    inversion H2 as [|? d2 ? k2 Hb2 Hk2]; subst.
    f_equal; [|by apply IH].
    rewrite (idhash_det _ _ _ _ _ Ha1 Ha). by apply (idhash_det _ _ _ _ _ Hb Hb2).
Qed.

Lemma idhash_Forall2_same fsys h l1 l2 ds :
  Forall2 (idhash fsys h) l1 ds → Forall2 (idhash fsys h) l2 ds →
  Forall2 (λ a b, ∃ d, idhash fsys h a d ∧ idhash fsys h b d) l1 l2.
Proof.
  intros H1. revert l2. induction H1 as [|a d l1 ds Ha _ IH]; intros l2 H2.
  - inversion H2. constructor.
  - inversion H2; subst. constructor; [eauto|]. by apply IH.
Qed.

(** C1. Two jobs whose classes have the same code hash and whose inputs
    have, position by position, the same identity hash get the same hash
    from [computeSecHash]; and when [persist.secHashObject] has no
    collisions, jobs with the same hash have the same code hash and, position
    by position, inputs of the same identity hash: any difference in either
    gives different hashes. *)
Theorem job_computeSecHash_same_iff s j1 j2 o1 o2 inputs1 name1 inputs2 name2
    n1 n2 d1 d2 s1 s2 :
  heap s !! j1 = Some o1 → body o1 = Job inputs1 name1 →
  heap s !! j2 = Some o2 → body o2 = Job inputs2 name2 →
  computeSecHash n1 j1 s = Ok (d1, s1) →
  computeSecHash n2 j2 s1 = Ok (d2, s2) →
  let same_code := getHash (cls o1) = getHash (cls o2) in
  let same_inputs :=
    Forall2 (λ a b, ∃ d, identityHash s a d ∧ identityHash s b d)
      inputs1 inputs2 in
  (same_code ∧ same_inputs → d1 = d2)
  ∧ (Inj (=) (=) secHashObject → d1 = d2 → same_code ∧ same_inputs).
Proof.
  intros Ho1 Hb1 Ho2 Hb2 Hrun1 Hrun2 same_code same_inputs.
  apply computeSecHash_sound in Hrun1 as [Hre1 (Hc & Hf & _)].
  apply computeSecHash_sound in Hrun2 as [Hre2 _].
  rewrite Hf in Hre2. apply (recomputed_stable _ _ _ _ _ Hc) in Hre2.
  destruct (job_recomputed _ _ _ _ _ _ _ Ho1 Hb1 Hre1) as (ds1 & Hds1 & ->).
  destruct (job_recomputed _ _ _ _ _ _ _ Ho2 Hb2 Hre2) as (ds2 & Hds2 & ->).
  assert (same_inputs ↔
    Forall2 (λ a b, ∃ d, idhash (fs s) (heap s) a d ∧ idhash (fs s) (heap s) b d)
      inputs1 inputs2) as Hsame.
  { unfold same_inputs. split; intros H; (eapply Forall2_impl; [exact H|]);
      intros a b (d & Ha & Hb); exists d; by rewrite ?identityHash_idhash in *. }
  split.
  - intros [Hcode Hin]. unfold same_code in Hcode. rewrite Hcode.
    apply Hsame in Hin.
    by rewrite (idhash_Forall2_det _ _ _ _ _ _ Hin Hds1 Hds2).
  - intros Hinj Heq. apply Hinj in Heq. injection Heq as Hcode Hds.
    split; [done|]. apply Hsame.
    assert (ds1 = ds2) as ->.
    { revert Hds. clear. revert ds2.
      induction ds1 as [|d ds1 IH]; intros [|d' ds2]; try done.
      simpl. intros [= -> Hds]. f_equal. by apply IH. }
    by eapply idhash_Forall2_same.
Qed.

End job_hash.

(** ** Artifacts: where they are and what they hash *)

Section artifacts.
Context `{Ext : Externals}.

Implicit Types (s : state).

Lemma secHash_stored n s a o d :
  heap s !! a = Some o → _secHash o = Some d →
  secHash (S n) a s = Ok (d, s).
Proof.
  intros Ho Hd. simpl. unfold bind, get_obj. rewrite Ho. by rewrite Hd.
Qed.

(** C5. The location of a job's output is the cache root of the repository
    joined with the output's own identity hash; [isDone] tells whether the
    filesystem has an entry there; so outputs with the same identity hash
    share their location. *)
Theorem jobArtifact_loc_isDone s a o parentJob repo n d s' :
  heap s !! a = Some o → body o = JobArtifact parentJob →
  secHash n a s = Ok (d, s') →
  loc n a repo s = Ok (path_join (cacheDir repo) d, s')
  ∧ isDone n a repo s
    = Ok (bool_decide (is_Some (fs s !! path_join (cacheDir repo) d)), s')
  ∧ ∀ b ob parentJob' m s'',
      heap s' !! b = Some ob → body ob = JobArtifact parentJob' →
      secHash m b s' = Ok (d, s'') →
      loc m b repo s' = Ok (path_join (cacheDir repo) d, s'').
Proof.
  intros Ho Hb Hrun.
  assert (∀ t c oc pj k e t', heap t !! c = Some oc → body oc = JobArtifact pj →
            secHash k c t = Ok (e, t') →
            loc k c repo t = Ok (path_join (cacheDir repo) e, t')) as Hloc.
  { intros t c oc pj k e t' Hc Hbc Hr. unfold loc, bind, get_obj.
    rewrite Hc, Hbc. by rewrite Hr. }
  split; [by eapply Hloc|]. split; [|intros; by eapply Hloc].
  unfold isDone, bind, get_obj. rewrite Ho, Hb.
  rewrite (Hloc _ _ _ _ _ _ _ Ho Hb Hrun). unfold path_exists.
  apply secHash_sound in Hrun as [_ (_ & -> & _)]. done.
Qed.

(** C7, as the code has it.  [FixedDirArtifact.loadValue] returns the
    location, in every state: it does not look at the filesystem, and so
    does not fail when nothing is there and [isDone] answers false. *)
Theorem fixedDir_loadValue_location s a o location repo n :
  heap s !! a = Some o → body o = FixedDirArtifact location →
  loadValue n a repo s = Ok (PStr location, s)
  ∧ isDone n a repo s = Ok (bool_decide (is_Some (fs s !! location)), s).
Proof.
  intros Ho Hb. unfold loadValue, isDone, bind, get_obj. by rewrite Ho, Hb.
Qed.

(** C8, as the code has it.  The constructor reads no file.  The hash of a
    fixed file is computed from the class and from the bytes the file holds
    when [secHash] is first called, whatever it held at construction; from
    then on [secHash] returns that hash, whatever the file becomes. *)
Theorem fixedFile_hash_at_first_call s c location a s1 fsys bytes n :
  new_obj (Obj c None (FixedFileArtifact location)) s = Ok (a, s1) →
  fsys !! location = Some (File bytes) →
  let d := secHashObject (VTuple [VStr (getHash c); VStr (hashBytes bytes)]) in
  ∃ s2,
    secHash (S n) a (set_fs fsys s1) = Ok (d, s2)
    ∧ ∀ fsys' m, secHash (S m) a (set_fs fsys' s2) = Ok (d, set_fs fsys' s2).
Proof.
  intros Hnew Hf d. unfold new_obj in Hnew. injection Hnew as <- <-.
  set (a := fresh (dom (heap s))).
  set (o := Obj c None (FixedFileArtifact location)).
  eexists. split.
  - simpl. unfold bind, get_obj. simpl. rewrite lookup_insert_eq. simpl.
    unfold computeSecHash_with, bind, get_obj. simpl.
    rewrite lookup_insert_eq. simpl. unfold secHashFile. simpl. rewrite Hf.
    unfold modify_obj, bind, get_obj. simpl. rewrite lookup_insert_eq. done.
  - intros fsys' m. eapply secHash_stored.
    + simpl. apply lookup_insert_eq.
    + done.
Qed.

End artifacts.

(** ** The claims on the traversals and on the checks *)

Section traversal_claims.

Implicit Types (h : gmap addr obj).

Lemma ancestors_reach h initialNodes :
  (∀ a, reach (parents h) initialNodes a → is_Some (h !! a)) →
  ∃ ret,
    ancestors h initialNodes = Ok ret
    ∧ NoDup ret
    ∧ (∀ a, a ∈ ret ↔ reach (parents h) initialNodes a).
Proof.
  intros Hlive.
  apply (walk_correct (parents h) h initialNodes (parents_dom h) (parents_fuel h)).
  intros x [o Ho]%Hlive. unfold parents. rewrite Ho. by eexists.
Qed.

(** C3. When every node reachable from the starting nodes is a live object,
    [ancestors] returns a list without repetition whose elements are exactly
    the nodes reachable along [parents], the starting nodes among them:
    a node reached along several paths is listed once all the same. *)
Theorem ancestors_each_once h initialNodes :
  (∀ a, reach (parents h) initialNodes a → is_Some (h !! a)) →
  ∃ ret,
    ancestors h initialNodes = Ok ret
    ∧ NoDup ret
    ∧ (∀ a, a ∈ ret ↔ reach (parents h) initialNodes a)
    ∧ (∀ a, a ∈ initialNodes → a ∈ ret).
Proof.
  intros Hlive.
  destruct (ancestors_reach h initialNodes Hlive) as (ret & Hret & Hnd & Hin).
  exists ret. split; [done|]. split; [done|]. split; [done|].
  intros a Ha. apply Hin. by constructor.
Qed.

(** C9. Both traversals terminate on every heap, cyclic or not: any budget
    above the length of the starting list plus one batch of parents for each
    object of the heap is enough, and the loop then returns what it returns
    with any larger budget (a list, or the error of a method call), never
    for want of iterations. *)
Theorem traversals_terminate h initial fuel :
  walk_bound (parents h) h initial < fuel →
  walk_bound (parentArtifacts h) h initial < fuel →
  (walk_loop (parents h) fuel initial ∅ [] = ancestors h initial
   ∧ ancestors h initial ≠ Err OutOfFuel)
  ∧ (walk_loop (parentArtifacts h) fuel initial ∅ [] = ancestorArtifacts h initial
     ∧ ancestorArtifacts h initial ≠ Err OutOfFuel).
Proof.
  intros H1 H2. split.
  - by apply walk_total; [apply parents_dom|apply parents_fuel|].
  - by apply walk_total; [apply parentArtifacts_dom|apply parentArtifacts_fuel|].
Qed.

(** A heap all of whose references are to live objects. *)
Definition closed_heap h : Prop :=
  map_Forall (λ _ o, Forall (λ b, is_Some (h !! b)) (obj_parents o)) h.

Lemma reach_closed h initial a :
  closed_heap h → Forall (λ b, is_Some (h !! b)) initial →
  reach (parents h) initial a → is_Some (h !! a).
Proof.
  intros Hcl Hinit. induction 1 as [a Ha|a ps b _ [o Ho] Hps Hb].
  - by eapply Forall_forall in Hinit.
  - unfold parents in Hps. rewrite Ho in Hps. injection Hps as <-.
    specialize (Hcl a o Ho). simpl in Hcl. by eapply Forall_forall in Hcl.
Qed.

End traversal_claims.

Section check_claims.
Context `{Ext : Externals}.

Implicit Types (s : state).

(** C2. On an acyclic heap whose files are in place, [checkAllSecHash]
    raises exactly when some node reachable along [parents], the node itself
    included, stores a hash that differs from what [computeSecHash] returns
    for it; the error it raises is then [HashChanged] of a reachable node.
    So it returns on a graph whose stored hashes all agree with their
    recomputation, and raises once one of them is replaced by another
    value. *)
Theorem checkAllSecHash_raises_iff s self rk n :
  wf_heap (fs s) (heap s) rk → is_Some (heap s !! self) → rk self ≤ n →
  (is_Err (checkAllSecHash n self s) ↔
   ∃ b, reach (parents (heap s)) [self] b ∧ hash_drift n s b)
  ∧ (∀ e, checkAllSecHash n self s = Err e →
       ∃ b, reach (parents (heap s)) [self] b ∧ e = HashChanged b).
Proof.
  intros Hwf Hself Hrk.
  assert (∀ b, reach (parents (heap s)) [self] b →
            is_Some (heap s !! b) ∧ rk b ≤ n) as Hreach.
  { intros b Hb. destruct (reach_rank _ _ _ _ _ Hwf Hself Hb). split; [done|lia]. }
  destruct (ancestors_reach (heap s) [self]) as (nodes & Hnodes & _ & Hin).
  { intros a Ha. by apply Hreach. }
  assert (checkAllSecHash n self s = for_each (checkSecHash n) nodes s) as ->.
  { unfold checkAllSecHash, bind, lift. by rewrite Hnodes. }
  destruct (for_each_checkSecHash_spec n rk nodes s Hwf)
    as [[Hnd (s' & Hrun & _)]|(b & Hb & Hd & Hrun)].
  { intros b Hb. by apply Hreach, Hin. }
  - rewrite Hrun. split; [|done]. split; [by intros [e ?]|].
    intros (b & Hb & Hd). exfalso. apply (Hnd b); [by apply Hin|].
    destruct (Hreach b Hb). by eapply hash_drift_iff.
  - rewrite Hrun. apply Hin in Hb. split.
    + split; [|by eexists]. intros _. exists b. split; [done|].
      destruct (Hreach b Hb). by eapply hash_drift_iff.
    + intros e [= <-]. eauto.
Qed.

End check_claims.

(** ** The claim on [Corpus.outError] *)

Section corpus_claim.
Import Corpus.
Context {UttId Input Output Frame Vec Num : Type}.
Variable data : UttId → Input * Output.
Variable dist_synth : Input → SynthMethod → Output → Output.
Variable vecError : Vec → Vec → Num.
Variable frameToVec : Frame → Vec.
Variable outputToFrameSeq : Output → list Frame.
Variable num_zero : Num.
Variable num_add : Num → Num → Num.

Abbreviation synthFrames := (synthFrames data dist_synth outputToFrameSeq).
Abbreviation actualFrames := (actualFrames data outputToFrameSeq).
Abbreviation uttError :=
  (uttError data dist_synth vecError frameToVec outputToFrameSeq num_zero num_add).
Abbreviation computeValue :=
  (outError_computeValue dist_synth vecError frameToVec outputToFrameSeq
     num_zero num_add).

Lemma fmap_zip_uncurried {A B C} (f : A → B → C) (l : list A) (k : list B) :
  (λ '(x, y), f x y) <$> zip l k = zip_with f l k.
Proof.
  revert k. induction l as [|x l IH]; intros [|y k]; simpl; [done..|].
  by rewrite IH.
Qed.

Lemma outError_computeValue_spec uttId :
  computeValue (data uttId).1 (data uttId).2 =
  if decide (length (actualFrames uttId) ≠ length (synthFrames uttId))
  then Err LengthMismatch else Ok (uttError uttId).
Proof.
  unfold outError_computeValue, Corpus.actualFrames, Corpus.synthFrames,
    Corpus.uttError, Corpus.actualFrames, Corpus.synthFrames.
  case_decide; [done|]. do 2 f_equal. apply fmap_zip_uncurried.
Qed.

(** C10. [outError] raises when, for some utterance of the list, the
    synthesized and the actual frame sequences differ in length; otherwise it
    returns the sum, over the utterances in order, of the sum of [vecError]
    between frame [i] of the synthesized and frame [i] of the actual
    sequence. *)
Theorem outError_sum_or_raise (uttIds : list UttId) :
  outError data dist_synth vecError frameToVec outputToFrameSeq
    num_zero num_add uttIds =
  if decide (Exists (λ uttId, length (actualFrames uttId)
                              ≠ length (synthFrames uttId)) uttIds)
  then Err LengthMismatch
  else Ok (py_sum num_zero num_add (uttError <$> uttIds)).
Proof.
  unfold outError, sum.
  assert (res_comp (λ uttId, let '(input, output) := data uttId in
                             computeValue input output) uttIds =
          if decide (Exists (λ uttId, length (actualFrames uttId)
                                      ≠ length (synthFrames uttId)) uttIds)
          then Err LengthMismatch else Ok (uttError <$> uttIds)) as ->.
  { induction uttIds as [|u l IH].
    - destruct (decide (Exists _ [])) as [H%Exists_nil|]; done.
    - cbn [res_comp fmap list_fmap].
      pose proof (outError_computeValue_spec u) as Hu.
      destruct (data u) as [input output] eqn:Hdata. cbn [fst snd] in Hu.
      rewrite Hu, IH.
      destruct (decide (Exists _ (u :: l))) as [Hex|Hnex].
      + apply Exists_cons in Hex as [Hne|Hex].
        * by rewrite decide_True.
        * case_decide; [done|]. cbn. by rewrite decide_True.
      + rewrite decide_False; [|intros ?; apply Hnex; by left]. cbn.
        rewrite decide_False; [done|]. intros ?; apply Hnex; by right. }
  by case_decide.
Qed.

End corpus_claim.

(** ** What the hashing methods leave in the trace *)

Section traces.
Context `{Ext : Externals}.

Implicit Types (h : gmap addr obj) (s : state) (t : list event).

(** How many times an event occurs. *)
Definition occurrences (e : event) t : nat :=
  length (filter (λ x, x = e) t).

Lemma occurrences_app e t1 t2 :
  occurrences e (t1 ++ t2) = occurrences e t1 + occurrences e t2.
Proof. unfold occurrences. by rewrite filter_app, length_app. Qed.

Lemma occurrences_cons e x t :
  occurrences e (x :: t) = (if decide (x = e) then 1 else 0) + occurrences e t.
Proof.
  unfold occurrences. rewrite filter_cons. by destruct (decide (x = e)).
Qed.

Lemma occurrences_none e t : e ∉ t → occurrences e t = 0.
Proof.
  induction t as [|x t IH]; [done|]. intros Hn. rewrite occurrences_cons.
  rewrite decide_False by set_solver. rewrite IH; [done|set_solver].
Qed.

(** [c] is reached from [a] through nodes that store no hash, [a] and [c]
    among them: the nodes a call of [a.secHash()] may have to compute. *)
Inductive upath h : addr → addr → Prop :=
| upath_here a o : h !! a = Some o → _secHash o = None → upath h a a
| upath_step a o b c :
    h !! a = Some o → _secHash o = None → b ∈ obj_parents o →
    upath h b c → upath h a c.

Lemma upath_heap_le h h' a c : heap_le h h' → upath h' a c → upath h a c.
Proof.
  intros Hle. induction 1 as [a o' Ho' Hn|a o' b c Ho' Hn Hb _ IH].
  - destruct (heap_le_lookup_inv _ _ _ _ Hle Ho') as (o & Ho & _ & _ & Hs).
    apply (upath_here _ _ o); [done|]. destruct (_secHash o) as [d|] eqn:Hd; [|done].
    rewrite (Hs _ eq_refl) in Hn. done.
  - destruct (heap_le_lookup_inv _ _ _ _ Hle Ho') as (o & Ho & _ & Hbody & Hs).
    apply (upath_step _ _ o b); [done| |by unfold obj_parents; rewrite Hbody|done].
    destruct (_secHash o) as [d|] eqn:Hd; [|done].
    rewrite (Hs _ eq_refl) in Hn. done.
Qed.

(** The events a hashing method adds: [computeSecHash] entered on nodes
    reached from one of [l] through nodes without a stored hash. *)
Definition computes_from h (l : list addr) t : Prop :=
  ∀ e, e ∈ t → ∃ b c, e = EvCompute c ∧ b ∈ l ∧ upath h b c.

Definition traced_rec (rec : addr → M digest) : Prop :=
  ∀ a s d s', rec a s = Ok (d, s') →
    ∃ t, trace s' = trace s ++ t ∧ computes_from (heap s) [a] t.

Lemma list_comp_traced rec l : ∀ s ds s',
  sound_rec rec → traced_rec rec →
  list_comp rec l s = Ok (ds, s') →
  ∃ t, trace s' = trace s ++ t ∧ computes_from (heap s) l t.
Proof.
  induction l as [|x l IH]; intros s ds s' Hsnd Htr; simpl; intros Hrun.
  { apply ret_Ok in Hrun as [_ ->]. exists []. split; [by rewrite app_nil_r|].
    by intros e ?%elem_of_nil. }
  apply bind_Ok in Hrun as (y & s1 & Hx & Hrun).
  apply bind_Ok in Hrun as (ys & s2 & Hl & Hrun).
  apply ret_Ok in Hrun as [_ ->].
  destruct (Htr _ _ _ _ Hx) as (t1 & Ht1 & Hc1).
  destruct (IH _ _ _ Hsnd Htr Hl) as (t2 & Ht2 & Hc2).
  destruct (Hsnd _ _ _ _ Hx) as [_ ([Hle _] & _)].
  exists (t1 ++ t2). split; [by rewrite Ht2, Ht1, app_assoc|].
  intros e [He|He]%elem_of_app.
  - destruct (Hc1 e He) as (b & c & -> & ->%list_elem_of_singleton & Hp).
    exists x, c. split; [done|]. split; [by left|done].
  - destruct (Hc2 e He) as (b & c & -> & Hb & Hp).
    exists b, c. split; [done|]. split; [by right|]. by eapply upath_heap_le.
Qed.

Lemma computeSecHash_with_traced rec a s d s' :
  sound_rec rec → traced_rec rec →
  computeSecHash_with rec a s = Ok (d, s') →
  ∃ o t, heap s !! a = Some o
         ∧ trace s' = trace s ++ EvCompute a :: t
         ∧ computes_from (heap s) (obj_parents o) t.
Proof.
  intros Hsnd Htr Hrun. unfold computeSecHash_with in Hrun.
  apply bind_Ok in Hrun as (o & ? & [Ho ->]%get_obj_Ok & Hrun).
  apply bind_Ok in Hrun as ([] & s1 & ->%emit_Ok & Hrun).
  exists o. unfold obj_parents.
  assert (∀ t, trace s' = (trace s ++ [EvCompute a]) ++ t →
               trace s' = trace s ++ EvCompute a :: t) as Happ.
  { intros t ->. by rewrite <-app_assoc. }
  destruct (body o) eqn:Hb.
  - apply ret_Ok in Hrun as [_ ->]. exists []. split; [done|]. split; [done|].
    by intros e ?%elem_of_nil.
  - apply ret_Ok in Hrun as [_ ->]. exists []. split; [done|]. split; [done|].
    by intros e ?%elem_of_nil.
  - apply bind_Ok in Hrun as (f & s2 & Hf & Hrun).
    apply ret_Ok in Hrun as [_ ->]. unfold secHashFile in Hf. simpl in Hf.
    destruct (fs s !! location) as [[bytes|]|]; try done.
    injection Hf as _ <-. exists []. split; [done|]. split; [done|].
    by intros e ?%elem_of_nil.
  - apply bind_Ok in Hrun as (y & s2 & Hy & Hrun).
    apply ret_Ok in Hrun as [_ ->].
    destruct (Htr _ _ _ _ Hy) as (t & Ht & Hc). exists t.
    split; [done|]. split; [by apply Happ|done].
  - apply bind_Ok in Hrun as (ys & s2 & Hys & Hrun).
    apply ret_Ok in Hrun as [_ ->].
    destruct (list_comp_traced _ _ _ _ _ Hsnd Htr Hys) as (t & Ht & Hc).
    exists t. split; [done|]. split; [by apply Happ|done].
Qed.

Lemma secHash_traced n : traced_rec (secHash n).
Proof.
  induction n as [|n IH]; intros a s d s'; [done|]. simpl. intros Hrun.
  apply bind_Ok in Hrun as (o & ? & [Ho ->]%get_obj_Ok & Hrun).
  destruct (_secHash o) as [d0|] eqn:Hd0.
  { apply ret_Ok in Hrun as [_ ->]. exists []. split; [by rewrite app_nil_r|].
    by intros e ?%elem_of_nil. }
  apply bind_Ok in Hrun as (d1 & s1 & Hcomp & Hrun).
  apply bind_Ok in Hrun as ([] & s2 & Hmod & Hrun).
  apply ret_Ok in Hrun as [_ ->].
  apply modify_obj_Ok in Hmod as (o1 & Ho1 & ->).
  destruct (computeSecHash_with_traced _ _ _ _ _ (secHash_sound n) IH Hcomp)
    as (o' & t & Ho' & Ht & Hc).
  assert (o' = o) as -> by congruence.
  exists (EvCompute a :: t). split; [done|].
  intros e [->|He]%elem_of_cons.
  - exists a, a. split; [done|]. split; [by left|]. by eapply upath_here.
  - destruct (Hc e He) as (b & c & -> & Hb & Hp).
    exists a, c. split; [done|]. split; [by left|]. by eapply upath_step.
Qed.

(** Nodes without a stored hash each of which has another of them as a
    parent: a call of [secHash] on one of them never returns. *)
Definition trap h (C : addr → Prop) : Prop :=
  ∀ c, C c → ∃ o, h !! c = Some o ∧ _secHash o = None
                  ∧ ∃ y, y ∈ obj_parents o ∧ C y.

Definition avoids_traps (rec : addr → M digest) : Prop :=
  ∀ a s d s' C, rec a s = Ok (d, s') →
    trap (heap s) C → ¬ C a ∧ trap (heap s') C.

Lemma list_comp_avoids rec l : ∀ s ds s' C,
  avoids_traps rec →
  list_comp rec l s = Ok (ds, s') → trap (heap s) C →
  (∀ b, b ∈ l → ¬ C b) ∧ trap (heap s') C.
Proof.
  induction l as [|x l IH]; intros s ds s' C Hrec; simpl; intros Hrun Htrap.
  { apply ret_Ok in Hrun as [_ ->]. split; [by intros b ?%elem_of_nil|done]. }
  apply bind_Ok in Hrun as (y & s1 & Hx & Hrun).
  apply bind_Ok in Hrun as (ys & s2 & Hl & Hrun).
  apply ret_Ok in Hrun as [_ ->].
  destruct (Hrec _ _ _ _ C Hx Htrap) as [Hnx Htrap1].
  destruct (IH _ _ _ C Hrec Hl Htrap1) as [Hnl Htrap2].
  split; [|done]. intros b [->|Hb]%elem_of_cons; auto.
Qed.

Lemma computeSecHash_with_avoids rec a s d s' C :
  avoids_traps rec →
  computeSecHash_with rec a s = Ok (d, s') → trap (heap s) C →
  ¬ C a ∧ trap (heap s') C.
Proof.
  intros Hrec Hrun Htrap. unfold computeSecHash_with in Hrun.
  apply bind_Ok in Hrun as (o & ? & [Ho ->]%get_obj_Ok & Hrun).
  apply bind_Ok in Hrun as ([] & s1 & ->%emit_Ok & Hrun).
  enough ((∀ b, b ∈ obj_parents o → ¬ C b) ∧ trap (heap s') C) as [Hpar Htrap'].
  { split; [|done]. intros (o' & Ho' & _ & y & Hy & HC)%Htrap.
    assert (o' = o) as -> by congruence. by apply (Hpar y). }
  unfold obj_parents. destruct (body o) eqn:Hb.
  - apply ret_Ok in Hrun as [_ ->]. split; [by intros b ?%elem_of_nil|done].
  - apply ret_Ok in Hrun as [_ ->]. split; [by intros b ?%elem_of_nil|done].
  - apply bind_Ok in Hrun as (f & s2 & Hf & Hrun).
    apply ret_Ok in Hrun as [_ ->]. unfold secHashFile in Hf. simpl in Hf.
    destruct (fs s !! location) as [[bytes|]|]; try done.
    injection Hf as _ <-. split; [by intros b ?%elem_of_nil|done].
  - apply bind_Ok in Hrun as (y & s2 & Hy & Hrun).
    apply ret_Ok in Hrun as [_ ->].
    destruct (Hrec _ _ _ _ C Hy Htrap) as [Hn Htrap'].
    split; [|done]. by intros b ->%list_elem_of_singleton.
  - apply bind_Ok in Hrun as (ys & s2 & Hys & Hrun).
    apply ret_Ok in Hrun as [_ ->].
    by apply (list_comp_avoids _ _ _ _ _ C Hrec Hys).
Qed.

Lemma secHash_avoids n : avoids_traps (secHash n).
Proof.
  induction n as [|n IH]; intros a s d s' C; [done|]. simpl. intros Hrun Htrap.
  apply bind_Ok in Hrun as (o & ? & [Ho ->]%get_obj_Ok & Hrun).
  destruct (_secHash o) as [d0|] eqn:Hd0.
  { apply ret_Ok in Hrun as [_ ->]. split; [|done].
    intros (o' & Ho' & Hn & _)%Htrap. congruence. }
  apply bind_Ok in Hrun as (d1 & s1 & Hcomp & Hrun).
  apply bind_Ok in Hrun as ([] & s2 & Hmod & Hrun).
  apply ret_Ok in Hrun as [_ ->].
  apply modify_obj_Ok in Hmod as (o1 & Ho1 & ->).
  destruct (computeSecHash_with_avoids _ _ _ _ _ C IH Hcomp Htrap)
    as [Hna Htrap1].
  split; [done|]. intros c Hc. destruct (Htrap1 c Hc) as (oc & Hoc & Hrest).
  exists oc. split; [|done]. simpl. rewrite lookup_insert_ne; [done|].
  by intros <-.
Qed.

(** The first call of [secHash] on a node enters its [computeSecHash] once,
    at the start, and never again while it runs. *)
Lemma secHash_computes_once n a s o d s' :
  heap s !! a = Some o → _secHash o = None →
  secHash n a s = Ok (d, s') →
  ∃ t, trace s' = trace s ++ EvCompute a :: t ∧ EvCompute a ∉ t.
Proof.
  intros Ho Hd0 Hrun. destruct n as [|n]; [done|]. simpl in Hrun.
  apply bind_Ok in Hrun as (o' & ? & [Ho' ->]%get_obj_Ok & Hrun).
  assert (o' = o) as -> by congruence. rewrite Hd0 in Hrun.
  apply bind_Ok in Hrun as (d1 & s1 & Hcomp & Hrun).
  apply bind_Ok in Hrun as ([] & s2 & Hmod & Hrun).
  apply ret_Ok in Hrun as [_ ->].
  apply modify_obj_Ok in Hmod as (o1 & Ho1 & ->).
  destruct (computeSecHash_with_traced _ _ _ _ _ (secHash_sound n)
              (secHash_traced n) Hcomp) as (o2 & t & Ho2 & Ht & Hc).
  assert (o2 = o) as -> by congruence.
  exists t. split; [done|]. intros Hin.
  destruct (Hc _ Hin) as (b & c & [= <-] & Hb & Hp).
  destruct (computeSecHash_with_avoids _ _ _ _ _ (λ x, upath (heap s) x a)
              (secHash_avoids n) Hcomp) as [Hna _].
  - intros x Hx. inversion Hx as [? ox Hox Hnx|? ox y ? Hox Hnx Hy Hya]; subst.
    + exists ox. split; [done|]. split; [done|].
      assert (ox = o) as -> by congruence. eauto.
    + exists ox. split; [done|]. split; [done|]. eauto.
  - apply Hna. by eapply upath_here.
Qed.

End traces.

(** ** What no step undoes *)

Section evolution.
Context `{Ext : Externals}.

Implicit Types (h : gmap addr obj) (s : state).

(** A thunk artifact keeps its thunk and its flag, and its value once it
    has one. *)
Definition thunk_keeps (k k' : kind) : Prop :=
  match k with
  | ThunkArtifact th c v =>
      ∃ v', k' = ThunkArtifact th c v' ∧ (is_Some v → v' = v)
  | _ => True
  end.

(** The step stored the value of a thunk. *)
Definition fills (k k' : kind) : nat :=
  match k, k' with
  | ThunkArtifact _ _ None, ThunkArtifact _ _ (Some _) => 1
  | _, _ => 0
  end.

(** From [s] to [s']: every object is still there, with its class and the
    hash it stored; the thunk of a caching artifact was called once if its
    value was stored on the way, and not at all otherwise. *)
Definition evolves s s' : Prop :=
  ∀ a o, heap s !! a = Some o →
    ∃ o', heap s' !! a = Some o'
      ∧ cls o' = cls o
      ∧ (∀ d, _secHash o = Some d → _secHash o' = Some d)
      ∧ thunk_keeps (body o) (body o')
      ∧ (∀ th v, body o = ThunkArtifact th true v →
           occurrences (EvThunk a) (trace s')
           = occurrences (EvThunk a) (trace s) + fills (body o) (body o')).

Lemma thunk_keeps_refl k : thunk_keeps k k.
Proof. destruct k; simpl; eauto. Qed.

Lemma evolves_refl s : evolves s s.
Proof.
  intros a o Ho. exists o. split; [done|]. split; [done|]. split; [done|].
  split; [apply thunk_keeps_refl|]. intros th v ->. simpl. destruct v; lia.
Qed.

Lemma evolves_trans s1 s2 s3 : evolves s1 s2 → evolves s2 s3 → evolves s1 s3.
Proof.
  intros H12 H23 a o1 Ho1.
  destruct (H12 a o1 Ho1) as (o2 & Ho2 & Hc12 & Hs12 & Hk12 & Hn12).
  destruct (H23 a o2 Ho2) as (o3 & Ho3 & Hc23 & Hs23 & Hk23 & Hn23).
  exists o3. split; [done|]. split; [congruence|]. split; [auto|].
  destruct (body o1) as [th c v| | | |] eqn:Hb1; simpl in *; try done.
  destruct Hk12 as (v2 & Hb2 & Hv12). rewrite Hb2 in Hk23, Hn23. simpl in *.
  destruct Hk23 as (v3 & Hb3 & Hv23). rewrite Hb3 in Hn23. rewrite Hb2 in Hn12.
  rewrite Hb3. split.
  - exists v3. split; [done|]. intros Hv. rewrite Hv23; [by apply Hv12|].
    by rewrite Hv12.
  - intros th' v' [= -> -> ->]. rewrite (Hn23 _ _ eq_refl), (Hn12 _ _ eq_refl).
    simpl. destruct v' as [x|], v2 as [x2|], v3 as [x3|]; simpl; try lia;
      try (specialize (Hv12 (mk_is_Some _ _ eq_refl)); done);
      try (specialize (Hv23 (mk_is_Some _ _ eq_refl)); done).
Qed.

(** A hashing method: hashes are only added, and only [EvCompute] events. *)
Lemma evolves_hash s s' :
  heap_le (heap s) (heap s') →
  (∃ t, trace s' = trace s ++ t ∧ ∀ e, e ∈ t → ∃ c, e = EvCompute c) →
  evolves s s'.
Proof.
  intros Hle (t & Ht & Hev) a o Ho.
  destruct (heap_le_lookup _ _ _ _ Hle Ho) as (o' & Ho' & Hcls & Hbody & Hsec).
  exists o'. split; [done|]. split; [done|]. split; [done|].
  rewrite <-Hbody. split; [apply thunk_keeps_refl|].
  intros th v Hb. rewrite Ht, occurrences_app.
  rewrite (occurrences_none _ t).
  - rewrite Hb. simpl. destruct v; lia.
  - intros (c & [=])%Hev.
Qed.

(** Computations all of whose returns are such. *)
Definition evolving {A} (m : M A) : Prop :=
  ∀ s r s', m s = Ok (r, s') → evolves s s'.

Lemma evolving_ret {A} (a : A) : evolving (ret a).
Proof. intros s r s' [_ ->]%ret_Ok. apply evolves_refl. Qed.

Lemma evolving_raise {A} e : evolving (raise (A:=A) e).
Proof. by intros s r s'. Qed.

Lemma evolving_bind {A B} (m : M A) (f : A → M B) :
  evolving m → (∀ a, evolving (f a)) → evolving (bind m f).
Proof.
  intros Hm Hf s r s' (a & s1 & H1 & H2)%bind_Ok.
  eapply evolves_trans; [by eapply Hm|by eapply Hf].
Qed.

Lemma evolving_get_obj a : evolving (get_obj a).
Proof. intros s r s' [_ ->]%get_obj_Ok. apply evolves_refl. Qed.

(** Reading the state, with a result or an exception. *)
Lemma evolving_read {A} (f : state → res A) :
  evolving (λ s, lift (f s) s).
Proof.
  intros s r s'. unfold lift. destruct (f s); [|done].
  intros [= _ <-]. apply evolves_refl.
Qed.

Lemma evolving_path_exists p : evolving (path_exists p).
Proof. intros s r s' [= _ <-]. apply evolves_refl. Qed.

Lemma evolving_loadPickle p : evolving (loadPickle p).
Proof.
  intros s r s'. unfold loadPickle. destruct (fs s !! p) as [[bytes|]|]; try done.
  destruct (unpickle bytes); [|done]. intros [= _ <-]. apply evolves_refl.
Qed.

Lemma evolving_savePickle p v : evolving (savePickle p v).
Proof.
  intros s r s' [= _ <-] a o Ho. exists o. simpl. split; [done|].
  split; [done|]. split; [done|]. split; [apply thunk_keeps_refl|].
  intros th w ->. simpl. destruct w; lia.
Qed.

Lemma evolving_for_each {A} (f : A → M unit) l :
  (∀ x, evolving (f x)) → evolving (for_each f l).
Proof.
  intros Hf. induction l as [|x l IH]; simpl.
  - apply evolving_ret.
  - apply evolving_bind; [apply Hf|]. by intros _.
Qed.

Lemma evolving_list_comp {A B} (f : A → M B) l :
  (∀ x, evolving (f x)) → evolving (list_comp f l).
Proof.
  intros Hf. induction l as [|x l IH]; simpl.
  - apply evolving_ret.
  - apply evolving_bind; [apply Hf|]. intros y.
    apply evolving_bind; [done|]. intros ys. apply evolving_ret.
Qed.

Lemma evolving_forget {A} (m : M A) : evolving m → evolving (forget m).
Proof. intros Hm. apply evolving_bind; [done|]. intros _. apply evolving_ret. Qed.

Lemma evolving_secHash n a : evolving (secHash n a).
Proof.
  intros s d s' Hrun.
  destruct (secHash_sound _ _ _ _ _ Hrun) as [_ ([Hle _] & _)].
  destruct (secHash_traced _ _ _ _ _ Hrun) as (t & Ht & Hc).
  apply evolves_hash; [done|]. exists t. split; [done|].
  intros e (b & c & -> & _)%Hc. eauto.
Qed.

Lemma evolving_computeSecHash n a : evolving (computeSecHash n a).
Proof.
  intros s d s' Hrun.
  destruct (computeSecHash_sound _ _ _ _ _ Hrun) as [_ ([Hle _] & _)].
  destruct (computeSecHash_with_traced _ _ _ _ _ (secHash_sound n)
              (secHash_traced n) Hrun) as (o & t & _ & Ht & Hc).
  apply evolves_hash; [done|]. exists (EvCompute a :: t). split; [done|].
  intros e [->|(b & c & -> & _)%Hc]%elem_of_cons; eauto.
Qed.

Lemma evolving_checkSecHash n a : evolving (checkSecHash n a).
Proof.
  apply evolving_bind; [apply evolving_secHash|]. intros d.
  apply evolving_bind; [apply evolving_computeSecHash|]. intros d'.
  case_decide; [apply evolving_ret|apply evolving_raise].
Qed.

Lemma evolving_checkAllSecHash n a : evolving (checkAllSecHash n a).
Proof.
  apply evolving_bind; [apply (evolving_read (λ s, ancestors (heap s) [a]))|].
  intros nodes. apply evolving_for_each. intros b. apply evolving_checkSecHash.
Qed.

Lemma evolving_loc n a repo : evolving (loc n a repo).
Proof.
  apply evolving_bind; [apply evolving_get_obj|]. intros o.
  destruct (body o); try apply evolving_ret; try apply evolving_raise.
  apply evolving_bind; [apply evolving_secHash|]. intros d. apply evolving_ret.
Qed.

Lemma evolving_isDone n a repo : evolving (isDone n a repo).
Proof.
  apply evolving_bind; [apply evolving_get_obj|]. intros o.
  destruct (body o); try apply evolving_ret; try apply evolving_raise;
    try apply evolving_path_exists.
  apply evolving_bind; [apply evolving_loc|]. intros p. apply evolving_path_exists.
Qed.

End evolution.

Section steps.
Context `{Ext : Externals}.

Implicit Types (h : gmap addr obj) (s : state).

Lemma fills_same k : fills k k = 0.
Proof. by destruct k as [? ? [?|]| | | |]. Qed.

(** A change of the heap at one object, events added to the trace. *)
Lemma evolves_update s a o o' w t fsys :
  heap s !! a = Some o →
  cls o' = cls o → _secHash o' = _secHash o →
  thunk_keeps (body o) (body o') →
  (∀ b, b ≠ a → EvThunk b ∉ t) →
  (∀ th v, body o = ThunkArtifact th true v →
     occurrences (EvThunk a) t = fills (body o) (body o')) →
  evolves s (State (<[a := o']> (heap s)) fsys w (trace s ++ t)).
Proof.
  intros Ho Hcls Hsec Hkeep Hother Hcount b ob Hob. simpl.
  destruct (decide (b = a)) as [->|Hne].
  - assert (ob = o) as -> by congruence. exists o'.
    rewrite lookup_insert_eq. split; [done|]. split; [done|].
    split; [by rewrite Hsec|]. split; [done|].
    intros th v Hb. by rewrite occurrences_app, (Hcount _ _ Hb).
  - exists ob. rewrite lookup_insert_ne by done. split; [done|].
    split; [done|]. split; [done|]. split; [apply thunk_keeps_refl|].
    intros th v Hb. rewrite occurrences_app, fills_same.
    by rewrite (occurrences_none _ t) by auto.
Qed.

Lemma evolving_loadValue n a repo : evolving (loadValue n a repo).
Proof.
  intros s r s' Hrun. unfold loadValue in Hrun.
  apply bind_Ok in Hrun as (o & ? & [Ho ->]%get_obj_Ok & Hrun).
  destruct (body o) as [th c v| | | |] eqn:Hb.
  - unfold run_thunk in Hrun. destruct c; [destruct v as [v|]|].
    + apply ret_Ok in Hrun as [_ ->]. apply evolves_refl.
    + apply bind_Ok in Hrun as (x & s1 & Hth & Hrun).
      apply bind_Ok in Hth as ([] & ? & ->%emit_Ok & Hth). simpl in Hth.
      destruct (call_thunk th (world s)) as [[x' w]|]; [|done].
      injection Hth as <- <-.
      apply bind_Ok in Hrun as ([] & s2 & Hmod & Hrun).
      apply ret_Ok in Hrun as [_ ->].
      apply modify_obj_Ok in Hmod as (o1 & Ho1 & ->). simpl in *.
      assert (o1 = o) as -> by congruence.
      apply (evolves_update s a o (set_value x' o) w [EvThunk a] (fs s));
        try done.
      * simpl. rewrite Hb. eexists. split; [done|]. by intros [? [=]].
      * intros b Hne [=]%list_elem_of_singleton. done.
      * intros th' v' _. simpl. rewrite Hb.
        by rewrite occurrences_cons, decide_True.
    + apply bind_Ok in Hrun as (x & s1 & Hth & Hrun).
      apply ret_Ok in Hrun as [_ ->].
      apply bind_Ok in Hth as ([] & ? & ->%emit_Ok & Hth). simpl in Hth.
      destruct (call_thunk th (world s)) as [[x' w]|]; [|done].
      injection Hth as <- <-.
      rewrite <-(insert_id (heap s) a o) at 1 by done.
      apply (evolves_update s a o o w [EvThunk a] (fs s)); try done.
      * apply thunk_keeps_refl.
      * intros b Hne [=]%list_elem_of_singleton. done.
      * intros th' v'. rewrite Hb. done.
  - apply ret_Ok in Hrun as [_ ->]. apply evolves_refl.
  - done.
  - revert Hrun. apply evolving_bind; [apply evolving_loc|]. intros p.
    apply evolving_bind; [apply evolving_loadPickle|]. intros x.
    apply evolving_ret.
  - done.
Qed.

Lemma evolving_saveValue n a repo v : evolving (saveValue n a repo v).
Proof.
  apply evolving_bind; [apply evolving_get_obj|]. intros o.
  destruct (body o); try apply evolving_raise.
  apply evolving_bind; [apply evolving_loc|]. intros p. apply evolving_savePickle.
Qed.

Lemma evolving_new_obj o : evolving (new_obj o).
Proof.
  intros s a s' [= <- <-] b ob Hob. exists ob. simpl.
  rewrite lookup_insert_ne.
  - split; [done|]. split; [done|]. split; [done|].
    split; [apply thunk_keeps_refl|]. intros th v Hb. rewrite fills_same. lia.
  - intros <-. apply (is_fresh (dom (heap s))). apply elem_of_dom. eauto.
Qed.

Lemma evolving_parentJobs a : evolving (parentJobs a).
Proof.
  apply evolving_bind; [apply evolving_get_obj|]. intros o.
  destruct (body o); try apply evolving_raise.
  apply evolving_bind; [|intros; apply evolving_ret].
  apply evolving_list_comp. intros b.
  apply (evolving_read (λ s, parents (heap s) b)).
Qed.

Lemma evolving_newOutput a : evolving (newOutput a).
Proof.
  apply evolving_bind; [apply evolving_get_obj|]. intros o.
  destruct (body o); try apply evolving_raise. apply evolving_new_obj.
Qed.

Lemma evolving_run a repo : evolving (run a repo).
Proof.
  apply evolving_bind; [apply evolving_get_obj|]. intros o.
  destruct (body o); apply evolving_raise.
Qed.

Lemma evolving_set_inputs job inputs : evolving (set_inputs job inputs).
Proof.
  intros s r s' Hrun. unfold set_inputs in Hrun.
  apply bind_Ok in Hrun as (o & ? & [Ho ->]%get_obj_Ok & Hrun).
  destruct (body o) eqn:Hb; try done.
  apply modify_obj_Ok in Hrun as (o1 & Ho1 & ->).
  assert (o1 = o) as -> by congruence.
  pose proof (evolves_update s job o (Obj (cls o) (_secHash o) (Job inputs name))
                (world s) [] (fs s) Ho eq_refl eq_refl) as Hup.
  rewrite app_nil_r in Hup. apply Hup.
  - by rewrite Hb.
  - intros b _ ?%elem_of_nil. done.
  - intros th v. by rewrite Hb.
Qed.

Lemma evolving_exec n c : evolving (exec n c).
Proof.
  destruct c; simpl.
  - apply evolving_forget, evolving_secHash.
  - apply evolving_forget, evolving_computeSecHash.
  - apply evolving_checkSecHash.
  - apply evolving_checkAllSecHash.
  - apply evolving_forget, (evolving_read (λ s, parents (heap s) self)).
  - apply evolving_forget, (evolving_read (λ s, parentArtifacts (heap s) self)).
  - apply evolving_forget, evolving_loc.
  - apply evolving_forget, evolving_isDone.
  - apply evolving_forget, evolving_loadValue.
  - apply evolving_saveValue.
  - apply evolving_forget, evolving_parentJobs.
  - apply evolving_forget, evolving_newOutput.
  - apply evolving_run.
Qed.

Lemma evolving_run_steps steps : evolving (run_steps steps).
Proof.
  apply evolving_for_each. intros [n c|job inputs]; simpl.
  - apply evolving_exec.
  - apply evolving_set_inputs.
Qed.

End steps.

(** ** Memoization: the hash of a node, the value of a thunk *)

Section memo.
Context `{Ext : Externals}.

Implicit Types (h : gmap addr obj) (s : state).

Lemma evolves_stored s s' a d :
  evolves s s' → stored (heap s) a = Some d → stored (heap s') a = Some d.
Proof.
  intros Hev Hst. unfold stored in *.
  destruct (heap s !! a) as [o|] eqn:Ho; [|done].
  destruct (Hev a o Ho) as (o' & -> & _ & Hsec & _). simpl in *. auto.
Qed.

(** C4. A first call of [secHash] on a node (one that stores no hash yet)
    returns on every acyclic heap given enough budget; when it returns it
    has entered the node's [computeSecHash] exactly once, its result is the
    result of that call, and it is stored; after any further steps (method
    calls on any node, inputs of jobs replaced) the same hash is stored, and
    [secHash] returns it and leaves the state, trace included, as it is. *)
Theorem secHash_memoized s a o n :
  heap s !! a = Some o → _secHash o = None →
  (∀ rk, wf_heap (fs s) (heap s) rk → rk a < n → is_Ok (secHash n a s))
  ∧ ∀ d s1, secHash n a s = Ok (d, s1) →
      (∃ t, trace s1 = trace s ++ t ∧ occurrences (EvCompute a) t = 1)
      ∧ (∃ s', computeSecHash (pred n) a s = Ok (d, s'))
      ∧ stored (heap s1) a = Some d
      ∧ ∀ steps s2, run_steps steps s1 = Ok (tt, s2) →
          stored (heap s2) a = Some d
          ∧ ∀ m, secHash (S m) a s2 = Ok (d, s2).
Proof.
  intros Ho Hd0. split.
  { intros rk Hwf Hlt. destruct (secHash_total s rk n a Hwf) as (d & s' & Hrun);
      [by eexists|done|]. by eexists. }
  intros d s1 Hrun.
  assert (stored (heap s1) a = Some d
          ∧ ∃ s', computeSecHash (pred n) a s = Ok (d, s')) as [Hst Hcomp].
  { destruct n as [|n]; [done|]. simpl in Hrun.
    apply bind_Ok in Hrun as (o' & ? & [Ho' ->]%get_obj_Ok & Hrun).
    assert (o' = o) as -> by congruence. rewrite Hd0 in Hrun.
    apply bind_Ok in Hrun as (d1 & s' & Hcomp & Hrun).
    apply bind_Ok in Hrun as ([] & s2 & Hmod & Hrun).
    apply ret_Ok in Hrun as [-> ->].
    apply modify_obj_Ok in Hmod as (o1 & Ho1 & ->).
    split; [|by exists s']. unfold stored. simpl.
    by rewrite lookup_insert_eq. }
  split.
  { destruct (secHash_computes_once _ _ _ _ _ _ Ho Hd0 Hrun) as (t & Ht & Hnt).
    exists (EvCompute a :: t). split; [done|].
    by rewrite occurrences_cons, decide_True, occurrences_none. }
  split; [done|]. split; [done|].
  intros steps s2 Hsteps.
  pose proof (evolves_stored _ _ _ _ (evolving_run_steps _ _ _ _ Hsteps) Hst)
    as Hst2.
  split; [done|]. intros m. unfold stored in Hst2.
  destruct (heap s2 !! a) as [o2|] eqn:Ho2; [|done]. by eapply secHash_stored.
Qed.

Lemma loadValue_thunk_stored s a o th v m repo :
  heap s !! a = Some o → body o = ThunkArtifact th true (Some v) →
  loadValue m a repo s = Ok (PRef v, s).
Proof. intros Ho Hb. unfold loadValue, bind, get_obj. by rewrite Ho, Hb. Qed.

Lemma loadValue_thunk_first s a o th m repo :
  heap s !! a = Some o → body o = ThunkArtifact th true None →
  loadValue m a repo s
  = match call_thunk th (world s) with
    | Ok (v, w) =>
        Ok (PRef v, State (<[a := set_value v o]> (heap s)) (fs s) w
                      (trace s ++ [EvThunk a]))
    | Err e => Err e
    end.
Proof.
  intros Ho Hb. unfold loadValue, bind, get_obj. rewrite Ho, Hb.
  unfold run_thunk, bind, emit. simpl.
  destruct (call_thunk th (world s)) as [[v w]|e]; [|done]. simpl.
  unfold modify_obj, bind, get_obj. simpl. by rewrite Ho.
Qed.

Lemma loadValue_thunk_fresh s a o th v0 m repo :
  heap s !! a = Some o → body o = ThunkArtifact th false v0 →
  loadValue m a repo s
  = match call_thunk th (world s) with
    | Ok (v, w) =>
        Ok (PRef v, State (heap s) (fs s) w (trace s ++ [EvThunk a]))
    | Err e => Err e
    end.
Proof.
  intros Ho Hb. unfold loadValue, bind, get_obj. rewrite Ho, Hb.
  unfold run_thunk, bind, emit. simpl.
  by destruct (call_thunk th (world s)) as [[v w]|e].
Qed.

(** C6. Take a thunk artifact as constructed (no value yet) and any point
    [s1] of the process after it.  With [shouldCache], the thunk has been
    called at most once by then; [loadValue] returns if the thunk was called
    already or returns now; when [loadValue] returns, the thunk has been
    called exactly once in all, the result is the thunk's own when this is
    the call that called it, and every later call of [loadValue], after any
    further steps, returns the same object and leaves the state as it is.
    Without [shouldCache], a call of [loadValue] calls the thunk once and
    returns what that call produced. *)
Theorem thunk_loadValue_caching s a o thunk shouldCache steps s1 n repo :
  heap s !! a = Some o → body o = ThunkArtifact thunk shouldCache None →
  run_steps steps s = Ok (tt, s1) →
  let calls s' := occurrences (EvThunk a) (trace s') in
  if shouldCache then
    calls s1 ≤ S (calls s)
    ∧ (calls s1 = S (calls s) ∨ is_Ok (call_thunk thunk (world s1)) →
       is_Ok (loadValue n a repo s1))
    ∧ ∀ r s2, loadValue n a repo s1 = Ok (r, s2) →
        ∃ v, r = PRef v
          ∧ calls s2 = S (calls s)
          ∧ (calls s1 = calls s → ∃ w, call_thunk thunk (world s1) = Ok (v, w))
          ∧ ∀ steps' s3, run_steps steps' s2 = Ok (tt, s3) →
              calls s3 = S (calls s)
              ∧ ∀ m repo', loadValue m a repo' s3 = Ok (PRef v, s3)
  else
    loadValue n a repo s1
    = match call_thunk thunk (world s1) with
      | Ok (v, w) =>
          Ok (PRef v, State (heap s1) (fs s1) w (trace s1 ++ [EvThunk a]))
      | Err e => Err e
      end.
Proof.
  intros Ho Hb Hsteps calls.
  destruct (evolving_run_steps _ _ _ _ Hsteps a o Ho)
    as (o1 & Ho1 & _ & _ & Hkeep & Hcount).
  rewrite Hb in Hkeep. simpl in Hkeep. destruct Hkeep as (v1 & Hb1 & _).
  destruct shouldCache; [|by eapply loadValue_thunk_fresh].
  specialize (Hcount _ _ Hb). rewrite Hb, Hb1 in Hcount. simpl in Hcount.
  fold (calls s1) in Hcount. fold (calls s) in Hcount.
  assert (∀ v s2 o2, heap s2 !! a = Some o2 →
            body o2 = ThunkArtifact thunk true (Some v) →
            calls s2 = S (calls s) →
            ∀ steps' s3, run_steps steps' s2 = Ok (tt, s3) →
              calls s3 = S (calls s)
              ∧ ∀ m repo', loadValue m a repo' s3 = Ok (PRef v, s3)) as Hlater.
  { intros v s2 o2 Ho2 Hb2 Hc2 steps' s3 Hsteps'.
    destruct (evolving_run_steps _ _ _ _ Hsteps' a o2 Ho2)
      as (o3 & Ho3 & _ & _ & Hkeep3 & Hcount3).
    rewrite Hb2 in Hkeep3. simpl in Hkeep3.
    destruct Hkeep3 as (v3 & Hb3 & Hv3). rewrite Hv3 in Hb3 by by eexists.
    specialize (Hcount3 _ _ Hb2). rewrite Hb2, Hb3 in Hcount3. simpl in Hcount3.
    fold (calls s3) in Hcount3. fold (calls s2) in Hcount3.
    split; [lia|]. intros m repo'. by eapply loadValue_thunk_stored. }
  destruct v1 as [v|].
  - rewrite (loadValue_thunk_stored s1 a o1 thunk v n repo Ho1 Hb1).
    split; [lia|]. split; [by eexists|]. intros r s2 [= <- <-].
    exists v. split; [done|]. split; [lia|]. split; [lia|].
    by apply (Hlater v s1 o1); [| |lia].
  - rewrite (loadValue_thunk_first s1 a o1 thunk n repo Ho1 Hb1).
    split; [lia|]. split.
    { intros [?|[[v w] Hth]]; [lia|]. rewrite Hth. by eexists. }
    intros r s2 Hload.
    destruct (call_thunk thunk (world s1)) as [[v w]|e] eqn:Hth; [|done].
    injection Hload as <- <-. exists v. split; [done|].
    assert (calls (State (<[a := set_value v o1]> (heap s1)) (fs s1) w
                     (trace s1 ++ [EvThunk a])) = S (calls s)) as Hc2.
    { unfold calls in *. simpl.
      rewrite occurrences_app, occurrences_cons, decide_True by done.
      change (occurrences (EvThunk a) []) with 0. lia. }
    split; [done|]. split; [by eexists|].
    apply (Hlater _ _ (set_value v o1));
      [simpl; apply lookup_insert_eq|simpl; by rewrite Hb1|done].
Qed.

End memo.

(** * Further properties of the code *)

(** ** The traversals: what is listed, and in what order *)

Section walk_order.
Variable rel : addr → res (list addr).
Variable h : gmap addr obj.
Variable initial : list addr.
Hypothesis rel_dom : ∀ a ps, rel a = Ok ps → a ∈ dom h.
Hypothesis rel_fuel : ∀ a, rel a ≠ Err OutOfFuel.

Lemma walk_result out :
  walk rel h initial = Ok out →
  NoDup out ∧ ∀ x, x ∈ out ↔ reach rel initial x.
Proof.
  intros Hw.
  eapply (walk_loop_result rel h initial rel_dom rel_fuel); [|apply Hw].
  by apply (walk_inv_initial rel h).
Qed.

(** Whatever is listed had its method called, and the call returned. *)
Lemma walk_loop_answered fuel : ∀ agenda lookup ret out,
  (∀ x, x ∈ ret → is_Ok (rel x)) →
  walk_loop rel fuel agenda lookup ret = Ok out →
  ∀ x, x ∈ out → is_Ok (rel x).
Proof.
  induction fuel as [|fuel IH]; intros agenda lookup ret out Hret; [done|].
  simpl. destruct (list_pop agenda) as [[node agenda']|].
  - destruct (decide (node ∈ lookup)); [by apply IH|].
    destruct (rel node) as [ps|e] eqn:Hrel; [|done]. simpl.
    apply IH. intros x [Hx| ->%list_elem_of_singleton]%elem_of_app; [auto|].
    by eexists.
  - by intros [= <-].
Qed.

(** The loop fails only with the error of a method call on a reachable
    node. *)
Lemma walk_loop_error fuel : ∀ agenda lookup ret e,
  walk_inv rel initial agenda lookup ret →
  walk_loop rel fuel agenda lookup ret = Err e →
  e = OutOfFuel ∨ ∃ x, reach rel initial x ∧ rel x = Err e.
Proof.
  induction fuel as [|fuel IH]; intros agenda lookup ret e Hinv.
  { intros [= <-]. by left. }
  simpl. destruct (list_pop agenda) as [[node agenda']|] eqn:Hpop; [|done].
  apply list_pop_snoc in Hpop. subst agenda.
  destruct (decide (node ∈ lookup)) as [Hin|Hin].
  - apply IH. by eapply (walk_inv_skip rel h).
  - destruct (rel node) as [ps|e'] eqn:Hrel; simpl.
    + apply IH. by apply (walk_inv_visit rel h).
    + intros [= ->]. right. exists node. split; [|done].
      apply (inv_reach _ _ _ _ _ Hinv). right. set_solver.
Qed.

(** The order of discovery.  [first] is the node that must come first;
    every other listed node is a starting node or comes after a node that
    has it among its parents. *)
Definition discovered (ret : list addr) : Prop :=
  ∀ i x, ret !! i = Some x →
    x ∈ initial
    ∨ ∃ j y ps, j < i ∧ ret !! j = Some y ∧ rel y = Ok ps ∧ x ∈ ps.

Definition waiting (agenda ret : list addr) : Prop :=
  ∀ x, x ∈ agenda →
    x ∈ initial ∨ ∃ j y ps, ret !! j = Some y ∧ rel y = Ok ps ∧ x ∈ ps.

Lemma walk_loop_discovered fuel : ∀ agenda lookup ret out,
  discovered ret → waiting agenda ret →
  walk_loop rel fuel agenda lookup ret = Ok out → discovered out.
Proof.
  induction fuel as [|fuel IH]; intros agenda lookup ret out Hd Hw; [done|].
  simpl. destruct (list_pop agenda) as [[node agenda']|] eqn:Hpop.
  - apply list_pop_snoc in Hpop. subst agenda.
    destruct (decide (node ∈ lookup)) as [Hin|Hin].
    { apply IH; [done|]. intros x Hx. apply Hw. set_solver. }
    destruct (rel node) as [ps|e] eqn:Hrel; [|done]. simpl. apply IH.
    + intros i x Hix. destruct (decide (i < length ret)) as [Hlt|Hge].
      * rewrite lookup_app_l in Hix by done.
        destruct (Hd i x Hix) as [?|(j & y & qs & Hj & Hy & Hqs & Hx)]; [by left|].
        right. exists j, y, qs. split; [done|]. split; [|done].
        rewrite lookup_app_l; [done|lia].
      * rewrite lookup_app_r in Hix by lia.
        destruct (i - length ret) as [|k] eqn:Hk; [|by destruct k].
        injection Hix as <-.
        destruct (Hw node) as [?|(j & y & qs & Hy & Hqs & Hx)];
          [set_solver|by left|].
        right. exists j, y, qs. apply lookup_lt_Some in Hy as Hj.
        split; [lia|]. split; [|done]. by rewrite lookup_app_l.
    + intros x [Hx|Hx]%elem_of_app; [|rewrite elem_of_reverse in Hx].
      * destruct (Hw x) as [?|(j & y & qs & Hy & Hqs & Hxq)];
          [set_solver|by left|].
        right. exists j, y, qs. split; [|done].
        apply lookup_lt_Some in Hy as Hj. by rewrite lookup_app_l.
      * right. exists (length ret), node, ps.
        split; [|done].
        by rewrite lookup_app_r, Nat.sub_diag.
  - by intros [= <-].
Qed.

(** The first node listed is the last starting node. *)
Lemma walk_loop_head fuel : ∀ agenda lookup ret out,
  walk_inv rel initial agenda lookup ret →
  (ret = [] → last agenda = last initial) →
  (ret ≠ [] → head ret = last initial) →
  walk_loop rel fuel agenda lookup ret = Ok out →
  head out = last initial.
Proof.
  induction fuel as [|fuel IH]; intros agenda lookup ret out Hinv H0 H1; [done|].
  simpl. destruct (list_pop agenda) as [[node agenda']|] eqn:Hpop.
  - apply list_pop_snoc in Hpop. subst agenda.
    destruct (decide (node ∈ lookup)) as [Hin|Hin].
    + apply IH; [by eapply (walk_inv_skip rel h)| |done].
      intros ->. apply (inv_lookup _ _ _ _ _ Hinv) in Hin.
      by apply elem_of_nil in Hin.
    + destruct (rel node) as [ps|e] eqn:Hrel; [|done]. simpl.
      apply IH; [by apply (walk_inv_visit rel h)| |].
      * intros Hnil. by destruct ret.
      * intros _. destruct ret as [|r ret]; [|by apply H1].
        simpl. rewrite <-H0 by done. by rewrite last_snoc.
  - apply list_pop_nil in Hpop. subst agenda. intros [= <-].
    destruct ret as [|r ret]; [by rewrite <-H0|by apply H1].
Qed.

Lemma walk_discovered out :
  walk rel h initial = Ok out → discovered out ∧ head out = last initial.
Proof.
  intros Hw. split.
  - eapply walk_loop_discovered; [| |apply Hw].
    + by intros i x.
    + intros x Hx. by left.
  - eapply walk_loop_head; [|done|done|apply Hw].
    by apply (walk_inv_initial rel h).
Qed.

Lemma walk_Ok_iff :
  is_Ok (walk rel h initial) ↔ ∀ x, reach rel initial x → is_Ok (rel x).
Proof.
  split.
  - intros [out Hw] x Hx.
    eapply (walk_loop_answered _ _ _ _ out); [|apply Hw|].
    + by intros y ?%elem_of_nil.
    + by apply (walk_result out).
  - intros Hok.
    destruct (walk_correct rel h initial rel_dom rel_fuel Hok) as (out & Hw & _).
    by exists out.
Qed.

Lemma walk_Err e :
  walk rel h initial = Err e → ∃ x, reach rel initial x ∧ rel x = Err e.
Proof.
  intros Hw.
  destruct (walk_loop_error _ _ _ _ e (walk_inv_initial rel h initial rel_dom rel_fuel) Hw)
    as [->|?]; [|done].
  destruct (walk_total rel h initial rel_dom rel_fuel (S (walk_bound rel h initial)))
    as [_ Hne]; [lia|]. done.
Qed.

End walk_order.

Section traversal_extras.

Implicit Types (h : gmap addr obj).

(** The object at [a] is an artifact: it is there and is no [Job]. *)
Definition artifact_at h (a : addr) : bool :=
  match h !! a with
  | Some o =>
      match body o with
      | Job _ _ => false
      | _ => true
      end
  | None => false
  end.

Definition job_at h (a : addr) : bool :=
  match h !! a with
  | Some o =>
      match body o with
      | Job _ _ => true
      | _ => false
      end
  | None => false
  end.

(** The graph alternates as the classes intend: the inputs of a job are
    artifacts, the [parentJob] of a [JobArtifact] is a job. *)
Definition typed_obj h (o : obj) : bool :=
  match body o with
  | Job inputs _ => forallb (artifact_at h) inputs
  | JobArtifact parentJob => job_at h parentJob
  | _ => true
  end.

Definition typed_heap h : Prop := map_Forall (λ _ o, typed_obj h o = true) h.

Lemma parentArtifacts_Ok_artifact h a :
  is_Ok (parentArtifacts h a) → artifact_at h a = true.
Proof.
  intros [ps Hps]. unfold parentArtifacts, artifact_at in *.
  destruct (h !! a) as [o|]; [|done]. by destruct (body o).
Qed.

Lemma parentArtifacts_Err h a e :
  parentArtifacts h a = Err e → e = AttributeError ∨ e = NoSuchObject.
Proof.
  unfold parentArtifacts. destruct (h !! a) as [o|]; [|intros [= <-]; by right].
  destruct (body o); try done; try (intros [= <-]; by left).
  destruct (h !! parentJob) as [j|]; [|intros [= <-]; by right].
  destruct (body j); try done; intros [= <-]; by left.
Qed.

Lemma ancestorArtifacts_listed h initialArts ret :
  ancestorArtifacts h initialArts = Ok ret →
  ∀ a, a ∈ ret → artifact_at h a = true.
Proof.
  intros Hw a Ha. apply parentArtifacts_Ok_artifact.
  apply (walk_Ok_iff _ h initialArts (parentArtifacts_dom h)
           (parentArtifacts_fuel h)); [by exists ret|].
  by apply (walk_result _ h initialArts (parentArtifacts_dom h)
              (parentArtifacts_fuel h) ret Hw).
Qed.

(** X1. When [ancestorArtifacts] returns, its list has no repetition, holds
    exactly the arts reachable along [parentArtifacts] (the starting ones
    among them), and holds no [Job]. *)
Theorem ancestorArtifacts_each_once h initialArts ret :
  ancestorArtifacts h initialArts = Ok ret →
  NoDup ret
  ∧ (∀ a, a ∈ ret ↔ reach (parentArtifacts h) initialArts a)
  ∧ (∀ a, a ∈ initialArts → a ∈ ret)
  ∧ (∀ a, a ∈ ret → artifact_at h a = true).
Proof.
  intros Hw.
  destruct (walk_result _ h initialArts (parentArtifacts_dom h)
              (parentArtifacts_fuel h) ret Hw) as [Hnd Hin].
  split; [done|]. split; [done|]. split.
  - intros a Ha. apply Hin. by constructor.
  - by apply (ancestorArtifacts_listed h initialArts).
Qed.

(** X2. [ancestorArtifacts] returns exactly when [parentArtifacts] returns on
    every art it reaches; otherwise it raises what that method raised on a
    reachable art: [AttributeError] for a [Job] (it has no such method) or
    for a [parentJob] that is no job. *)
Theorem ancestorArtifacts_raises_iff h initialArts :
  (is_Ok (ancestorArtifacts h initialArts) ↔
   ∀ a, reach (parentArtifacts h) initialArts a → is_Ok (parentArtifacts h a))
  ∧ (∀ e, ancestorArtifacts h initialArts = Err e →
       (e = AttributeError ∨ e = NoSuchObject)
       ∧ ∃ a, reach (parentArtifacts h) initialArts a
              ∧ parentArtifacts h a = Err e)
  ∧ (∀ a, a ∈ initialArts → job_at h a = true →
       ancestorArtifacts h initialArts = Err AttributeError
       ∨ ancestorArtifacts h initialArts = Err NoSuchObject).
Proof.
  assert (∀ e, ancestorArtifacts h initialArts = Err e →
       (e = AttributeError ∨ e = NoSuchObject)
       ∧ ∃ a, reach (parentArtifacts h) initialArts a
              ∧ parentArtifacts h a = Err e) as Herr.
  { intros e He.
    destruct (walk_Err _ h initialArts (parentArtifacts_dom h)
                (parentArtifacts_fuel h) e He) as (a & Ha & Hea).
    split; [by eapply parentArtifacts_Err|eauto]. }
  split; [apply walk_Ok_iff; [apply parentArtifacts_dom|apply parentArtifacts_fuel]|].
  split; [done|].
  intros a Ha Hjob.
  destruct (ancestorArtifacts h initialArts) as [ret|e] eqn:Hw.
  - exfalso.
    pose proof (ancestorArtifacts_listed h initialArts ret Hw a) as Hart.
    destruct (walk_result _ h initialArts (parentArtifacts_dom h)
                (parentArtifacts_fuel h) ret Hw) as [_ Hin].
    specialize (Hart (proj2 (Hin a) (reach_init _ _ a Ha))).
    unfold artifact_at, job_at in *.
    destruct (h !! a) as [o|]; [|done]. by destruct (body o).
  - destruct (Herr e eq_refl) as [[->| ->] _]; [by left|by right].
Qed.

(** X3. The order of [ancestors]: the first node listed is the last
    starting node, and every node listed is a starting node or follows a
    node that has it among its parents. *)
Theorem ancestors_discovery_order h initialNodes ret :
  ancestors h initialNodes = Ok ret →
  head ret = last initialNodes
  ∧ ∀ i x, ret !! i = Some x →
      x ∈ initialNodes
      ∨ ∃ j y o, j < i ∧ ret !! j = Some y ∧ h !! y = Some o
                 ∧ x ∈ obj_parents o.
Proof.
  intros Hw.
  destruct (walk_discovered _ h initialNodes (parents_dom h) (parents_fuel h)
              ret Hw) as [Hd Hhead].
  split; [done|]. intros i x Hix.
  destruct (Hd i x Hix) as [?|(j & y & ps & Hj & Hy & Hps & Hx)]; [by left|].
  right. unfold parents in Hps. destruct (h !! y) as [o|] eqn:Ho; [|done].
  injection Hps as <-. by exists j, y, o.
Qed.

Lemma typed_heap_lookup h a o :
  typed_heap h → h !! a = Some o → typed_obj h o = true.
Proof. intros Ht Ho. by apply (Ht a o Ho). Qed.

Lemma reach_parents_typed h initial x :
  typed_heap h → Forall (λ a, artifact_at h a = true) initial →
  reach (parents h) initial x →
  (artifact_at h x = true ∧ reach (parentArtifacts h) initial x)
  ∨ (job_at h x = true
     ∧ ∃ y oy, reach (parentArtifacts h) initial y ∧ h !! y = Some oy
               ∧ body oy = JobArtifact x).
Proof.
  intros Ht Hinit. induction 1 as [a Ha|a ps b _ IH Hps Hb].
  - left. split; [by eapply Forall_forall in Hinit|by constructor].
  - unfold parents in Hps. destruct (h !! a) as [o|] eqn:Ho; [|done].
    injection Hps as <-. pose proof (typed_heap_lookup _ _ _ Ht Ho) as Hto.
    unfold typed_obj, obj_parents in *.
    destruct IH as [[Hart Hra]|(Hjob & y & oy & Hry & Hoy & Hby)].
    + unfold artifact_at in Hart. rewrite Ho in Hart.
      destruct (body o) eqn:Hbo; try done; try by apply elem_of_nil in Hb.
      apply list_elem_of_singleton in Hb as ->. right. split; [done|].
      by exists a, o.
    + unfold job_at in Hjob. rewrite Ho in Hjob.
      destruct (body o) eqn:Hbo; try done. left.
      rewrite forallb_forall in Hto. split.
      * apply Hto. by apply list_elem_of_In.
      * apply (reach_step _ _ y inputs); [done| |done].
        unfold parentArtifacts. by rewrite Hoy, Hby, Ho, Hbo.
Qed.

Lemma reach_parentArtifacts_parents h initial x :
  reach (parentArtifacts h) initial x → reach (parents h) initial x.
Proof.
  induction 1 as [a Ha|a ps b _ IH Hps Hb]; [by constructor|].
  unfold parentArtifacts in Hps. destruct (h !! a) as [o|] eqn:Ho; [|done].
  destruct (body o) eqn:Hbo; try done;
    try (injection Hps as <-; by apply elem_of_nil in Hb).
  destruct (h !! parentJob) as [j|] eqn:Hj; [|done].
  destruct (body j) eqn:Hbj; try done. injection Hps as <-.
  apply (reach_step _ _ parentJob inputs b).
  - apply (reach_step _ _ a [parentJob]); [done| |by left].
    unfold parents, obj_parents. by rewrite Ho, Hbo.
  - unfold parents, obj_parents. by rewrite Hj, Hbj.
  - done.
Qed.

(** X4. On a graph that alternates as the classes intend, started from
    artifacts, both traversals return, and [ancestorArtifacts] lists exactly
    the artifacts that [ancestors] lists. *)
Theorem ancestorArtifacts_of_ancestors h initial :
  typed_heap h → Forall (λ a, artifact_at h a = true) initial →
  ∃ arts nodes,
    ancestorArtifacts h initial = Ok arts
    ∧ ancestors h initial = Ok nodes
    ∧ ∀ a, a ∈ arts ↔ a ∈ nodes ∧ artifact_at h a = true.
Proof.
  intros Ht Hinit.
  destruct (walk_correct (parents h) h initial (parents_dom h) (parents_fuel h))
    as (nodes & Hnodes & _ & Hin).
  { intros x Hx. unfold parents.
    destruct (reach_parents_typed h initial x Ht Hinit Hx) as [[Ha _]|[Hj _]].
    - unfold artifact_at in Ha. destruct (h !! x); [by eexists|done].
    - unfold job_at in Hj. destruct (h !! x); [by eexists|done]. }
  destruct (walk_correct (parentArtifacts h) h initial (parentArtifacts_dom h)
              (parentArtifacts_fuel h)) as (arts & Harts & _ & Hia).
  { intros x Hx.
    destruct (reach_parents_typed h initial x Ht Hinit
                (reach_parentArtifacts_parents _ _ _ Hx)) as [[Ha _]|[Hj _]].
    - unfold artifact_at in Ha. unfold parentArtifacts.
      destruct (h !! x) as [o|] eqn:Ho; [|done].
      pose proof (typed_heap_lookup _ _ _ Ht Ho) as Hto. unfold typed_obj in Hto.
      destruct (body o); try done; try by eexists.
      unfold job_at in Hto. destruct (h !! parentJob) as [j|]; [|done].
      destruct (body j); try done. by eexists.
    - exfalso. clear Hnodes Hin. induction Hx as [a Ha|a ps b _ _ Hps Hb].
      + eapply Forall_forall in Hinit; [|done]. unfold artifact_at, job_at in *.
        destruct (h !! a) as [o|]; [|done]. by destruct (body o).
      + unfold parentArtifacts in Hps. destruct (h !! a) as [o|] eqn:Ho; [|done].
        destruct (body o) eqn:Hbo; try done;
          try (injection Hps as <-; by apply elem_of_nil in Hb).
        destruct (h !! parentJob) as [j|] eqn:Hjp; [|done].
        destruct (body j) eqn:Hbj; try done. injection Hps as <-.
        pose proof (typed_heap_lookup _ _ _ Ht Hjp) as Hto.
        unfold typed_obj in Hto. rewrite Hbj in Hto.
        rewrite forallb_forall in Hto. apply list_elem_of_In, Hto in Hb.
        unfold artifact_at, job_at in *. destruct (h !! b) as [ob|]; [|done].
        by destruct (body ob). }
  exists arts, nodes. split; [done|]. split; [done|]. intros a.
  rewrite Hia, Hin. split.
  - intros Ha. split; [by apply reach_parentArtifacts_parents|].
    destruct (reach_parents_typed h initial a Ht Hinit
                (reach_parentArtifacts_parents _ _ _ Ha)) as [[? _]|[Hj _]]; [done|].
    exfalso. clear Hnodes Hin Harts Hia.
    induction Ha as [a Ha|a ps b _ _ Hps Hb].
    + eapply Forall_forall in Hinit; [|done]. unfold artifact_at, job_at in *.
      destruct (h !! a) as [o|]; [|done]. by destruct (body o).
    + unfold parentArtifacts in Hps. destruct (h !! a) as [o|] eqn:Ho; [|done].
      destruct (body o) eqn:Hbo; try done;
        try (injection Hps as <-; by apply elem_of_nil in Hb).
      destruct (h !! parentJob) as [j|] eqn:Hjp; [|done].
      destruct (body j) eqn:Hbj; try done. injection Hps as <-.
      pose proof (typed_heap_lookup _ _ _ Ht Hjp) as Hto.
      unfold typed_obj in Hto. rewrite Hbj in Hto.
      rewrite forallb_forall in Hto. apply list_elem_of_In, Hto in Hb.
      unfold artifact_at, job_at in *. destruct (h !! b) as [ob|]; [|done].
      by destruct (body ob).
  - intros [Ha Hart].
    destruct (reach_parents_typed h initial a Ht Hinit Ha) as [[_ ?]|[Hj _]]; [done|].
    unfold artifact_at, job_at in *. destruct (h !! a) as [o|]; [|done].
    by destruct (body o).
Qed.

End traversal_extras.

(** ** Hashing: cycles, checks that pass, what each artifact hashes *)

Section hash_extras.
Context `{Ext : Externals}.

Implicit Types (h : gmap addr obj) (s : state).

Lemma res_Ok_or_Err {A} (r : res A) : is_Ok r ∨ is_Err r.
Proof. destruct r; [left|right]; by eexists. Qed.

Lemma secHash_stores n a s d s' :
  secHash n a s = Ok (d, s') → stored (heap s') a = Some d.
Proof.
  destruct n as [|n]; [done|]. simpl. intros Hrun.
  apply bind_Ok in Hrun as (o & ? & [Ho ->]%get_obj_Ok & Hrun).
  destruct (_secHash o) as [d0|] eqn:Hd0.
  - apply ret_Ok in Hrun as [-> ->]. unfold stored. by rewrite Ho.
  - apply bind_Ok in Hrun as (d1 & s1 & Hcomp & Hrun).
    apply bind_Ok in Hrun as ([] & s2 & Hmod & Hrun).
    apply ret_Ok in Hrun as [-> ->].
    apply modify_obj_Ok in Hmod as (o1 & Ho1 & ->).
    unfold stored. simpl. by rewrite lookup_insert_eq.
Qed.

(** X5. On a cycle of nodes that store no hash (a set of such nodes each of
    which has one of the set among its parents), [secHash] returns for no
    budget, and neither do [checkSecHash] and [checkAllSecHash]: the
    recursion never ends. *)
Theorem secHash_on_cycle_raises s (C : addr → Prop) a n :
  trap (heap s) C → C a →
  is_Err (secHash n a s)
  ∧ is_Err (checkSecHash n a s)
  ∧ is_Err (checkAllSecHash n a s).
Proof.
  intros Htrap Ha.
  assert (∀ k, is_Err (secHash k a s)) as Hsec.
  { intros k. destruct (res_Ok_or_Err (secHash k a s)) as [[[d s'] Hrun]|?]; [|done].
    by destruct (secHash_avoids _ _ _ _ _ C Hrun Htrap). }
  assert (is_Err (checkSecHash n a s)) as Hcheck.
  { destruct (Hsec (S n)) as [e He]. exists e.
    unfold checkSecHash, bind. by rewrite He. }
  split; [done|]. split; [done|].
  unfold checkAllSecHash, bind, lift.
  destruct (ancestors (heap s) [a]) as [nodes|e] eqn:Hnodes; [|by eexists].
  destruct (walk_discovered _ _ _ (parents_dom (heap s)) (parents_fuel (heap s))
              nodes Hnodes) as [_ Hhead].
  destruct nodes as [|b nodes]; [done|]. injection Hhead as ->.
  destruct Hcheck as [e He]. exists e. simpl. unfold bind. by rewrite He.
Qed.

Lemma for_each_checkSecHash_stores n l : ∀ s s',
  for_each (checkSecHash n) l s = Ok (tt, s') →
  ∀ b, b ∈ l → is_Some (stored (heap s') b).
Proof.
  induction l as [|a l IH]; intros s s'; [by intros _ b ?%elem_of_nil|].
  simpl. intros Hrun.
  apply bind_Ok in Hrun as ([] & s1 & Hchk & Hrest).
  intros b [->|Hb]%elem_of_cons; [|by eapply IH].
  unfold checkSecHash in Hchk.
  apply bind_Ok in Hchk as (d & s0 & Hsec & Hchk).
  apply secHash_stores in Hsec.
  assert (evolves s0 s1) as Hev1.
  { revert Hchk. apply evolving_bind; [apply evolving_computeSecHash|].
    intros d'. case_decide; [apply evolving_ret|apply evolving_raise]. }
  exists d. eapply evolves_stored; [|by eapply evolves_stored].
  revert Hrest. apply evolving_for_each. intros x. apply evolving_checkSecHash.
Qed.

Lemma parents_heap_le h h' a : heap_le h h' → parents h' a = parents h a.
Proof.
  intros Hle. unfold parents. specialize (Hle a).
  destruct Hle as [o o' (_ & Hb & _)|]; [|done].
  unfold obj_parents. by rewrite Hb.
Qed.

Lemma reach_heap_le h h' initial x :
  heap_le h h' → reach (parents h') initial x → reach (parents h) initial x.
Proof.
  intros Hle. induction 1 as [a Ha|a ps b _ IH Hps Hb]; [by constructor|].
  rewrite (parents_heap_le _ _ _ Hle) in Hps. by eapply reach_step.
Qed.

(** X6. On an acyclic heap with its files in place, [checkAllSecHash]
    returns when no reachable node stores a hash yet (a graph as built);
    and whenever it returns, every reachable node stores its hash
    afterwards and a second [checkAllSecHash] returns too. *)
Theorem checkAllSecHash_passes_again s self rk n :
  wf_heap (fs s) (heap s) rk → is_Some (heap s !! self) → rk self ≤ n →
  ((∀ b, reach (parents (heap s)) [self] b → stored (heap s) b = None) →
   is_Ok (checkAllSecHash n self s))
  ∧ ∀ s', checkAllSecHash n self s = Ok (tt, s') →
      (∀ b, reach (parents (heap s)) [self] b → is_Some (stored (heap s') b))
      ∧ is_Ok (checkAllSecHash n self s').
Proof.
  intros Hwf Hself Hrk.
  assert (∀ t, wf_heap (fs t) (heap t) rk → is_Some (heap t !! self) →
            ∃ nodes, checkAllSecHash n self t = for_each (checkSecHash n) nodes t
              ∧ (∀ b, b ∈ nodes ↔ reach (parents (heap t)) [self] b)
              ∧ ∀ b, b ∈ nodes → is_Some (heap t !! b) ∧ rk b ≤ n) as Hshape.
  { intros t Hwft Hselft.
    assert (∀ b, reach (parents (heap t)) [self] b →
              is_Some (heap t !! b) ∧ rk b ≤ n) as Hreach.
    { intros b Hb. destruct (reach_rank _ _ _ _ _ Hwft Hselft Hb).
      split; [done|lia]. }
    destruct (ancestors_reach (heap t) [self]) as (nodes & Hnodes & _ & Hin).
    { intros b Hb. by apply Hreach. }
    exists nodes. split; [|split; [done|]].
    - unfold checkAllSecHash, bind, lift. by rewrite Hnodes.
    - intros b Hb. by apply Hreach, Hin. }
  destruct (Hshape s Hwf Hself) as (nodes & -> & Hin & Hnodes).
  split.
  - intros Hfresh.
    destruct (for_each_checkSecHash_spec n rk nodes s Hwf Hnodes)
      as [[_ (s' & Hrun & _)]|(b & Hb & (d & d' & Hst & _) & _)]; [by eexists|].
    rewrite Hfresh in Hst; [done|by apply Hin].
  - intros s' Hrun. split.
    { intros b Hb. eapply for_each_checkSecHash_stores; [done|by apply Hin]. }
    destruct (for_each_checkSecHash_spec n rk nodes s Hwf Hnodes)
      as [[Hnd (s1 & Hrun1 & Hstep)]|(b & _ & _ & Hrun1)]; [|congruence].
    assert (s1 = s') as -> by congruence.
    pose proof (wf_hash_step _ _ _ Hstep Hwf) as Hwf'.
    destruct Hstep as (Hc & Hf & _).
    assert (is_Some (heap s' !! self)) as Hself'.
    { destruct Hself as [o Ho].
      destruct (heap_le_lookup _ _ _ _ (proj1 Hc) Ho) as (o' & -> & _). eauto. }
    destruct (Hshape s' Hwf' Hself') as (nodes' & -> & Hin' & Hnodes').
    destruct (for_each_checkSecHash_spec n rk nodes' s' Hwf' Hnodes')
      as [[_ (s2 & Hrun2 & _)]|(b & Hb & Hd & _)]; [by eexists|].
    exfalso. apply (Hnd b).
    + apply Hin. apply (reach_heap_le _ (heap s')); [apply Hc|by apply Hin'].
    + rewrite Hf in Hd. by apply (drift_stable _ _ _ _ Hc).
Qed.

End hash_extras.

Section leaf_hashes.
Context `{Ext : Externals}.

Implicit Types (h : gmap addr obj) (s : state).

Lemma computeSecHash_leaf n a s o :
  heap s !! a = Some o →
  computeSecHash n a s =
  match body o with
  | ThunkArtifact thunk shouldCache _ =>
      Ok (secHashObject (VTuple [VStr (getHash (cls o)); VStr (getHash thunk);
                                 VBool shouldCache]),
          State (heap s) (fs s) (world s) (trace s ++ [EvCompute a]))
  | FixedDirArtifact location =>
      Ok (secHashObject (VTuple [VStr (getHash (cls o)); VStr location]),
          State (heap s) (fs s) (world s) (trace s ++ [EvCompute a]))
  | FixedFileArtifact location =>
      match fs s !! location with
      | Some (File bytes) =>
          Ok (secHashObject
                (VTuple [VStr (getHash (cls o)); VStr (hashBytes bytes)]),
              State (heap s) (fs s) (world s) (trace s ++ [EvCompute a]))
      | _ => Err IOError
      end
  | _ => computeSecHash n a s
  end.
Proof.
  intros Ho. unfold computeSecHash, computeSecHash_with, bind, get_obj.
  rewrite Ho. simpl. destruct (body o); try done.
  unfold secHashFile. simpl. by destruct (fs s !! location) as [[?|]|].
Qed.

Lemma secHash_unstored n a s o :
  heap s !! a = Some o → _secHash o = None →
  secHash (S n) a s =
  match computeSecHash n a s with
  | Ok (d, s1) =>
      match heap s1 !! a with
      | Some o1 => Ok (d, set_heap (<[a := set_secHash d o1]> (heap s1)) s1)
      | None => Err NoSuchObject
      end
  | Err e => Err e
  end.
Proof.
  intros Ho Hd. cbn [secHash]. unfold bind at 1. unfold get_obj at 1.
  rewrite Ho, Hd. unfold computeSecHash. unfold bind at 1.
  destruct (computeSecHash_with (secHash n) a s) as [[d s1]|e]; [|done].
  unfold bind, modify_obj, bind, get_obj. by destruct (heap s1 !! a).
Qed.

(** X7. The hash of a fixed directory comes from the class and the location
    alone: [computeSecHash] returns in every state, whatever the filesystem
    holds, with the same digest for the same class hash and location; and
    when [persist.secHashObject] has no collisions, equal digests mean equal
    class hashes and equal locations. *)
Theorem fixedDir_hash_location_only s1 s2 a1 a2 o1 o2 location1 location2 n1 n2 :
  heap s1 !! a1 = Some o1 → body o1 = FixedDirArtifact location1 →
  heap s2 !! a2 = Some o2 → body o2 = FixedDirArtifact location2 →
  ∃ d1 d2 s1' s2',
    computeSecHash n1 a1 s1 = Ok (d1, s1')
    ∧ computeSecHash n2 a2 s2 = Ok (d2, s2')
    ∧ (getHash (cls o1) = getHash (cls o2) → location1 = location2 → d1 = d2)
    ∧ (Inj (=) (=) secHashObject → d1 = d2 →
       getHash (cls o1) = getHash (cls o2) ∧ location1 = location2).
Proof.
  intros Ho1 Hb1 Ho2 Hb2.
  rewrite (computeSecHash_leaf n1 a1 s1 o1 Ho1), Hb1.
  rewrite (computeSecHash_leaf n2 a2 s2 o2 Ho2), Hb2.
  eexists _, _, _, _. split; [done|]. split; [done|]. split.
  - by intros -> ->.
  - intros Hinj Heq. apply Hinj in Heq. by injection Heq.
Qed.

(** X8. The hash of a fixed file comes from the class and the bytes of the
    file, not from where it is: with files at both locations,
    [computeSecHash] returns, with the same digest for the same class hash
    and the same hash of bytes; and when [persist.secHashObject] has no
    collisions, equal digests mean equal class hashes and equal hashes of
    bytes. *)
Theorem fixedFile_hash_contents_only s1 s2 a1 a2 o1 o2 location1 location2
    bytes1 bytes2 n1 n2 :
  heap s1 !! a1 = Some o1 → body o1 = FixedFileArtifact location1 →
  heap s2 !! a2 = Some o2 → body o2 = FixedFileArtifact location2 →
  fs s1 !! location1 = Some (File bytes1) →
  fs s2 !! location2 = Some (File bytes2) →
  ∃ d1 d2 s1' s2',
    computeSecHash n1 a1 s1 = Ok (d1, s1')
    ∧ computeSecHash n2 a2 s2 = Ok (d2, s2')
    ∧ (getHash (cls o1) = getHash (cls o2) →
       hashBytes bytes1 = hashBytes bytes2 → d1 = d2)
    ∧ (Inj (=) (=) secHashObject → d1 = d2 →
       getHash (cls o1) = getHash (cls o2)
       ∧ hashBytes bytes1 = hashBytes bytes2).
Proof.
  intros Ho1 Hb1 Ho2 Hb2 Hf1 Hf2.
  rewrite (computeSecHash_leaf n1 a1 s1 o1 Ho1), Hb1, Hf1.
  rewrite (computeSecHash_leaf n2 a2 s2 o2 Ho2), Hb2, Hf2.
  eexists _, _, _, _. split; [done|]. split; [done|]. split.
  - by intros -> ->.
  - intros Hinj Heq. apply Hinj in Heq. by injection Heq.
Qed.

(** X9. A fixed file whose location holds no file (nothing, or a
    directory): [computeSecHash] raises [IOError]; so does [secHash] while no
    hash is stored; once one is stored [secHash] still returns it, and
    [checkSecHash] raises [IOError], not [HashChanged]. *)
Theorem fixedFile_missing_raises s a o location n :
  heap s !! a = Some o → body o = FixedFileArtifact location →
  (∀ bytes, fs s !! location ≠ Some (File bytes)) →
  computeSecHash n a s = Err IOError
  ∧ checkSecHash n a s = Err IOError
  ∧ match _secHash o with
    | None => secHash (S n) a s = Err IOError
    | Some d => secHash (S n) a s = Ok (d, s)
    end.
Proof.
  intros Ho Hb Hf.
  assert (∀ t k, heap t = heap s → fs t = fs s →
            computeSecHash k a t = Err IOError) as Hcomp.
  { intros t k Hh Hfs. rewrite (computeSecHash_leaf k a t o), Hb, Hfs.
    - destruct (fs s !! location) as [[bytes|]|] eqn:Hl; try done.
      by destruct (Hf bytes).
    - by rewrite Hh. }
  split; [by apply Hcomp|].
  destruct (_secHash o) as [d|] eqn:Hd.
  - rewrite (secHash_stored n s a o d Ho Hd). split; [|done].
    unfold checkSecHash. unfold bind at 1.
    rewrite (secHash_stored n s a o d Ho Hd). unfold bind.
    by rewrite Hcomp.
  - assert (secHash (S n) a s = Err IOError) as Hsec.
    { rewrite (secHash_unstored n a s o Ho Hd).
      by rewrite (Hcomp s n eq_refl eq_refl). }
    split; [|done]. unfold checkSecHash, bind. by rewrite Hsec.
Qed.

(** X10. A change of a fixed file after its hash was stored is found by
    [checkSecHash]: it returns when the recomputed digest is the stored one
    and raises [HashChanged] otherwise; when [persist.secHashObject] has no
    collisions, it raises exactly when the hash of the bytes changed. *)
Theorem fixedFile_change_detected s a o location bytes1 bytes2 fsys n m d s1 :
  heap s !! a = Some o → body o = FixedFileArtifact location →
  _secHash o = None →
  fs s !! location = Some (File bytes1) →
  secHash (S n) a s = Ok (d, s1) →
  fsys !! location = Some (File bytes2) →
  let s2 := set_fs fsys s1 in
  (is_Ok (checkSecHash m a s2) ∨ checkSecHash m a s2 = Err (HashChanged a))
  ∧ (hashBytes bytes1 = hashBytes bytes2 → is_Ok (checkSecHash m a s2))
  ∧ (Inj (=) (=) secHashObject → hashBytes bytes1 ≠ hashBytes bytes2 →
     checkSecHash m a s2 = Err (HashChanged a)).
Proof.
  intros Ho Hb Hd0 Hf1 Hrun Hf2 s2.
  assert (d = secHashObject (VTuple [VStr (getHash (cls o));
                                     VStr (hashBytes bytes1)])
          ∧ s1 = State (<[a := set_secHash d o]> (heap s)) (fs s) (world s)
                   (trace s ++ [EvCompute a])) as [Hd Hs1].
  { rewrite (secHash_unstored n a s o Ho Hd0) in Hrun.
    rewrite (computeSecHash_leaf n a s o Ho), Hb, Hf1 in Hrun.
    simpl in Hrun. rewrite Ho in Hrun. by injection Hrun as <- <-. }
  assert (heap s2 !! a = Some (set_secHash d o)) as Ho2.
  { unfold s2. rewrite Hs1. simpl. apply lookup_insert_eq. }
  assert (fs s2 !! location = Some (File bytes2)) as Hf2' by done.
  assert (checkSecHash m a s2 =
          (if decide (d = secHashObject (VTuple [VStr (getHash (cls o));
                                                 VStr (hashBytes bytes2)]))
           then ret tt else raise (HashChanged a))
            (State (heap s2) (fs s2) (world s2) (trace s2 ++ [EvCompute a])))
    as ->.
  { clearbody s2. unfold checkSecHash. unfold bind at 1.
    rewrite (secHash_stored m s2 a _ d Ho2 eq_refl). unfold bind at 1.
    rewrite (computeSecHash_leaf m a s2 _ Ho2). simpl. by rewrite Hb, Hf2'. }
  split; [case_decide; [left; by eexists|by right]|]. split.
  - intros Heq. rewrite decide_True; [by eexists|]. by rewrite Hd, Heq.
  - intros Hinj Hne. rewrite decide_False; [done|].
    rewrite Hd. intros Heq%Hinj. injection Heq as Heq. done.
Qed.

End leaf_hashes.

Section job_extras.
Context `{Ext : Externals}.

Implicit Types (h : gmap addr obj) (s : state).

Lemma Forall2_same_values {A B} (P Q : A → B → Prop) l1 l2 k1 k2 :
  (∀ a d d', P a d → P a d' → d = d') →
  (∀ a d d', Q a d → Q a d' → d = d') →
  Forall2 P l1 k1 → Forall2 Q l2 k2 →
  k1 = k2 ↔ Forall2 (λ a b, ∃ d, P a d ∧ Q b d) l1 l2.
Proof.
  intros HP HQ H1. revert l2 k2.
  induction H1 as [|a d l1 k1 Ha _ IH]; intros l2 k2 H2.
  - inversion H2; subst.
    + split; [constructor|done].
    + split; [done|inversion 1].
  - inversion H2 as [|b d' l2' k2' Hb Hk2]; subst.
    + split; [done|inversion 1].
    + split.
      * intros [= <- <-]. constructor; [eauto|]. by apply (IH l2' k1).
      * inversion 1 as [|? ? ? ? (e & Hae & Hbe) Hrest]; subst.
        rewrite (HP _ _ _ Ha Hae), (HQ _ _ _ Hb Hbe). f_equal.
        by apply (IH l2' k2').
Qed.

Lemma VStr_fmap_inj (ds1 ds2 : list string) :
  VStr <$> ds1 = VStr <$> ds2 → ds1 = ds2.
Proof.
  revert ds2. induction ds1 as [|d ds1 IH]; intros [|d' ds2]; try done.
  simpl. intros [= -> Hds]. f_equal. by apply IH.
Qed.

(** X11. Inputs replaced after a job's hash was stored are found by
    [checkSecHash]: on an acyclic heap it returns when the new inputs have,
    position by position, the identity hashes the old ones had, and, when
    [persist.secHashObject] has no collisions, raises [HashChanged] of the
    job otherwise. *)
Theorem job_inputs_change_detected s j o inputs name n d s1 inputs' s2 rk m :
  heap s !! j = Some o → body o = Job inputs name → _secHash o = None →
  secHash n j s = Ok (d, s1) →
  set_inputs j inputs' s1 = Ok (tt, s2) →
  wf_heap (fs s2) (heap s2) rk → rk j ≤ m →
  let same :=
    Forall2 (λ a b, ∃ e, identityHash s a e ∧ identityHash s2 b e)
      inputs inputs' in
  (same → is_Ok (checkSecHash m j s2))
  ∧ (Inj (=) (=) secHashObject → ¬ same →
     checkSecHash m j s2 = Err (HashChanged j)).
Proof.
  intros Ho Hb Hd0 Hrun Hset Hwf Hrk same.
  pose proof (secHash_stores _ _ _ _ _ Hrun) as Hst1.
  destruct (secHash_sound _ _ _ _ _ Hrun) as [Hid ([Hle _] & _)].
  assert (recomputed (fs s) (heap s) j d) as Hre.
  { apply idhash_unstored; [|done]. unfold stored. by rewrite Ho. }
  destruct (job_recomputed _ _ _ _ _ _ _ Ho Hb Hre) as (ds & Hds & Hd).
  destruct (heap_le_lookup _ _ _ _ Hle Ho) as (o1 & Ho1 & Hcls & Hbody & _).
  unfold set_inputs in Hset.
  apply bind_Ok in Hset as (o1' & ? & [Ho1' ->]%get_obj_Ok & Hset).
  assert (o1' = o1) as -> by congruence. rewrite <-Hbody, Hb in Hset.
  apply modify_obj_Ok in Hset as (o1'' & Ho1'' & ->).
  assert (o1'' = o1) as -> by congruence. clear Ho1''.
  set (o2 := Obj (cls o1) (_secHash o1) (Job inputs' name)) in *.
  set (s2 := set_heap (<[j := o2]> (heap s1)) s1) in *.
  assert (heap s2 !! j = Some o2) as Ho2 by apply lookup_insert_eq.
  assert (stored (heap s2) j = Some d) as Hst2.
  { unfold stored in *. rewrite Ho2. by rewrite Ho1 in Hst1. }
  destruct (computeSecHash_total s2 rk m j Hwf) as (d' & s3 & Hcomp);
    [by eexists|done|].
  apply computeSecHash_sound in Hcomp as [Hre2 _].
  destruct (job_recomputed _ _ _ _ inputs' name _ Ho2 eq_refl Hre2)
    as (ds' & Hds' & Hd').
  assert (ds = ds' ↔ same) as Hsame.
  { unfold same.
    rewrite (Forall2_same_values (idhash (fs s) (heap s))
               (idhash (fs s2) (heap s2)) inputs inputs' ds ds');
      [|apply idhash_det|apply idhash_det|done..].
    split; intros H; (eapply Forall2_impl; [exact H|]);
      intros a b (e & Ha & Hb'); exists e;
      by rewrite ?identityHash_idhash in *. }
  assert (drift (fs s2) (heap s2) j ↔ d ≠ d') as Hdrift.
  { split.
    - intros (e & e' & He & He' & Hne). rewrite Hst2 in He. injection He as <-.
      by rewrite (recomputed_det _ _ _ _ _ Hre2 He').
    - intros Hne. by exists d, d'. }
  destruct (checkSecHash_spec m s2 rk j Hwf) as [[Hnd (s4 & Hchk & _)]|[Hdr Hchk]];
    [by eexists|done|..].
  - split; [intros _; by eexists|]. intros Hinj Hns. exfalso.
    apply Hnd, Hdrift. intros Heq. apply Hns, Hsame.
    rewrite Hd, Hd' in Heq. apply Hinj in Heq. injection Heq as _ Heq.
    by apply VStr_fmap_inj.
  - split; [|done]. intros Hs. exfalso. apply Hdrift in Hdr. apply Hdr.
    apply Hsame in Hs. rewrite Hd, Hd', Hs. simpl. by rewrite Hcls.
Qed.

(** X12. Two calls of [newOutput] on a job give two distinct new objects,
    each with the job as its only parent, and the same identity hash (so
    the same place in the cache). *)
Theorem newOutput_twice_same_hash s j a1 s1 a2 s2 :
  newOutput j s = Ok (a1, s1) →
  newOutput j s1 = Ok (a2, s2) →
  a1 ≠ a2
  ∧ heap s !! a1 = None ∧ heap s1 !! a2 = None
  ∧ parents (heap s2) a1 = Ok [j] ∧ parents (heap s2) a2 = Ok [j]
  ∧ ∀ n m d1 d2 s3 s4,
      secHash n a1 s2 = Ok (d1, s3) → secHash m a2 s3 = Ok (d2, s4) →
      d1 = d2.
Proof.
  intros Hn1 Hn2. unfold newOutput in *.
  apply bind_Ok in Hn1 as (o & ? & [Ho ->]%get_obj_Ok & Hn1).
  apply bind_Ok in Hn2 as (o' & ? & [Ho' ->]%get_obj_Ok & Hn2).
  destruct (body o); try done. destruct (body o'); try done.
  unfold new_JobArtifact, new_obj in *.
  injection Hn1 as <- <-. injection Hn2 as <- <-. simpl.
  set (a1 := fresh (dom (heap s))).
  set (art := Obj "JobArtifact" None (JobArtifact j)).
  set (h1 := <[a1 := art]> (heap s)).
  set (a2 := fresh (dom h1)).
  assert (heap s !! a1 = None) as Hf1.
  { apply not_elem_of_dom, is_fresh. }
  assert (h1 !! a2 = None) as Hf2.
  { apply not_elem_of_dom, is_fresh. }
  assert (a1 ≠ a2) as Hne.
  { intros Heq. rewrite <-Heq in Hf2. unfold h1 in Hf2.
    by rewrite lookup_insert_eq in Hf2. }
  split; [done|]. split; [done|]. split; [done|].
  assert (<[a2 := art]> h1 !! a1 = Some art) as Hl1.
  { rewrite lookup_insert_ne by done. apply lookup_insert_eq. }
  assert (<[a2 := art]> h1 !! a2 = Some art) as Hl2 by apply lookup_insert_eq.
  split; [unfold parents; by rewrite Hl1|].
  split; [unfold parents; by rewrite Hl2|].
  intros n m d1 d2 s3 s4 Hr1 Hr2.
  destruct (secHash_sound _ _ _ _ _ Hr1) as [Hid1 (Hc & Hf & _)].
  destruct (secHash_sound _ _ _ _ _ Hr2) as [Hid2 _].
  rewrite Hf in Hid2. apply (idhash_back _ _ _ _ _ Hc) in Hid2.
  simpl in *.
  apply idhash_unstored in Hid1; [|unfold stored; by rewrite Hl1].
  apply idhash_unstored in Hid2; [|unfold stored; by rewrite Hl2].
  destruct Hid1 as (o1 & k1 & Ho1 & Hk1). destruct Hid2 as (o2 & k2 & Ho2 & Hk2).
  rewrite Hl1 in Ho1. rewrite Hl2 in Ho2.
  injection Ho1 as <-. injection Ho2 as <-.
  unfold cval_with in Hk1, Hk2. simpl in Hk1, Hk2.
  destruct (hval k1 _ _ j) as [e1|] eqn:He1; [|done].
  destruct (hval k2 _ _ j) as [e2|] eqn:He2; [|done].
  simpl in *. injection Hk1 as <-. injection Hk2 as <-.
  assert (e1 = e2) as ->; [|done].
  eapply idhash_det; by eexists.
Qed.

End job_extras.

(** ** What the methods leave alone *)

Section keeping.
Context `{Ext : Externals}.

Implicit Types (h : gmap addr obj) (s : state).

(** [R], a relation between the state before and after, that holds of
    doing nothing, composes, and holds of the hashing methods. *)
Variable R : state → state → Prop.
Hypothesis R_refl : ∀ s, R s s.
Hypothesis R_trans : ∀ s1 s2 s3, R s1 s2 → R s2 s3 → R s1 s3.
Hypothesis R_hash : ∀ s s', hash_step s s' → R s s'.

Definition keeping {A} (m : M A) : Prop :=
  ∀ s r s', m s = Ok (r, s') → R s s'.

Lemma keeping_ret {A} (a : A) : keeping (ret a).
Proof. intros s r s' [_ ->]%ret_Ok. apply R_refl. Qed.

Lemma keeping_raise {A} e : keeping (raise (A:=A) e).
Proof. by intros s r s'. Qed.

Lemma keeping_bind {A B} (m : M A) (f : A → M B) :
  keeping m → (∀ a, keeping (f a)) → keeping (bind m f).
Proof.
  intros Hm Hf s r s' (a & s1 & H1 & H2)%bind_Ok.
  eapply R_trans; [by eapply Hm|by eapply Hf].
Qed.

Lemma keeping_get_obj a : keeping (get_obj a).
Proof. intros s r s' [_ ->]%get_obj_Ok. apply R_refl. Qed.

Lemma keeping_read {A} (f : state → res A) : keeping (λ s, lift (f s) s).
Proof.
  intros s r s'. unfold lift. destruct (f s); [|done].
  intros [= _ <-]. apply R_refl.
Qed.

Lemma keeping_path_exists p : keeping (path_exists p).
Proof. intros s r s' [= _ <-]. apply R_refl. Qed.

Lemma keeping_loadPickle p : keeping (loadPickle p).
Proof.
  intros s r s'. unfold loadPickle. destruct (fs s !! p) as [[bytes|]|]; try done.
  destruct (unpickle bytes); [|done]. intros [= _ <-]. apply R_refl.
Qed.

Lemma keeping_for_each {A} (f : A → M unit) l :
  (∀ x, keeping (f x)) → keeping (for_each f l).
Proof.
  intros Hf. induction l as [|x l IH]; simpl.
  - apply keeping_ret.
  - apply keeping_bind; [apply Hf|]. by intros _.
Qed.

Lemma keeping_list_comp {A B} (f : A → M B) l :
  (∀ x, keeping (f x)) → keeping (list_comp f l).
Proof.
  intros Hf. induction l as [|x l IH]; simpl.
  - apply keeping_ret.
  - apply keeping_bind; [apply Hf|]. intros y.
    apply keeping_bind; [done|]. intros ys. apply keeping_ret.
Qed.

Lemma keeping_forget {A} (m : M A) : keeping m → keeping (forget m).
Proof. intros Hm. apply keeping_bind; [done|]. intros _. apply keeping_ret. Qed.

Lemma keeping_secHash n a : keeping (secHash n a).
Proof. intros s d s' Hrun. by apply R_hash, (secHash_sound _ _ _ _ _ Hrun). Qed.

Lemma keeping_computeSecHash n a : keeping (computeSecHash n a).
Proof.
  intros s d s' Hrun. by apply R_hash, (computeSecHash_sound _ _ _ _ _ Hrun).
Qed.

Lemma keeping_checkSecHash n a : keeping (checkSecHash n a).
Proof.
  apply keeping_bind; [apply keeping_secHash|]. intros d.
  apply keeping_bind; [apply keeping_computeSecHash|]. intros d'.
  case_decide; [apply keeping_ret|apply keeping_raise].
Qed.

Lemma keeping_checkAllSecHash n a : keeping (checkAllSecHash n a).
Proof.
  apply keeping_bind; [apply (keeping_read (λ s, ancestors (heap s) [a]))|].
  intros nodes. apply keeping_for_each. intros b. apply keeping_checkSecHash.
Qed.

Lemma keeping_loc n a repo : keeping (loc n a repo).
Proof.
  apply keeping_bind; [apply keeping_get_obj|]. intros o.
  destruct (body o); try apply keeping_ret; try apply keeping_raise.
  apply keeping_bind; [apply keeping_secHash|]. intros d. apply keeping_ret.
Qed.

Lemma keeping_isDone n a repo : keeping (isDone n a repo).
Proof.
  apply keeping_bind; [apply keeping_get_obj|]. intros o.
  destruct (body o); try apply keeping_ret; try apply keeping_raise;
    try apply keeping_path_exists.
  apply keeping_bind; [apply keeping_loc|]. intros p. apply keeping_path_exists.
Qed.

Lemma keeping_parentJobs a : keeping (parentJobs a).
Proof.
  apply keeping_bind; [apply keeping_get_obj|]. intros o.
  destruct (body o); try apply keeping_raise.
  apply keeping_bind; [|intros; apply keeping_ret].
  apply keeping_list_comp. intros b.
  apply (keeping_read (λ s, parents (heap s) b)).
Qed.

Lemma keeping_run a repo : keeping (run a repo).
Proof.
  apply keeping_bind; [apply keeping_get_obj|]. intros o.
  destruct (body o); apply keeping_raise.
Qed.

(** The three methods that do more than hash: given [R] of them, [R] of
    every method. *)
Lemma keeping_exec n c :
  (∀ self repo, c = CallLoadValue self repo → keeping (loadValue n self repo)) →
  (∀ self repo v,
     c = CallSaveValue self repo v → keeping (saveValue n self repo v)) →
  (∀ self, keeping (newOutput self)) →
  keeping (exec n c).
Proof.
  intros Hload Hsave Hnew. destruct c; simpl.
  - apply keeping_forget, keeping_secHash.
  - apply keeping_forget, keeping_computeSecHash.
  - apply keeping_checkSecHash.
  - apply keeping_checkAllSecHash.
  - apply keeping_forget, (keeping_read (λ s, parents (heap s) self)).
  - apply keeping_forget, (keeping_read (λ s, parentArtifacts (heap s) self)).
  - apply keeping_forget, keeping_loc.
  - apply keeping_forget, keeping_isDone.
  - by apply keeping_forget, Hload.
  - by apply Hsave.
  - apply keeping_forget, keeping_parentJobs.
  - apply keeping_forget, Hnew.
  - apply keeping_run.
Qed.

End keeping.

Section frames.
Context `{Ext : Externals}.

Implicit Types (h : gmap addr obj) (s : state).

(** The fields of an object no method assigns: all but [_secHash] and the
    [_value] of a thunk artifact. *)
Definition same_fields (k k' : kind) : Prop :=
  match k with
  | ThunkArtifact th c _ => ∃ v', k' = ThunkArtifact th c v'
  | _ => k' = k
  end.

Definition same_objects s s' : Prop :=
  ∀ a o, heap s !! a = Some o →
    ∃ o', heap s' !! a = Some o' ∧ cls o' = cls o
          ∧ same_fields (body o) (body o').

Lemma same_fields_refl k : same_fields k k.
Proof. destruct k; simpl; eauto. Qed.

Lemma same_fields_trans k1 k2 k3 :
  same_fields k1 k2 → same_fields k2 k3 → same_fields k1 k3.
Proof.
  destruct k1; simpl; try (by intros -> ?).
  intros [v2 ->] [v3 ->]. eauto.
Qed.

Lemma same_objects_refl s : same_objects s s.
Proof. intros a o Ho. exists o. auto using same_fields_refl. Qed.

Lemma same_objects_trans s1 s2 s3 :
  same_objects s1 s2 → same_objects s2 s3 → same_objects s1 s3.
Proof.
  intros H12 H23 a o1 Ho1.
  destruct (H12 a o1 Ho1) as (o2 & Ho2 & Hc12 & Hk12).
  destruct (H23 a o2 Ho2) as (o3 & Ho3 & Hc23 & Hk23).
  exists o3. split; [done|]. split; [congruence|].
  by eapply same_fields_trans.
Qed.

Lemma same_objects_hash s s' : hash_step s s' → same_objects s s'.
Proof.
  intros ([Hle _] & _) a o Ho.
  destruct (heap_le_lookup _ _ _ _ Hle Ho) as (o' & Ho' & Hcls & Hbody & _).
  exists o'. split; [done|]. split; [done|]. rewrite <-Hbody.
  apply same_fields_refl.
Qed.

Lemma same_objects_insert s s' a o o' :
  heap s !! a = Some o → heap s' = <[a := o']> (heap s) →
  cls o' = cls o → same_fields (body o) (body o') →
  same_objects s s'.
Proof.
  intros Ho Hs' Hcls Hk b ob Hob. rewrite Hs'.
  destruct (decide (b = a)) as [->|Hne].
  - assert (ob = o) as -> by congruence. exists o'.
    by rewrite lookup_insert_eq.
  - exists ob. rewrite lookup_insert_ne by done.
    auto using same_fields_refl.
Qed.

Lemma same_objects_heap s s' : heap s' = heap s → same_objects s s'.
Proof.
  intros Hh a o Ho. exists o. rewrite Hh. auto using same_fields_refl.
Qed.

Definition keeps_objects {A} (m : M A) : Prop := keeping same_objects m.

Lemma keeps_objects_loadValue n a repo : keeps_objects (loadValue n a repo).
Proof.
  intros s r s' Hrun. unfold loadValue in Hrun.
  apply bind_Ok in Hrun as (o & ? & [Ho ->]%get_obj_Ok & Hrun).
  destruct (body o) as [th c v| | | |] eqn:Hb.
  - unfold run_thunk in Hrun. destruct c; [destruct v as [v|]|].
    + apply ret_Ok in Hrun as [_ ->]. apply same_objects_refl.
    + apply bind_Ok in Hrun as (x & s1 & Hth & Hrun).
      apply bind_Ok in Hth as ([] & ? & ->%emit_Ok & Hth). simpl in Hth.
      destruct (call_thunk th (world s)) as [[x' w]|]; [|done].
      injection Hth as <- <-.
      apply bind_Ok in Hrun as ([] & s2 & Hmod & Hrun).
      apply ret_Ok in Hrun as [_ ->].
      apply modify_obj_Ok in Hmod as (o1 & Ho1 & ->). simpl in *.
      assert (o1 = o) as -> by congruence.
      apply (same_objects_insert _ _ a o (set_value x' o)); [done..|].
      simpl. rewrite Hb. by eexists.
    + apply bind_Ok in Hrun as (x & s1 & Hth & Hrun).
      apply ret_Ok in Hrun as [_ ->].
      apply bind_Ok in Hth as ([] & ? & ->%emit_Ok & Hth). simpl in Hth.
      destruct (call_thunk th (world s)) as [[x' w]|]; [|done].
      injection Hth as <- <-. by apply same_objects_heap.
  - apply ret_Ok in Hrun as [_ ->]. apply same_objects_refl.
  - done.
  - revert Hrun.
    apply (keeping_bind _ same_objects_trans);
      [apply (keeping_loc _ same_objects_refl same_objects_trans
                same_objects_hash)|].
    intros p. apply (keeping_bind _ same_objects_trans);
      [apply (keeping_loadPickle _ same_objects_refl)|].
    intros x. apply (keeping_ret _ same_objects_refl).
  - done.
Qed.

Lemma keeps_objects_saveValue n a repo v : keeps_objects (saveValue n a repo v).
Proof.
  apply (keeping_bind _ same_objects_trans);
    [apply (keeping_get_obj _ same_objects_refl)|]. intros o.
  destruct (body o); try apply keeping_raise.
  apply (keeping_bind _ same_objects_trans);
    [apply (keeping_loc _ same_objects_refl same_objects_trans
              same_objects_hash)|].
  intros p s r s' [= _ <-]. by apply same_objects_heap.
Qed.

Lemma keeps_objects_new_obj o : keeps_objects (new_obj o).
Proof.
  intros s a s' [= <- <-] b ob Hob. exists ob. simpl.
  rewrite lookup_insert_ne; [auto using same_fields_refl|].
  intros <-. apply (is_fresh (dom (heap s))). apply elem_of_dom. eauto.
Qed.

Lemma keeps_objects_newOutput a : keeps_objects (newOutput a).
Proof.
  apply (keeping_bind _ same_objects_trans);
    [apply (keeping_get_obj _ same_objects_refl)|]. intros o.
  destruct (body o); try apply keeping_raise. apply keeps_objects_new_obj.
Qed.

(** X13. No method call removes an object, changes the class of one, or
    assigns a field other than [_secHash] and the [_value] of a thunk
    artifact: thunks, flags, locations, parent jobs, inputs and names are as
    they were. *)
Theorem methods_keep_fields n c s u s' a o :
  exec n c s = Ok (u, s') → heap s !! a = Some o →
  ∃ o', heap s' !! a = Some o' ∧ cls o' = cls o
        ∧ same_fields (body o) (body o').
Proof.
  intros Hrun Ho. revert Ho.
  eapply (keeping_exec _ same_objects_refl same_objects_trans same_objects_hash);
    [| | |done].
  - intros. apply keeps_objects_loadValue.
  - intros. apply keeps_objects_saveValue.
  - apply keeps_objects_newOutput.
Qed.

End frames.

(** ** Which method touches the disk, which the world *)

Section effects.
Context `{Ext : Externals}.

Implicit Types (h : gmap addr obj) (s : state).

Definition same_files s s' : Prop := fs s' = fs s.
Definition same_world s s' : Prop := world s' = world s.

Lemma same_files_hash s s' : hash_step s s' → same_files s s'.
Proof. by intros (_ & Hfs & _). Qed.

Lemma same_world_hash s s' : hash_step s s' → same_world s s'.
Proof. by intros (_ & _ & Hw). Qed.

Lemma same_files_trans s1 s2 s3 :
  same_files s1 s2 → same_files s2 s3 → same_files s1 s3.
Proof. unfold same_files. congruence. Qed.

Lemma same_world_trans s1 s2 s3 :
  same_world s1 s2 → same_world s2 s3 → same_world s1 s3.
Proof. unfold same_world. congruence. Qed.

Lemma keeps_files_loadValue n a repo :
  keeping same_files (loadValue n a repo).
Proof.
  intros s r s' Hrun. unfold loadValue in Hrun.
  apply bind_Ok in Hrun as (o & ? & [Ho ->]%get_obj_Ok & Hrun).
  destruct (body o) as [th c v| | | |] eqn:Hb.
  - unfold run_thunk in Hrun. destruct c; [destruct v as [v|]|].
    + by apply ret_Ok in Hrun as [_ ->].
    + apply bind_Ok in Hrun as (x & s1 & Hth & Hrun).
      apply bind_Ok in Hth as ([] & ? & ->%emit_Ok & Hth). simpl in Hth.
      destruct (call_thunk th (world s)) as [[x' w]|]; [|done].
      injection Hth as <- <-.
      apply bind_Ok in Hrun as ([] & s2 & Hmod & Hrun).
      apply ret_Ok in Hrun as [_ ->].
      by apply modify_obj_Ok in Hmod as (o1 & Ho1 & ->).
    + apply bind_Ok in Hrun as (x & s1 & Hth & Hrun).
      apply ret_Ok in Hrun as [_ ->].
      apply bind_Ok in Hth as ([] & ? & ->%emit_Ok & Hth). simpl in Hth.
      destruct (call_thunk th (world s)) as [[x' w]|]; [|done].
      by injection Hth as <- <-.
  - by apply ret_Ok in Hrun as [_ ->].
  - done.
  - revert Hrun.
    apply (keeping_bind _ same_files_trans);
      [by apply (keeping_loc _ (λ _, eq_refl) same_files_trans
                   same_files_hash)|].
    intros p. apply (keeping_bind _ same_files_trans);
      [by apply (keeping_loadPickle same_files)|].
    intros x. by apply (keeping_ret same_files).
  - done.
Qed.

Lemma keeps_world_saveValue n a repo v :
  keeping same_world (saveValue n a repo v).
Proof.
  apply (keeping_bind _ same_world_trans);
    [by apply (keeping_get_obj same_world)|]. intros o.
  destruct (body o); try apply keeping_raise.
  apply (keeping_bind _ same_world_trans);
    [by apply (keeping_loc _ (λ _, eq_refl) same_world_trans
                 same_world_hash)|].
  by intros p s r s' [= _ <-].
Qed.

Lemma keeps_files_newOutput a : keeping same_files (newOutput a).
Proof.
  apply (keeping_bind _ same_files_trans);
    [by apply (keeping_get_obj same_files)|]. intros o.
  destruct (body o); try apply keeping_raise. by intros s r s' [= _ <-].
Qed.

Lemma keeps_world_newOutput a : keeping same_world (newOutput a).
Proof.
  apply (keeping_bind _ same_world_trans);
    [by apply (keeping_get_obj same_world)|]. intros o.
  destruct (body o); try apply keeping_raise. by intros s r s' [= _ <-].
Qed.

(** X14. Of all the methods only [JobArtifact.saveValue] changes the
    filesystem, and what it does is write the pickled value at the cache
    root joined with the artifact's stored hash; only [loadValue] of a thunk
    artifact that has no cached value to return changes the world, by
    running the thunk. *)
Theorem only_saveValue_writes_only_thunks_run n c s u s' :
  exec n c s = Ok (u, s') →
  (fs s' = fs s
   ∨ ∃ self repo v o parentJob d,
       c = CallSaveValue self repo v ∧ heap s !! self = Some o
       ∧ body o = JobArtifact parentJob ∧ stored (heap s') self = Some d
       ∧ fs s' = <[path_join (cacheDir repo) d := File (pickle v)]> (fs s))
  ∧ (world s' = world s
     ∨ ∃ self repo o thunk shouldCache _value r,
         c = CallLoadValue self repo ∧ heap s !! self = Some o
         ∧ body o = ThunkArtifact thunk shouldCache _value
         ∧ (shouldCache = true → _value = None)
         ∧ call_thunk thunk (world s) = Ok (r, world s')).
Proof.
  intros Hrun. split.
  - destruct (match c with CallSaveValue _ _ _ => true | _ => false end)
      eqn:Hc.
    + destruct c as [| | | | | | | | |self repo v| | |]; try done.
      simpl in Hrun. right. unfold saveValue in Hrun.
      apply bind_Ok in Hrun as (o & ? & [Ho ->]%get_obj_Ok & Hrun).
      destruct (body o) as [| | |pj|] eqn:Hb; try done.
      apply bind_Ok in Hrun as (p & s1 & Hloc & Hsave).
      unfold loc in Hloc.
      apply bind_Ok in Hloc as (o' & ? & [Ho' ->]%get_obj_Ok & Hloc).
      assert (o' = o) as -> by congruence. rewrite Hb in Hloc.
      apply bind_Ok in Hloc as (d & s2 & Hsec & Hret).
      apply ret_Ok in Hret as [<- ->].
      unfold savePickle in Hsave. injection Hsave as Hs'. subst s'.
      exists self, repo, v, o, pj, d. split; [done|]. split; [done|].
      split; [done|]. simpl. split; [by eapply secHash_stores|].
      by rewrite (same_files_hash _ _ (proj2 (secHash_sound _ _ _ _ _ Hsec))).
    + left. revert Hrun.
      apply (keeping_exec _ (λ _, eq_refl) same_files_trans same_files_hash).
      * intros. apply keeps_files_loadValue.
      * intros self repo v ->. done.
      * apply keeps_files_newOutput.
  - destruct (match c with CallLoadValue _ _ => true | _ => false end)
      eqn:Hc.
    + destruct c as [| | | | | | | |self repo| | | |]; try done.
      simpl in Hrun.
      apply bind_Ok in Hrun as (r & s1 & Hrun & [_ ->]%ret_Ok).
      unfold loadValue in Hrun.
      apply bind_Ok in Hrun as (o & ? & [Ho ->]%get_obj_Ok & Hrun).
      destruct (body o) as [th sc v| | | |] eqn:Hb.
      * unfold run_thunk in Hrun. destruct sc; [destruct v as [v|]|].
        -- left. by apply ret_Ok in Hrun as [_ ->].
        -- right. apply bind_Ok in Hrun as (x & s2 & Hth & Hrun).
           apply bind_Ok in Hth as ([] & ? & ->%emit_Ok & Hth). simpl in Hth.
           destruct (call_thunk th (world s)) as [[x' w]|] eqn:Hcall; [|done].
           injection Hth as <- <-.
           apply bind_Ok in Hrun as ([] & s3 & Hmod & Hrun).
           apply ret_Ok in Hrun as [_ ->].
           apply modify_obj_Ok in Hmod as (o1 & Ho1 & ->). simpl.
           by exists self, repo, o, th, true, None, x'.
        -- right. apply bind_Ok in Hrun as (x & s2 & Hth & Hrun).
           apply ret_Ok in Hrun as [_ ->].
           apply bind_Ok in Hth as ([] & ? & ->%emit_Ok & Hth). simpl in Hth.
           destruct (call_thunk th (world s)) as [[x' w]|] eqn:Hcall; [|done].
           injection Hth as <- <-. simpl.
           by exists self, repo, o, th, false, v, x'.
      * left. by apply ret_Ok in Hrun as [_ ->].
      * done.
      * left. revert Hrun.
        apply (keeping_bind _ same_world_trans);
          [by apply (keeping_loc _ (λ _, eq_refl) same_world_trans
                       same_world_hash)|].
        intros p. apply (keeping_bind _ same_world_trans);
          [by apply (keeping_loadPickle same_world)|].
        intros x. by apply (keeping_ret same_world).
      * done.
    + left. revert Hrun.
      apply (keeping_exec _ (λ _, eq_refl) same_world_trans same_world_hash).
      * intros self repo ->. done.
      * intros. apply keeps_world_saveValue.
      * apply keeps_world_newOutput.
Qed.

End effects.

(** ** The cache of job outputs *)

Section cache.
Context `{Ext : Externals}.

Implicit Types (h : gmap addr obj) (s : state).

Definition is_job (k : kind) : bool :=
  match k with
  | Job _ _ => true
  | _ => false
  end.

(** What is no job keeps its fields, whatever the steps: only the inputs of
    a job are ever assigned to. *)
Definition artifacts_kept s s' : Prop :=
  ∀ a o, heap s !! a = Some o → is_job (body o) = false →
    ∃ o', heap s' !! a = Some o' ∧ cls o' = cls o
          ∧ same_fields (body o) (body o').

Lemma same_fields_is_job k k' : same_fields k k' → is_job k' = is_job k.
Proof. destruct k; simpl; try (by intros ->). by intros [v' ->]. Qed.

Lemma artifacts_kept_refl s : artifacts_kept s s.
Proof. intros a o Ho _. exists o. auto using same_fields_refl. Qed.

Lemma artifacts_kept_trans s1 s2 s3 :
  artifacts_kept s1 s2 → artifacts_kept s2 s3 → artifacts_kept s1 s3.
Proof.
  intros H12 H23 a o Ho Hj.
  destruct (H12 a o Ho Hj) as (o2 & Ho2 & Hc2 & Hk2).
  destruct (H23 a o2 Ho2) as (o3 & Ho3 & Hc3 & Hk3).
  { by rewrite (same_fields_is_job _ _ Hk2). }
  exists o3. split; [done|]. split; [congruence|].
  by eapply same_fields_trans.
Qed.

Lemma artifacts_kept_exec n c : keeping artifacts_kept (exec n c).
Proof.
  intros s u s' Hrun a o Ho _.
  exact (keeping_exec same_objects same_objects_refl same_objects_trans
           same_objects_hash n c
           (λ self repo _, keeps_objects_loadValue n self repo)
           (λ self repo v _, keeps_objects_saveValue n self repo v)
           keeps_objects_newOutput s u s' Hrun a o Ho).
Qed.

Lemma artifacts_kept_set_inputs job inputs :
  keeping artifacts_kept (set_inputs job inputs).
Proof.
  intros s u s' Hrun a o Ho Hj. unfold set_inputs in Hrun.
  apply bind_Ok in Hrun as (oj & ? & [Hoj ->]%get_obj_Ok & Hrun).
  destruct (body oj) as [| | | |ins name] eqn:Hbj; try done.
  apply modify_obj_Ok in Hrun as (o1 & Ho1 & ->). simpl.
  assert (a ≠ job).
  { intros ->. assert (oj = o) as -> by congruence. by rewrite Hbj in Hj. }
  exists o. rewrite lookup_insert_ne by done. auto using same_fields_refl.
Qed.

Lemma artifacts_kept_run_steps steps : keeping artifacts_kept (run_steps steps).
Proof.
  unfold run_steps. apply keeping_for_each.
  - apply artifacts_kept_refl.
  - apply artifacts_kept_trans.
  - intros [n c|job inputs]; simpl.
    + apply artifacts_kept_exec.
    + apply artifacts_kept_set_inputs.
Qed.

Lemma loc_stored s a o parentJob d m repo :
  heap s !! a = Some o → body o = JobArtifact parentJob →
  _secHash o = Some d →
  loc (S m) a repo s = Ok (path_join (cacheDir repo) d, s).
Proof.
  intros Ho Hb Hd. unfold loc, bind, get_obj. rewrite Ho, Hb.
  by rewrite (secHash_stored m s a o d Ho Hd).
Qed.

(** The hash [loc] used is stored, in an object that is still a job
    output. *)
Lemma loc_Ok s a o parentJob n repo p s1 :
  heap s !! a = Some o → body o = JobArtifact parentJob →
  loc n a repo s = Ok (p, s1) →
  ∃ d o1, p = path_join (cacheDir repo) d ∧ heap s1 !! a = Some o1
          ∧ body o1 = JobArtifact parentJob ∧ _secHash o1 = Some d
          ∧ hash_step s s1.
Proof.
  intros Ho Hb Hloc. unfold loc in Hloc.
  apply bind_Ok in Hloc as (o' & ? & [Ho' ->]%get_obj_Ok & Hloc).
  assert (o' = o) as -> by congruence. rewrite Hb in Hloc.
  apply bind_Ok in Hloc as (d & s' & Hsec & Hret).
  apply ret_Ok in Hret as [<- ->].
  pose proof (secHash_stores _ _ _ _ _ Hsec) as Hst.
  pose proof (proj2 (secHash_sound _ _ _ _ _ Hsec)) as Hstep.
  destruct Hstep as ([Hle Hcons] & Hfs & Hw).
  destruct (heap_le_lookup _ _ _ _ Hle Ho) as (o1 & Ho1 & _ & Hb1 & _).
  unfold stored in Hst. rewrite Ho1 in Hst. simpl in Hst.
  exists d, o1. split; [done|]. split; [done|]. split; [congruence|].
  split; [done|]. by split.
Qed.

(** X15. Once [loc] of a job output has returned a path, it returns that
    path, and changes nothing, after any further steps: method calls on any
    node, and the inputs of any job replaced, those of its own job
    included. *)
Theorem jobArtifact_loc_stable s a o parentJob n repo p s1 steps s2 :
  heap s !! a = Some o → body o = JobArtifact parentJob →
  loc n a repo s = Ok (p, s1) →
  run_steps steps s1 = Ok (tt, s2) →
  ∀ m, loc (S m) a repo s2 = Ok (p, s2).
Proof.
  intros Ho Hb Hloc Hsteps m.
  destruct (loc_Ok _ _ _ _ _ _ _ _ Ho Hb Hloc)
    as (d & o1 & -> & Ho1 & Hb1 & Hd1 & _).
  destruct (artifacts_kept_run_steps _ _ _ _ Hsteps a o1 Ho1)
    as (o2 & Ho2 & _ & Hb2); [by rewrite Hb1|].
  rewrite Hb1 in Hb2. simpl in Hb2.
  assert (stored (heap s2) a = Some d) as Hst2.
  { apply (evolves_stored s1); [by eapply evolving_run_steps|].
    unfold stored. by rewrite Ho1. }
  unfold stored in Hst2. rewrite Ho2 in Hst2. simpl in Hst2.
  by eapply loc_stored.
Qed.

(** X16. After [saveValue] of a job output, [isDone] is true of it and
    [loadValue] returns what unpickling the pickled value gives; so do they
    of every job output with the same location. *)
Theorem jobArtifact_save_then_load s a o parentJob n repo v s1 :
  heap s !! a = Some o → body o = JobArtifact parentJob →
  saveValue n a repo v s = Ok (tt, s1) →
  ∃ p, (∀ m, loc (S m) a repo s1 = Ok (p, s1))
  ∧ ∀ b ob parentJob' m s2,
      heap s1 !! b = Some ob → body ob = JobArtifact parentJob' →
      loc m b repo s1 = Ok (p, s2) →
      isDone m b repo s1 = Ok (true, s2)
      ∧ loadValue m b repo s1
        = match unpickle (pickle v) with
          | Ok v' => Ok (PRef v', s2)
          | Err e => Err e
          end.
Proof.
  intros Ho Hb Hsave. unfold saveValue in Hsave.
  apply bind_Ok in Hsave as (o' & ? & [Ho' ->]%get_obj_Ok & Hsave).
  assert (o' = o) as -> by congruence. rewrite Hb in Hsave.
  apply bind_Ok in Hsave as (p & s' & Hloc & Hsave).
  unfold savePickle in Hsave. injection Hsave as Hs1.
  exists p. split.
  - intros m.
    destruct (loc_Ok _ _ _ _ _ _ _ _ Ho Hb Hloc)
      as (d & o1 & -> & Ho1 & Hb1 & Hd1 & _).
    subst s1. by eapply loc_stored.
  - intros b ob pj' m s2 Hob Hbb Hlocb.
    assert (fs s2 !! p = Some (File (pickle v))) as Hfile.
    { unfold loc in Hlocb.
      apply bind_Ok in Hlocb as (ob' & ? & [Hob' ->]%get_obj_Ok & Hlocb).
      assert (ob' = ob) as -> by congruence. rewrite Hbb in Hlocb.
      apply bind_Ok in Hlocb as (d & s3 & Hsec & Hret).
      apply ret_Ok in Hret as [_ ->].
      rewrite (same_files_hash _ _ (proj2 (secHash_sound _ _ _ _ _ Hsec))).
      subst s1. simpl. by rewrite lookup_insert_eq. }
    split.
    + unfold isDone, bind, get_obj. rewrite Hob, Hbb, Hlocb.
      unfold path_exists. rewrite Hfile. by rewrite bool_decide_eq_true_2.
    + unfold loadValue, bind, get_obj. rewrite Hob, Hbb, Hlocb.
      unfold loadPickle. rewrite Hfile. by destruct (unpickle (pickle v)).
Qed.

(** The job that made [a], when [a] is a job output. *)
Definition producer h (a : addr) : option addr :=
  match h !! a with
  | Some o =>
      match body o with
      | JobArtifact parentJob => Some parentJob
      | _ => None
      end
  | None => None
  end.

(** X17. [parentJobs] of a job whose inputs are artifacts returns the jobs
    that made its inputs, in the order of the inputs, one for each job
    output among them (so a job is listed as often as it has outputs
    there), and changes nothing. *)
Theorem parentJobs_producers s j o inputs name :
  heap s !! j = Some o → body o = Job inputs name →
  Forall (λ a, artifact_at (heap s) a = true) inputs →
  parentJobs j s = Ok (omap (producer (heap s)) inputs, s).
Proof.
  intros Ho Hb Hin. unfold parentJobs, bind at 1, get_obj. rewrite Ho, Hb.
  assert (list_comp (λ input s0, lift (parents (heap s0) input) s0) inputs s
          = Ok ((λ a, from_option (λ x, [x]) [] (producer (heap s) a))
                  <$> inputs, s)) as Hcomp.
  { clear Ho Hb. induction Hin as [|a l Ha Hl IH]; [done|].
    simpl. unfold bind at 1. unfold lift at 1, parents at 1.
    unfold artifact_at in Ha. unfold producer at 1.
    destruct (heap s !! a) as [oa|]; [|done]. simpl.
    unfold bind at 1. rewrite IH. unfold ret. do 3 f_equal.
    unfold obj_parents. by destruct (body oa). }
  unfold bind. rewrite Hcomp. unfold ret. do 2 f_equal.
  clear. induction inputs as [|a l IH]; [done|]. 
  cbn [fmap list_fmap concat omap list_omap].
  destruct (producer (heap s) a); simpl; [f_equal|]; exact IH.
Qed.

(** X21. A thunk artifact or a fixed directory never fails its check: once
    [secHash] has stored its hash, [checkSecHash] returns after any further
    steps, whatever they did to the filesystem, the world and the value of
    the thunk. *)
Theorem leaf_check_never_fails s a o n d s1 steps s2 m :
  heap s !! a = Some o →
  (∃ thunk shouldCache _value, body o = ThunkArtifact thunk shouldCache _value)
  ∨ (∃ location, body o = FixedDirArtifact location) →
  _secHash o = None →
  secHash n a s = Ok (d, s1) →
  run_steps steps s1 = Ok (tt, s2) →
  ∃ s3, checkSecHash m a s2 = Ok (tt, s3).
Proof.
  intros Ho Hleaf Hnone Hsec Hsteps.
  assert (is_job (body o) = false) as Hj.
  { by destruct Hleaf as [(? & ? & ? & ->)|[? ->]]. }
  assert (cval_with (λ _, None) (fs s) o = Some d) as Hd.
  { destruct (secHash_sound _ _ _ _ _ Hsec) as [Hid _].
    apply idhash_unstored in Hid as (o' & k & Ho' & Hk);
      [|unfold stored; by rewrite Ho].
    assert (o' = o) as -> by congruence. revert Hk. unfold cval_with.
    by destruct Hleaf as [(? & ? & ? & ->)|[? ->]]. }
  pose proof (secHash_stores _ _ _ _ _ Hsec) as Hst1.
  destruct (proj2 (secHash_sound _ _ _ _ _ Hsec)) as ([Hle _] & _).
  destruct (heap_le_lookup _ _ _ _ Hle Ho) as (o1 & Ho1 & Hc1 & Hb1 & _).
  destruct (artifacts_kept_run_steps _ _ _ _ Hsteps a o1 Ho1)
    as (o2 & Ho2 & Hc2 & Hb2); [by rewrite <-Hb1|].
  pose proof (evolves_stored _ _ _ _ (evolving_run_steps _ _ _ _ Hsteps) Hst1)
    as Hst2.
  unfold stored in Hst2. rewrite Ho2 in Hst2. simpl in Hst2.
  unfold checkSecHash, bind at 1.
  rewrite (secHash_stored m s2 a o2 d Ho2 Hst2).
  unfold bind. rewrite (computeSecHash_leaf m a s2 o2 Ho2).
  rewrite <-Hb1 in Hb2. unfold cval_with in Hd. rewrite Hc2, <-Hc1.
  destruct Hleaf as [(th & c & v & Hb)|[location Hb]]; rewrite Hb in Hb2, Hd;
    simpl in Hb2.
  - destruct Hb2 as [v' ->]. injection Hd as <-.
    rewrite decide_True by done. by eexists.
  - rewrite Hb2. injection Hd as <-. rewrite decide_True by done. by eexists.
Qed.

Lemma jobArtifact_recomputed fsys h a o parentJob d :
  h !! a = Some o → body o = JobArtifact parentJob → recomputed fsys h a d →
  ∃ e, idhash fsys h parentJob e
       ∧ d = secHashObject (VTuple [VStr (getHash (cls o)); VStr e]).
Proof.
  intros Ho Hb (o' & m & Ho' & Hm). assert (o' = o) as -> by congruence.
  unfold cval_with in Hm. rewrite Hb in Hm. simpl in Hm.
  destruct (hval m fsys h parentJob) as [e|] eqn:He; [|done].
  injection Hm as <-. exists e. split; [by exists m|done].
Qed.

(** X22. What the cache is for: the outputs of two jobs not yet hashed get
    the same location when the classes of the outputs and of the jobs have
    the same code hashes and the jobs' inputs have, position by position,
    the same identity hashes, whatever the jobs are called; and when
    [persist.secHashObject] and joining to the cache root have no
    collisions, only then. *)
Theorem equal_jobs_share_location s a1 a2 o1 o2 j1 j2 oj1 oj2
    inputs1 name1 inputs2 name2 repo n1 n2 p1 p2 s1 s2 :
  heap s !! a1 = Some o1 → body o1 = JobArtifact j1 → _secHash o1 = None →
  heap s !! a2 = Some o2 → body o2 = JobArtifact j2 → _secHash o2 = None →
  heap s !! j1 = Some oj1 → body oj1 = Job inputs1 name1 →
  _secHash oj1 = None →
  heap s !! j2 = Some oj2 → body oj2 = Job inputs2 name2 →
  _secHash oj2 = None →
  loc n1 a1 repo s = Ok (p1, s1) → loc n2 a2 repo s1 = Ok (p2, s2) →
  let same :=
    getHash (cls o1) = getHash (cls o2)
    ∧ getHash (cls oj1) = getHash (cls oj2)
    ∧ Forall2 (λ a b, ∃ d, identityHash s a d ∧ identityHash s b d)
        inputs1 inputs2 in
  (same → p1 = p2)
  ∧ (Inj (=) (=) secHashObject → Inj (=) (=) (path_join (cacheDir repo)) →
     p1 = p2 → same).
Proof.
  intros Ho1 Hb1 Hn1 Ho2 Hb2 Hn2 Hoj1 Hbj1 Hnj1 Hoj2 Hbj2 Hnj2 Hloc1 Hloc2 same.
  unfold loc in Hloc1, Hloc2.
  apply bind_Ok in Hloc1 as (o1' & ? & [Ho1' ->]%get_obj_Ok & Hloc1).
  assert (o1' = o1) as -> by congruence. rewrite Hb1 in Hloc1.
  apply bind_Ok in Hloc1 as (d1 & s1' & Hsec1 & Hret1).
  apply ret_Ok in Hret1 as [<- ->].
  destruct (secHash_sound _ _ _ _ _ Hsec1) as [Hid1 (Hc & Hfs & _)].
  apply bind_Ok in Hloc2 as (o2' & ? & [Ho2' ->]%get_obj_Ok & Hloc2).
  destruct (heap_le_lookup _ _ _ _ (proj1 Hc) Ho2) as (o2'' & Ho2'' & _ & Hb2' & _).
  assert (o2'' = o2') as -> by congruence.
  rewrite <-Hb2', Hb2 in Hloc2.
  apply bind_Ok in Hloc2 as (d2 & s2' & Hsec2 & Hret2).
  apply ret_Ok in Hret2 as [<- ->].
  destruct (secHash_sound _ _ _ _ _ Hsec2) as [Hid2 _].
  rewrite Hfs in Hid2. apply (idhash_back _ _ _ _ _ Hc) in Hid2.
  apply idhash_unstored in Hid1; [|unfold stored; by rewrite Ho1].
  apply idhash_unstored in Hid2; [|unfold stored; by rewrite Ho2].
  destruct (jobArtifact_recomputed _ _ _ _ _ _ Ho1 Hb1 Hid1) as (e1 & He1 & ->).
  destruct (jobArtifact_recomputed _ _ _ _ _ _ Ho2 Hb2 Hid2) as (e2 & He2 & ->).
  apply idhash_unstored in He1; [|unfold stored; by rewrite Hoj1].
  apply idhash_unstored in He2; [|unfold stored; by rewrite Hoj2].
  destruct (job_recomputed _ _ _ _ _ _ _ Hoj1 Hbj1 He1) as (ds1 & Hds1 & ->).
  destruct (job_recomputed _ _ _ _ _ _ _ Hoj2 Hbj2 He2) as (ds2 & Hds2 & ->).
  assert (Forall2 (λ a b, ∃ d, identityHash s a d ∧ identityHash s b d)
            inputs1 inputs2 ↔
    Forall2 (λ a b, ∃ d, idhash (fs s) (heap s) a d ∧ idhash (fs s) (heap s) b d)
      inputs1 inputs2) as Hsame.
  { split; intros H; (eapply Forall2_impl; [exact H|]);
      intros a b (d & Ha & Hb); exists d; by rewrite ?identityHash_idhash in *. }
  split.
  - intros (Hcode & Hjcode & Hin). apply Hsame in Hin.
    rewrite Hcode, Hjcode.
    by rewrite (idhash_Forall2_det _ _ _ _ _ _ Hin Hds1 Hds2).
  - intros Hinj Hjoin Hp. apply Hjoin, Hinj in Hp.
    injection Hp as Hcode He. apply Hinj in He. injection He as Hjcode Hds.
    apply VStr_fmap_inj in Hds as ->.
    split; [done|]. split; [done|]. apply Hsame.
    by eapply idhash_Forall2_same.
Qed.

End cache.

(** ** Corpus: the other methods *)

Module CorpusRest.
Import Corpus.

Section corpus_rest.
(** The corpus subclass supplies [data] and [trainUttIds]; [add] is the
    method of the accumulator: it leaves an accumulator, and may raise. *)
Context {UttId Input Output Acc Num : Type}.
Variable data : UttId → Input * Output.
Variable trainUttIds : list UttId.
Variable add : Acc → Input → Output → Acc * option error.
Variable num_zero : Num.
Variable num_add : Num → Num → Num.

(** The loop of [accumulate]: the accumulator it leaves, and the exception
    that ended it if one did. *)
Fixpoint accumulate_loop (acc : Acc) (uttIds : list UttId)
    : Acc * option error :=
  match uttIds with
  | [] => (acc, None)
  | uttId :: uttIds =>
      let '(input, output) := data uttId in
      match add acc input output with
      | (acc, None) => accumulate_loop acc uttIds
      | (acc, Some e) => (acc, Some e)
      end
  end.

(** [Corpus.accumulate]; [uttIds = None] is the default argument. *)
Definition accumulate (acc : Acc) (uttIds : option (list UttId))
    : Acc * option error :=
  let uttIds := match uttIds with
                | None => trainUttIds
                | Some uttIds => uttIds
                end in
  accumulate_loop acc uttIds.

(** [Corpus.logProb], of the [logProb] method of a distribution. *)
Definition logProb (dist_logProb : Input → Output → res Num)
    (uttIds : list UttId) : res Num :=
  let computeValue input output := dist_logProb input output in
  sum data num_zero num_add uttIds computeValue.

(** What [computeValue] is applied to for an utterance. *)
Definition value_of (computeValue : Input → Output → res Num)
    (uttId : UttId) : res Num :=
  computeValue (data uttId).1 (data uttId).2.

Lemma res_comp_value_of computeValue uttIds :
  res_comp (λ uttId, let '(input, output) := data uttId in
                     computeValue input output) uttIds
  = res_comp (value_of computeValue) uttIds.
Proof.
  induction uttIds as [|u l IH]; [done|]. simpl. rewrite IH.
  unfold value_of. by destruct (data u).
Qed.

Lemma res_comp_Ok {A B} (f : A → res B) l vs :
  Forall2 (λ x v, f x = Ok v) l vs → res_comp f l = Ok vs.
Proof.
  induction 1 as [|x v l vs Hx _ IH]; [done|]. simpl. by rewrite Hx, IH.
Qed.

Lemma res_comp_Err {A B} (f : A → res B) pre x post e :
  Forall (λ y, is_Ok (f y)) pre → f x = Err e →
  res_comp f (pre ++ x :: post) = Err e.
Proof.
  intros Hpre Hx. induction Hpre as [|y pre [v Hy] _ IH]; simpl.
  - by rewrite Hx.
  - by rewrite Hy, IH.
Qed.

Lemma res_comp_app {A B} (f : A → res B) l1 l2 :
  res_comp f (l1 ++ l2)
  = res_bind (res_comp f l1)
      (λ vs1, res_bind (res_comp f l2) (λ vs2, Ok (vs1 ++ vs2))).
Proof.
  induction l1 as [|x l1 IH]; simpl.
  - by destruct (res_comp f l2).
  - destruct (f x) as [v|e]; [|done]. simpl. rewrite IH.
    destruct (res_comp f l1) as [vs1|]; [|done]. simpl.
    by destruct (res_comp f l2).
Qed.

(** X18. [Corpus.sum] evaluates [computeValue] on the utterances in order:
    it raises what the first failing one raises, whatever comes after it;
    when none fails it returns Python's sum of the values, [0] for the empty
    list. *)
Theorem sum_first_error_or_total (uttIds : list UttId)
    (computeValue : Input → Output → res Num) :
  (∀ pre uttId post e,
     uttIds = pre ++ uttId :: post →
     Forall (λ u, is_Ok (value_of computeValue u)) pre →
     value_of computeValue uttId = Err e →
     sum data num_zero num_add uttIds computeValue = Err e)
  ∧ (∀ values,
       Forall2 (λ u v, value_of computeValue u = Ok v) uttIds values →
       sum data num_zero num_add uttIds computeValue
       = Ok (fold_left num_add values num_zero))
  ∧ (uttIds = [] →
     sum data num_zero num_add uttIds computeValue = Ok num_zero).
Proof.
  unfold sum. rewrite res_comp_value_of. split; [|split].
  - intros pre u post e -> Hpre Hu. by rewrite (res_comp_Err _ _ _ _ e Hpre Hu).
  - intros vs Hvs. by rewrite (res_comp_Ok _ _ _ Hvs).
  - by intros ->.
Qed.

Lemma py_sum_app l1 l2 :
  Assoc (=) num_add → LeftId (=) num_zero num_add →
  RightId (=) num_zero num_add →
  py_sum num_zero num_add (l1 ++ l2)
  = num_add (py_sum num_zero num_add l1) (py_sum num_zero num_add l2).
Proof.
  intros Ha Hl Hr. unfold py_sum. rewrite fold_left_app.
  generalize (fold_left num_add l1 num_zero) as a.
  induction l2 as [|x l2 IH]; intros a; simpl.
  - by rewrite (right_id num_zero num_add).
  - rewrite (IH (num_add a x)), (IH (num_add num_zero x)).
    rewrite (left_id num_zero num_add). by rewrite (assoc num_add).
Qed.

(** X19. When the numbers form a monoid under [+] with [0], [logProb] of two
    lists of utterances one after the other is the sum of their [logProb]s,
    and raises what the first of them to raise does. *)
Theorem logProb_app dist_logProb (l1 l2 : list UttId) :
  Assoc (=) num_add → LeftId (=) num_zero num_add →
  RightId (=) num_zero num_add →
  logProb dist_logProb (l1 ++ l2)
  = match logProb dist_logProb l1 with
    | Ok x =>
        match logProb dist_logProb l2 with
        | Ok y => Ok (num_add x y)
        | Err e => Err e
        end
    | Err e => Err e
    end.
Proof.
  intros Ha Hl Hr. unfold logProb, sum. rewrite res_comp_app.
  destruct (res_comp _ l1) as [vs1|]; [|done]. simpl.
  destruct (res_comp _ l2) as [vs2|]; [|done]. simpl.
  by rewrite py_sum_app.
Qed.

(** X20. [accumulate] adds the utterances in order and stops at the first
    [add] that raises, so a list in two parts is the first part and then,
    if that did not raise, the second; no list given means the training
    utterances, while an empty list given adds nothing. *)
Theorem accumulate_in_order (acc : Acc) (l1 l2 : list UttId) :
  accumulate acc (Some (l1 ++ l2))
  = (match accumulate acc (Some l1) with
     | (acc1, None) => accumulate acc1 (Some l2)
     | stopped => stopped
     end)
  ∧ accumulate acc None = accumulate acc (Some trainUttIds)
  ∧ accumulate acc (Some []) = (acc, None).
Proof.
  split; [|done]. unfold accumulate. revert acc.
  induction l1 as [|u l1 IH]; intros acc; simpl; [done|].
  destruct (data u) as [input output].
  destruct (add acc input output) as [acc' [e|]]; [done|]. apply IH.
Qed.

End corpus_rest.
End CorpusRest.

(** ** The stand-in hash has no collisions *)

Section toy_hash.
Import Toy.

(** Induction over values, with the components of a tuple or a list. *)
Fixpoint pyval_ind_nested (P : pyval → Prop)
    (Hstr : ∀ s, P (VStr s)) (Hbool : ∀ b, P (VBool b))
    (Htuple : ∀ l, Forall P l → P (VTuple l))
    (Hlist : ∀ l, Forall P l → P (VList l))
    (v : pyval) {struct v} : P v :=
  let all := fix all (l : list pyval) : Forall P l :=
    match l with
    | [] => Forall_nil_2 P
    | x :: l =>
        Forall_cons_2 P x l
          (pyval_ind_nested P Hstr Hbool Htuple Hlist x) (all l)
    end in
  match v with
  | VStr s => Hstr s
  | VBool b => Hbool b
  | VTuple l => Htuple l (all l)
  | VList l => Hlist l (all l)
  end.

Lemma pyval_tree_fmap_inj (l : list pyval) :
  Forall (λ v, ∀ w, pyval_tree v = pyval_tree w → v = w) l →
  ∀ k, pyval_tree <$> l = pyval_tree <$> k → l = k.
Proof.
  induction 1 as [|v l Hv _ IH]; intros [|w k]; try done.
  simpl. intros [= Hvw Hlk]. f_equal; [by apply Hv|by apply IH].
Qed.

Lemma pyval_tree_inj : Inj (=) (=) pyval_tree.
Proof.
  intros v. induction v as [s|b|l IH|l IH] using pyval_ind_nested;
    intros [s'|b'|l'|l']; simpl; try done.
  - by intros [= ->].
  - by intros [= ->].
  - intros [= Hl]. f_equal. by apply pyval_tree_fmap_inj.
  - intros [= Hl]. f_equal. by apply pyval_tree_fmap_inj.
Qed.

Lemma toy_secHashObject_inj : Inj (=) (=) toy_secHashObject.
Proof.
  rewrite toy_secHashObject_unseal. intros v w Hvw.
  unfold toy_secHashObject_def in Hvw.
  apply (inj pretty), (inj encode) in Hvw. by apply pyval_tree_inj.
Qed.

End toy_hash.

(** ** The examples, run *)

Module Witness.
Import Toy Example.

Lemma job_computeSecHash_same_iff_witness :
  ∃ d1 s1 d2 s2,
    computeSecHash 1 3 st = Ok (d1, s1)
    ∧ computeSecHash 1 4 s1 = Ok (d2, s2)
    ∧ d1 = d2.
Proof.
  eexists _, _, _, _. split; [vm_compute; reflexivity|].
  split; [vm_compute; reflexivity|].
  eapply (job_computeSecHash_same_iff st 3 4 _ _ [1] _ [2] _ 1 1);
    [vm_compute; reflexivity..|].
  split; [reflexivity|].
  constructor; [|constructor].
  eexists. split; eexists 1, _; vm_compute; reflexivity.
Defined.

Lemma jobArtifact_loc_isDone_witness :
  ∃ d s',
    secHash 3 5 st = Ok (d, s')
    ∧ (loc 3 5 repo st = Ok (path_join (cacheDir repo) d, s')
       ∧ isDone 3 5 repo st
         = Ok (bool_decide (is_Some (fs st !! path_join (cacheDir repo) d)), s')
       ∧ ∀ b ob parentJob' m s'',
           heap s' !! b = Some ob → body ob = JobArtifact parentJob' →
           secHash m b s' = Ok (d, s'') →
           loc m b repo s' = Ok (path_join (cacheDir repo) d, s'')).
Proof.
  eexists _, _. split; [vm_compute; reflexivity|].
  apply (jobArtifact_loc_isDone st 5 (Obj "JobArtifact" None (JobArtifact 3))
           3 repo 3); vm_compute; reflexivity.
Defined.

(** A fixed directory that is not there: [isDone] answers false, and
    [loadValue] returns all the same. *)
Lemma fixedDir_loadValue_missing :
  isDone 1 9 repo st = Ok (false, st)
  ∧ loadValue 1 9 repo st = Ok (PStr "/no/such/dir", st).
Proof. split; vm_compute; reflexivity. Qed.

Lemma fixedDir_loadValue_location_witness :
  loadValue 1 9 repo st = Ok (PStr "/no/such/dir", st)
  ∧ isDone 1 9 repo st
    = Ok (bool_decide (is_Some (files !! "/no/such/dir")), st).
Proof.
  apply (fixedDir_loadValue_location st 9
           (Obj "FixedDirArtifact" None (FixedDirArtifact "/no/such/dir"))
           "/no/such/dir" repo 1);
    vm_compute; reflexivity.
Defined.

(** The file "/etc/conf" holds "rate=1" when the artifact is built and
    "rate=2" when [secHash] is first called: the hash is the one of
    "rate=2", not the one the contents at construction give. *)
Definition files_later : gmap string fsentry :=
  <["/etc/conf" := File "rate=2"]> files.

Lemma fixedFile_hash_after_change :
  ∃ a s1 d0 s1' d s2,
    new_FixedFileArtifact "/etc/conf" st = Ok (a, s1)
    ∧ secHash 1 a s1 = Ok (d0, s1')
    ∧ secHash 1 a (set_fs files_later s1) = Ok (d, s2)
    ∧ d0 = secHashObject
             (VTuple [VStr (getHash "FixedFileArtifact"); VStr (hashBytes "rate=1")])
    ∧ d ≠ d0.
Proof.
  eexists _, _, _, _, _, _. split; [vm_compute; reflexivity|].
  split; [vm_compute; reflexivity|]. split; [vm_compute; reflexivity|].
  split; [reflexivity|].
  intros Heq. apply toy_secHashObject_inj in Heq. discriminate Heq.
Qed.

Lemma fixedFile_hash_at_first_call_witness :
  ∃ a s1,
    new_FixedFileArtifact "/etc/conf" st = Ok (a, s1)
    ∧ let d := secHashObject
                 (VTuple [VStr (getHash "FixedFileArtifact");
                          VStr (hashBytes "rate=2")]) in
      ∃ s2,
        secHash 1 a (set_fs files_later s1) = Ok (d, s2)
        ∧ ∀ fsys' m, secHash (S m) a (set_fs fsys' s2) = Ok (d, set_fs fsys' s2).
Proof.
  eexists _, _. split; [vm_compute; reflexivity|].
  eapply (fixedFile_hash_at_first_call st "FixedFileArtifact" "/etc/conf"
            _ _ files_later "rate=2" 0); vm_compute; reflexivity.
Defined.

(** Node 1 is an input of job 3 and of job 6: it is listed once. *)
Example ancestors_diamond : ancestors objects [6] = Ok [6; 5; 3; 1].
Proof. vm_compute. reflexivity. Qed.

Example objects_closed : closed_heap objects.
Proof. apply (bool_decide_unpack _). vm_compute. exact I. Qed.

Lemma ancestors_each_once_witness :
  ∃ ret,
    ancestors objects [6] = Ok ret
    ∧ NoDup ret
    ∧ (∀ a, a ∈ ret ↔ reach (parents objects) [6] a)
    ∧ (∀ a, a ∈ [6] → a ∈ ret).
Proof.
  apply (ancestors_each_once objects [6]).
  intros a. apply reach_closed; [exact objects_closed|].
  apply (bool_decide_unpack _). vm_compute. exact I.
Defined.

(** On the cycle, both traversals stop. *)
Example ancestors_cycle : ancestors cyclic [2] = Ok [2; 1].
Proof. vm_compute. reflexivity. Qed.

Example ancestorArtifacts_cycle : ancestorArtifacts cyclic [2] = Ok [2].
Proof. vm_compute. reflexivity. Qed.

Lemma traversals_terminate_witness :
  (walk_loop (parents cyclic) 4 [2] ∅ [] = ancestors cyclic [2]
   ∧ ancestors cyclic [2] ≠ Err OutOfFuel)
  ∧ (walk_loop (parentArtifacts cyclic) 4 [2] ∅ [] = ancestorArtifacts cyclic [2]
     ∧ ancestorArtifacts cyclic [2] ≠ Err OutOfFuel).
Proof.
  apply (traversals_terminate cyclic [2] 4); vm_compute; lia.
Defined.

Example st_wf : wf_heap (fs st) (heap st) id.
Proof. apply wf_heap_check, (bool_decide_unpack _). vm_compute. exact I. Qed.

Example st_drifted_wf : wf_heap (fs st_drifted) (heap st_drifted) id.
Proof. apply wf_heap_check, (bool_decide_unpack _). vm_compute. exact I. Qed.

(** The check passes on the graph as built, and raises once the hash
    stored at node 1 is replaced. *)
Lemma checkAllSecHash_raises_iff_witness :
  ¬ is_Err (checkAllSecHash 6 6 st) ∧ is_Err (checkAllSecHash 6 6 st_drifted).
Proof.
  split.
  - intros Herr.
    apply (checkAllSecHash_raises_iff st 6 id 6) in Herr
      as (b & _ & d & d' & s' & Hst & _);
      [|exact st_wf|vm_compute; eauto|vm_compute; lia].
    assert (map_Forall (λ _ o, _secHash o = None) objects) as Hnone.
    { apply (bool_decide_unpack _). vm_compute. exact I. }
    unfold stored in Hst. simpl in Hst.
    destruct (objects !! b) as [o|] eqn:Ho; [|done].
    specialize (Hnone b o Ho). simpl in *. congruence.
  - apply (checkAllSecHash_raises_iff st_drifted 6 id 6);
      [exact st_drifted_wf|vm_compute; eauto|vm_compute; lia|].
    exists 1. split.
    + apply (reach_step _ _ 6 [5; 1]); [by constructor; left|done|set_solver].
    + eexists _, _, _. split; [vm_compute; reflexivity|].
      split; [vm_compute; reflexivity|].
      intros Heq. apply toy_secHashObject_inj in Heq. discriminate Heq.
Defined.

Lemma secHash_memoized_witness :
  is_Ok (secHash 7 6 st)
  ∧ ∀ d s1, secHash 7 6 st = Ok (d, s1) →
      (∃ t, trace s1 = trace st ++ t ∧ occurrences (EvCompute 6) t = 1)
      ∧ stored (heap s1) 6 = Some d
      ∧ ∀ inputs s2, set_inputs 6 inputs s1 = Ok (tt, s2) →
          secHash 1 6 s2 = Ok (d, s2).
Proof.
  destruct (secHash_memoized st 6 (Obj "EvalJob" None (Job [5; 1] "eval")) 7)
    as [Htotal Hfirst]; [vm_compute; reflexivity..|].
  split; [apply (Htotal id); [exact st_wf|vm_compute; lia]|].
  intros d s1 Hrun. destruct (Hfirst d s1 Hrun) as (Honce & _ & Hst & Hlater).
  split; [exact Honce|]. split; [exact Hst|]. intros inputs s2 Hset.
  destruct (Hlater [StepSetInputs 6 inputs] s2) as [_ Hm]; [|exact (Hm 0)].
  unfold run_steps. cbn [for_each do_step]. unfold bind at 1. by rewrite Hset.
Defined.

(** The caching thunk 7, after a first [loadValue] and a [secHash] elsewhere;
    the thunk 10 that does not cache, at the start. *)
Lemma thunk_loadValue_caching_witness :
  (run_steps steps_loaded st = Ok (tt, st_loaded)
   ∧ occurrences (EvThunk 7) (trace st_loaded) = 1
   ∧ ∃ v s2,
       loadValue 1 7 repo st_loaded = Ok (PRef v, s2)
       ∧ occurrences (EvThunk 7) (trace s2) = 1)
  ∧ loadValue 1 10 repo st
    = Ok (PRef 0, State (heap st) (fs st) 1 (trace st ++ [EvThunk 10])).
Proof.
  split.
  - split; [vm_compute; reflexivity|]. split; [vm_compute; reflexivity|].
    destruct (thunk_loadValue_caching st 7
                (Obj "ThunkArtifact" None (ThunkArtifact "makeModel" true None))
                "makeModel" true steps_loaded st_loaded 1 repo)
      as (_ & [[r s2] Hload] & Hfacts); [vm_compute; reflexivity..| |].
    { left. vm_compute. reflexivity. }
    destruct (Hfacts r s2 Hload) as (v & -> & Hcalls & _).
    exists v, s2. split; [exact Hload|exact Hcalls].
  - apply (thunk_loadValue_caching st 10
             (Obj "ThunkArtifact" None (ThunkArtifact "readClock" false None))
             "readClock" false [] st 1 repo); vm_compute; reflexivity.
Defined.

End Witness.

(** ** More examples, run *)

Module WitnessMore.
Import Toy Example.

(** The artifacts behind the output 5: itself and the input 1 of its job. *)
Lemma ancestorArtifacts_each_once_witness :
  NoDup [5; 1]
  ∧ (∀ a, a ∈ [5; 1] ↔ reach (parentArtifacts objects) [5] a)
  ∧ (∀ a, a ∈ [5] → a ∈ [5; 1])
  ∧ (∀ a, a ∈ [5; 1] → artifact_at objects a = true).
Proof.
  apply (ancestorArtifacts_each_once objects [5] [5; 1]).
  vm_compute. reflexivity.
Defined.

Lemma ancestors_discovery_order_witness :
  head [6; 5; 3; 1] = last [6]
  ∧ ∀ i x, [6; 5; 3; 1] !! i = Some x →
      x ∈ [6]
      ∨ ∃ j y o, j < i ∧ [6; 5; 3; 1] !! j = Some y ∧ objects !! y = Some o
                 ∧ x ∈ obj_parents o.
Proof.
  apply (ancestors_discovery_order objects [6] [6; 5; 3; 1]).
  vm_compute. reflexivity.
Defined.

Example objects_typed : typed_heap objects.
Proof. apply (bool_decide_unpack _). vm_compute. exact I. Qed.

Lemma ancestorArtifacts_of_ancestors_witness :
  ∃ arts nodes,
    ancestorArtifacts objects [5] = Ok arts
    ∧ ancestors objects [5] = Ok nodes
    ∧ ∀ a, a ∈ arts ↔ a ∈ nodes ∧ artifact_at objects a = true.
Proof.
  apply (ancestorArtifacts_of_ancestors objects [5]).
  - exact objects_typed.
  - apply (bool_decide_unpack _). vm_compute. exact I.
Defined.

(** The job 1 that takes its own output 2 as input. *)
Definition st_cyclic : state := State cyclic files 0 [].

Lemma secHash_on_cycle_raises_witness :
  is_Err (secHash 100 1 st_cyclic)
  ∧ is_Err (checkSecHash 100 1 st_cyclic)
  ∧ is_Err (checkAllSecHash 100 1 st_cyclic).
Proof.
  apply (secHash_on_cycle_raises st_cyclic (λ x, x = 1 ∨ x = 2) 1 100);
    [|by left].
  intros c [-> | ->]; eexists; (split; [vm_compute; reflexivity|]);
    (split; [reflexivity|]).
  - exists 2. split; [vm_compute; set_solver|by right].
  - exists 1. split; [vm_compute; set_solver|by left].
Defined.

Lemma checkAllSecHash_passes_again_witness :
  is_Ok (checkAllSecHash 6 6 st)
  ∧ ∀ s', checkAllSecHash 6 6 st = Ok (tt, s') →
      is_Ok (checkAllSecHash 6 6 s').
Proof.
  destruct (checkAllSecHash_passes_again st 6 id 6) as [Hfirst Hagain];
    [exact Witness.st_wf|vm_compute; eauto|vm_compute; lia|].
  split.
  - apply Hfirst. intros b _.
    assert (map_Forall (λ _ o, _secHash o = None) objects) as Hnone.
    { apply (bool_decide_unpack _). vm_compute. exact I. }
    unfold stored. simpl. destruct (objects !! b) as [o|] eqn:Ho; [|done].
    exact (Hnone b o Ho).
  - intros s' Hrun. exact (proj2 (Hagain s' Hrun)).
Defined.

(** The two fixed directories at "/data" have one hash. *)
Lemma fixedDir_hash_location_only_witness :
  ∃ d1 d2 s1' s2',
    computeSecHash 1 1 st = Ok (d1, s1')
    ∧ computeSecHash 1 2 st = Ok (d2, s2')
    ∧ (getHash "FixedDirArtifact" = getHash "FixedDirArtifact" →
       "/data" = "/data" → d1 = d2)
    ∧ (Inj (=) (=) secHashObject → d1 = d2 →
       getHash "FixedDirArtifact" = getHash "FixedDirArtifact"
       ∧ "/data" = "/data").
Proof.
  apply (fixedDir_hash_location_only st st 1 2
           (Obj "FixedDirArtifact" None (FixedDirArtifact "/data"))
           (Obj "FixedDirArtifact" None (FixedDirArtifact "/data"))
           "/data" "/data" 1 1); vm_compute; reflexivity.
Defined.

(** The same bytes at another place: the same hash. *)
Definition st_copy : state :=
  State (<[11 := Obj "FixedFileArtifact" None (FixedFileArtifact "/tmp/conf")]>
           objects)
    (<["/tmp/conf" := File "rate=1"]> files) 0 [].

Lemma fixedFile_hash_contents_only_witness :
  ∃ d1 d2 s1' s2',
    computeSecHash 1 8 st_copy = Ok (d1, s1')
    ∧ computeSecHash 1 11 st_copy = Ok (d2, s2')
    ∧ d1 = d2.
Proof.
  destruct (fixedFile_hash_contents_only st_copy st_copy 8 11
              (Obj "FixedFileArtifact" None (FixedFileArtifact "/etc/conf"))
              (Obj "FixedFileArtifact" None (FixedFileArtifact "/tmp/conf"))
              "/etc/conf" "/tmp/conf" "rate=1" "rate=1" 1 1)
    as (d1 & d2 & s1' & s2' & H1 & H2 & Hsame & _);
    [vm_compute; reflexivity..|].
  exists d1, d2, s1', s2'. split; [exact H1|]. split; [exact H2|].
  apply Hsame; reflexivity.
Defined.

(** The example graph on a disk with nothing on it. *)
Definition st_nofiles : state := State objects ∅ 0 [].

Lemma fixedFile_missing_raises_witness :
  computeSecHash 1 8 st_nofiles = Err IOError
  ∧ checkSecHash 1 8 st_nofiles = Err IOError
  ∧ secHash 2 8 st_nofiles = Err IOError.
Proof.
  apply (fixedFile_missing_raises st_nofiles 8
           (Obj "FixedFileArtifact" None (FixedFileArtifact "/etc/conf"))
           "/etc/conf" 1); [vm_compute; reflexivity..|].
  intros bytes. vm_compute. discriminate.
Defined.

(** "/etc/conf" goes from "rate=1" to "rate=2" after the hash of node 8 was
    stored. *)
Lemma fixedFile_change_detected_witness :
  ∃ d s1,
    secHash 1 8 st = Ok (d, s1)
    ∧ checkSecHash 0 8 (set_fs Witness.files_later s1) = Err (HashChanged 8).
Proof.
  eexists _, _. split; [vm_compute; reflexivity|].
  edestruct (fixedFile_change_detected st 8
               (Obj "FixedFileArtifact" None (FixedFileArtifact "/etc/conf"))
               "/etc/conf" "rate=1" "rate=2" Witness.files_later 0 0)
    as (_ & _ & Hchanged); [vm_compute; reflexivity..|].
  apply Hchanged; [exact toy_secHashObject_inj|].
  vm_compute. discriminate.
Defined.

(** The inputs [5; 1] of job 6 in the other order, after its hash was
    stored. *)
Definition st_reordered : state :=
  match set_inputs 6 [1; 5] st_hashed with
  | Ok (_, s) => s
  | Err _ => st
  end.

Example st_reordered_wf : wf_heap (fs st_reordered) (heap st_reordered) id.
Proof. apply wf_heap_check, (bool_decide_unpack _). vm_compute. exact I. Qed.

Example hashes_5_1_differ e :
  identityHash st 5 e → identityHash st_reordered 1 e → False.
Proof.
  rewrite !identityHash_idhash. intros H5 H1.
  assert (∃ d5 d1, idhash (fs st) (heap st) 5 d5
                   ∧ idhash (fs st_reordered) (heap st_reordered) 1 d1
                   ∧ d5 ≠ d1) as (d5 & d1 & H5' & H1' & Hne).
  { eexists _, _. split; [exists 3; vm_compute; reflexivity|].
    split; [exists 1; vm_compute; reflexivity|].
    intros Heq. apply toy_secHashObject_inj in Heq. discriminate Heq. }
  apply Hne. rewrite <-(idhash_det _ _ _ _ _ H5 H5').
  exact (idhash_det _ _ _ _ _ H1 H1').
Qed.

Lemma job_inputs_change_detected_witness :
  checkSecHash 6 6 st_reordered = Err (HashChanged 6).
Proof.
  epose proof (job_inputs_change_detected st 6
                 (Obj "EvalJob" None (Job [5; 1] "eval")) [5; 1] "eval" 6 _
                 st_hashed [1; 5] st_reordered id 6) as Hthm.
  destruct Hthm as [_ Hchanged];
    [vm_compute; reflexivity..|exact st_reordered_wf|vm_compute; lia|].
  apply Hchanged; [exact toy_secHashObject_inj|].
  intros Hsame. apply Forall2_cons_1 in Hsame as [(e & H5 & H1) _].
  exact (hashes_5_1_differ e H5 H1).
Defined.

Lemma newOutput_twice_same_hash_witness :
  ∃ a1 s1 a2 s2,
    newOutput 3 st = Ok (a1, s1)
    ∧ newOutput 3 s1 = Ok (a2, s2)
    ∧ a1 ≠ a2
    ∧ ∀ n m d1 d2 s3 s4,
        secHash n a1 s2 = Ok (d1, s3) → secHash m a2 s3 = Ok (d2, s4) →
        d1 = d2.
Proof.
  eexists _, _, _, _. split; [vm_compute; reflexivity|].
  split; [vm_compute; reflexivity|].
  edestruct (newOutput_twice_same_hash st 3) as (Hne & _ & _ & _ & _ & Hsame);
    [vm_compute; reflexivity..|].
  split; [exact Hne|exact Hsame].
Defined.

(** After its first [loadValue] the caching thunk 7 is still the thunk
    "makeModel" that caches. *)
Lemma methods_keep_fields_witness :
  ∃ s' o',
    exec 1 (CallLoadValue 7 repo) st = Ok (tt, s')
    ∧ heap s' !! 7 = Some o' ∧ cls o' = "ThunkArtifact"
    ∧ ∃ v', body o' = ThunkArtifact "makeModel" true v'.
Proof.
  epose proof (methods_keep_fields 1 (CallLoadValue 7 repo) st tt _ 7
                 (Obj "ThunkArtifact" None
                    (ThunkArtifact "makeModel" true None))) as Hthm.
  destruct Hthm as (o' & Ho' & Hcls & Hfields); [vm_compute; reflexivity..|].
  eexists _, o'. split; [vm_compute; reflexivity|].
  split; [exact Ho'|]. split; [exact Hcls|exact Hfields].
Defined.

(** Loading the thunk 10 leaves the disk alone. *)
Lemma only_saveValue_writes_only_thunks_run_witness :
  ∃ s', exec 1 (CallLoadValue 10 repo) st = Ok (tt, s') ∧ fs s' = fs st.
Proof.
  eexists. split; [vm_compute; reflexivity|].
  edestruct (only_saveValue_writes_only_thunks_run 1 (CallLoadValue 10 repo)
               st tt) as [[Hfs|Hfs] _]; [vm_compute; reflexivity|exact Hfs|].
  destruct Hfs as (? & ? & ? & ? & ? & ? & Hc & _). discriminate Hc.
Defined.

(** The output 5 keeps its place when its job 3 gets other inputs. *)
Lemma jobArtifact_loc_stable_witness :
  ∃ p s1 s2,
    loc 3 5 repo st = Ok (p, s1)
    ∧ run_steps [StepSetInputs 3 [2; 1]; StepCall 1 (CallLoadValue 7 repo)] s1
      = Ok (tt, s2)
    ∧ loc 1 5 repo s2 = Ok (p, s2).
Proof.
  eexists _, _, _. split; [vm_compute; reflexivity|].
  split; [vm_compute; reflexivity|].
  eapply (jobArtifact_loc_stable st 5 (Obj "JobArtifact" None (JobArtifact 3))
            3 3 repo _ _
            [StepSetInputs 3 [2; 1]; StepCall 1 (CallLoadValue 7 repo)] _);
    vm_compute; reflexivity.
Defined.

(** The value 1 saved as the output 5. *)
Lemma jobArtifact_save_then_load_witness :
  ∃ s1,
    saveValue 3 5 repo 1 st = Ok (tt, s1)
    ∧ isDone 1 5 repo s1 = Ok (true, s1)
    ∧ loadValue 1 5 repo s1 = Ok (PRef 1, s1).
Proof.
  assert (∃ p s0 d,
            loc 3 5 repo st = Ok (p, s0)
            ∧ heap s0 !! 5 = Some (Obj "JobArtifact" (Some d) (JobArtifact 3)))
    as (p & s0 & d & Hloc0 & Ho0).
  { eexists _, _, _. split; vm_compute; reflexivity. }
  set (s1 := State (heap s0) (<[p := File (pickle 1)]> (fs s0)) (world s0)
               (trace s0)).
  assert (saveValue 3 5 repo 1 st = Ok (tt, s1)) as Hsave.
  { unfold saveValue, bind at 1, get_obj.
    replace (heap st !! 5) with (Some (Obj "JobArtifact" None (JobArtifact 3)))
      by (vm_compute; reflexivity).
    cbn [body]. unfold bind. by rewrite Hloc0. }
  exists s1. split; [exact Hsave|].
  destruct (jobArtifact_save_then_load st 5
              (Obj "JobArtifact" None (JobArtifact 3)) 3 3 repo 1 s1)
    as (p' & Hloc & Hall); [vm_compute; reflexivity|reflexivity|exact Hsave|].
  destruct (Hall 5 _ 3 1 s1 Ho0 eq_refl (Hloc 0)) as [Hdone Hload].
  split; [exact Hdone|]. rewrite Hload.
  replace (unpickle (pickle 1)) with (Ok (A:=objref) 1)
    by (vm_compute; reflexivity).
  reflexivity.
Defined.

Lemma parentJobs_producers_witness : parentJobs 6 st = Ok ([3], st).
Proof.
  apply (parentJobs_producers st 6 (Obj "EvalJob" None (Job [5; 1] "eval"))
           [5; 1] "eval"); [vm_compute; reflexivity..|].
  apply (bool_decide_unpack _). vm_compute. exact I.
Defined.

(** Utterance [u] has input and output [u]; its log probability is their
    sum. *)
Lemma logProb_app_witness :
  CorpusRest.logProb (λ u : nat, (u, u)) 0 Nat.add (λ i o, Ok (i + o))
    ([1; 2] ++ [3])
  = Ok (6 + 6).
Proof.
  rewrite (CorpusRest.logProb_app (λ u : nat, (u, u)) 0 Nat.add
             (λ i o, Ok (i + o)) [1; 2] [3]).
  - reflexivity.
  - intros x y z. lia.
  - intros x. reflexivity.
  - intros x. lia.
Defined.

(** The thunk 7, hashed, then loaded while a job gets other inputs. *)
Lemma leaf_check_never_fails_witness :
  ∃ d s1 s2,
    secHash 1 7 st = Ok (d, s1)
    ∧ run_steps [StepCall 1 (CallLoadValue 7 repo);
                 StepSetInputs 3 [2; 1]] s1 = Ok (tt, s2)
    ∧ ∃ s3, checkSecHash 0 7 s2 = Ok (tt, s3).
Proof.
  eexists _, _, _. split; [vm_compute; reflexivity|].
  split; [vm_compute; reflexivity|].
  eapply (leaf_check_never_fails st 7
            (Obj "ThunkArtifact" None (ThunkArtifact "makeModel" true None))
            1 _ _
            [StepCall 1 (CallLoadValue 7 repo); StepSetInputs 3 [2; 1]]);
    [vm_compute; reflexivity| |vm_compute; reflexivity..].
  left. by eexists _, _, _.
Defined.

(** An output 11 of job 4, which has the code of job 3 and the input 2 in
    place of 1, another name, and the place of the output 5 of job 3. *)
Definition st_two : state :=
  State (<[11 := Obj "JobArtifact" None (JobArtifact 4)]> objects) files 0 [].

Lemma equal_jobs_share_location_witness :
  ∃ p1 s1 p2 s2,
    loc 4 5 repo st_two = Ok (p1, s1)
    ∧ loc 4 11 repo s1 = Ok (p2, s2)
    ∧ p1 = p2.
Proof.
  eexists _, _, _, _. split; [vm_compute; reflexivity|].
  split; [vm_compute; reflexivity|].
  epose proof (equal_jobs_share_location st_two 5 11 _ _ 3 4 _ _
                 [1] "train" [2] "train-again" repo 4 4 _ _ _ _) as Hthm.
  destruct Hthm as [Hsame _]; [vm_compute; reflexivity..|].
  apply Hsame. split; [reflexivity|]. split; [reflexivity|].
  constructor; [|constructor].
  eexists. split; eexists 1, _; vm_compute; reflexivity.
Defined.

End WitnessMore.
